(** * PWM output driver: a shallow embedding of [src/main/drivers/pwm_output.c]

    The driver turns motor and servo commands into timer compare values.
    The embedding follows the C file function by function:

    - machine integers are [Z] with the wrap-around of the C type written
      out ([uint8], [uint16], [uint32], [sint32]);
    - [float] is IEEE-754 binary32, computed with the reference
      implementation of [SpecFloat] at precision 24, and [lrintf] rounds to
      the nearest integer, ties to even (the default rounding mode);
    - the static banks [motors] and [servos] are lists read with stdpp's
      lookup, an index past the end being a fault (undefined in C);
    - a compare-register handle is an optional address into a register
      store, [None] standing for the null pointer;
    - the timer, GPIO and digital-protocol primitives the file calls but
      does not define are recorded, in call order, in a trace of events. *)

From Stdlib Require Import ZArith Lia List Bool.
From Stdlib Require Import Floats.SpecFloat.
From stdpp Require Import base option list gmap.

Open Scope Z_scope.

(** ** Machine integers *)

Module MachineInt.

Definition wrap_unsigned (bits z : Z) : Z := z mod 2 ^ bits.

Definition wrap_signed (bits z : Z) : Z :=
  (z + 2 ^ (bits - 1)) mod 2 ^ bits - 2 ^ (bits - 1).

Definition uint8 : Z -> Z := wrap_unsigned 8.
Definition uint16 : Z -> Z := wrap_unsigned 16.
Definition uint32 : Z -> Z := wrap_unsigned 32.

(** [int] is 32 bits wide on every target of the firmware.  Signed overflow
    is undefined in ISO C; the model takes the two's-complement wrap that
    the processor's multiply and add instructions produce. *)
Definition sint32 : Z -> Z := wrap_signed 32.

End MachineInt.
Export MachineInt.

(** ** Single-precision arithmetic and [lrintf] *)

Module Float32.

Definition prec : Z := 24.
Definition emax : Z := 128.

(** Conversion of an integer to [float], as a C cast or the usual
    arithmetic conversion does it (round to nearest, ties to even). *)
Definition of_int (n : Z) : spec_float := binary_normalize prec emax n 0 false.

Definition mul : spec_float -> spec_float -> spec_float := SFmul prec emax.
Definition add : spec_float -> spec_float -> spec_float := SFadd prec emax.
Definition div : spec_float -> spec_float -> spec_float := SFdiv prec emax.

(** The integer nearest to [num / den] ([den] positive), a tie going to the
    even neighbour. *)
Definition round_half_even (num den : Z) : Z :=
  let q := num / den in
  match 2 * (num mod den) ?= den with
  | Lt => q
  | Gt => q + 1
  | Eq => if Z.even q then q else q + 1
  end.

(** [lrintf]: the argument rounded to an integer in the current rounding
    mode, which the firmware never changes from round-to-nearest-even.  On
    an infinity or a NaN the C result is unspecified; the model returns 0
    there, a case no 16-bit command reaches. *)
Definition lrintf (x : spec_float) : Z :=
  match x with
  | S754_finite s m e =>
      let magnitude :=
        match e with
        | Zneg p => round_half_even (Zpos m) (Z.pow_pos 2 p)
        | _ => Zpos m * 2 ^ e
        end in
      if s then - magnitude else magnitude
  | S754_zero _ => 0
  | S754_infinity _ | S754_nan => 0
  end.

End Float32.

(** ** The compare-value expressions of the five analog protocols

    Each definition is the right-hand side of the assignment to
    [*motors[index].ccr] in the function named after it, before the
    conversion to the register's type.  The timer clock macros come from
    [pwm_output.h], which differs per processor family, and are arguments
    here. *)

Module Encoder.

(** [pwmWriteBrushed]: [(value - 1000) * motors[index].period / 1000], in
    [int] arithmetic; [/] truncates towards zero. *)
Definition brushed (period value : Z) : Z :=
  Z.quot (sint32 (sint32 (value - 1000) * period)) 1000.

(** [pwmWriteStandard]: [value]. *)
Definition standard (value : Z) : Z := value.

(** [pwmWriteOneShot125]:
    [lrintf((float)(value * ONESHOT125_TIMER_MHZ/8.0f))]. *)
Definition oneshot125 (mhz value : Z) : Z :=
  Float32.lrintf
    (Float32.div (Float32.of_int (sint32 (value * mhz))) (Float32.of_int 8)).

(** [pwmWriteOneShot42]:
    [lrintf((float)(value * ONESHOT42_TIMER_MHZ/24.0f))]. *)
Definition oneshot42 (mhz value : Z) : Z :=
  Float32.lrintf
    (Float32.div (Float32.of_int (sint32 (value * mhz))) (Float32.of_int 24)).

(** [MULTISHOT_5US_PW] and [MULTISHOT_20US_MULT]. *)
Definition MULTISHOT_5US_PW (mhz : Z) : Z := sint32 (mhz * 5).
Definition MULTISHOT_20US_MULT (mhz : Z) : spec_float :=
  Float32.div (Float32.of_int (sint32 (mhz * 20))) (Float32.of_int 1000).

(** [pwmWriteMultiShot]:
    [lrintf(((float)(value-1000) * MULTISHOT_20US_MULT) + MULTISHOT_5US_PW)]. *)
Definition multishot (mhz value : Z) : Z :=
  Float32.lrintf
    (Float32.add
       (Float32.mul (Float32.of_int (sint32 (value - 1000)))
                    (MULTISHOT_20US_MULT mhz))
       (Float32.of_int (MULTISHOT_5US_PW mhz))).

End Encoder.

(** ** Data model *)

(** [ioTag_t]: a pin tag, [0] meaning that no pin is assigned. *)
Definition ioTag_t : Type := Z.
(** [IO_t]: the handle of a resolved GPIO pin. *)
Definition IO_t : Type := Z.

(** The fields of [timerHardware_t] that the driver reads. *)
Record timerHardware_t : Type := {
  timerHardware_tim : Z;
  timerHardware_channel : Z;
  timerHardware_output : Z
}.

(** The protocols of [motorPwmProtocolTypes_e]; [PWM_TYPE_OTHER] stands for
    any other value of the configuration byte. *)
Inductive motorPwmProtocolTypes_e : Type :=
| PWM_TYPE_STANDARD
| PWM_TYPE_ONESHOT125
| PWM_TYPE_ONESHOT42
| PWM_TYPE_MULTISHOT
| PWM_TYPE_BRUSHED
| PWM_TYPE_DSHOT600
| PWM_TYPE_DSHOT300
| PWM_TYPE_DSHOT150
| PWM_TYPE_OTHER.

(** The functions a port's [pwmWritePtr] can point to. *)
Inductive pwmWriteFuncPtr : Type :=
| fn_pwmWriteBrushed
| fn_pwmWriteStandard
| fn_pwmWriteOneShot125
| fn_pwmWriteOneShot42
| fn_pwmWriteMultiShot
| fn_pwmWriteDigital.

(** The functions [pwmCompleteWritePtr] can point to. *)
Inductive pwmCompleteWriteFuncPtr : Type :=
| fn_pwmCompleteOneshotMotorUpdate
| fn_pwmCompleteDigitalMotorUpdate.

#[global] Instance pwmWriteFuncPtr_eq_dec : EqDecision pwmWriteFuncPtr.
Proof. solve_decision. Defined.

(** [pwmOutputPort_t].  [ccr] and [tim] are pointers: [None] is null. *)
Record pwmOutputPort_t : Type := {
  ccr : option Z;
  tim : option Z;
  period : Z;
  pwmWritePtr : option pwmWriteFuncPtr;
  enabled : bool;
  io : IO_t
}.

(** A slot of a zero-initialised static bank. *)
Definition port_zero : pwmOutputPort_t :=
  {| ccr := None; tim := None; period := 0; pwmWritePtr := None;
     enabled := false; io := 0 |}.

(** [motorConfig_t] and [servoConfig_t].  The tag arrays have one entry per
    supported slot; a list stands for its entries in order, any further
    entry being unset. *)
Record motorConfig_t : Type := {
  motorPwmRate : Z;
  motorPwmProtocol : motorPwmProtocolTypes_e;
  useUnsyncedPwm : bool;
  ioTags : list ioTag_t
}.

Record servoConfig_t : Type := {
  servoCenterPulse : Z;
  servoPwmRate : Z;
  servo_ioTags : list ioTag_t
}.

(** [TIM_OCInitTypeDef], restricted to the fields [pwmOCConfig] assigns. *)
Inductive TIM_OCMode_t : Type := TIM_OCMode_PWM2.
Inductive TIM_OCPolarity_t : Type := TIM_OCPolarity_High | TIM_OCPolarity_Low.
Inductive TIM_OCIdleState_t : Type := TIM_OCIdleState_Set.

Record TIM_OCInitTypeDef : Type := {
  TIM_OCMode : TIM_OCMode_t;
  TIM_OutputState : bool;
  TIM_OutputNState : bool;
  TIM_Pulse : Z;
  TIM_OCPolarity : TIM_OCPolarity_t;
  TIM_OCIdleState : TIM_OCIdleState_t
}.

Inductive resourceOwner_t : Type := OWNER_MOTOR | OWNER_SERVO.

(** Calls into the timer, GPIO and digital-protocol layers, which the file
    uses and does not define.  A call is recorded with its arguments. *)
Inductive hwEvent : Type :=
| Ev_configTimeBase (tim period mhz : Z)
| Ev_timerOCInit (tim channel : Z) (init : TIM_OCInitTypeDef)
| Ev_timerOCPreloadConfig (tim channel : Z)
| Ev_TIM_CtrlPWMOutputs (tim : Z)
| Ev_TIM_Cmd (tim : Z)
| Ev_IOInit (pin : IO_t) (owner : resourceOwner_t) (index : nat)
| Ev_IOConfigGPIO (pin : IO_t)
| Ev_timerForceOverflow (tim : Z)
| Ev_pwmDigitalMotorHardwareConfig
    (hw : timerHardware_t) (index : nat) (protocol : motorPwmProtocolTypes_e)
| Ev_pwmWriteDigital (index : nat) (value : Z)
| Ev_pwmCompleteDigitalMotorUpdate (motorCount : nat).

(** The driver's static variables, the compare registers reached through
    the ports' handles, and the trace of calls to the other layers.  [regs]
    holds, per register address, the value the driver last stored there; the
    other layers are taken to leave these registers alone, except the one a
    call configures, which [pwmOutConfig] overwrites at once. *)
Record state : Type := {
  motors : list pwmOutputPort_t;
  servos : list pwmOutputPort_t;
  pwmCompleteWritePtr : option pwmCompleteWriteFuncPtr;
  pwmMotorsEnabled : bool;
  regs : gmap Z Z;
  trace : list hwEvent
}.

Definition set_motors (ms : list pwmOutputPort_t) (st : state) : state :=
  {| motors := ms; servos := servos st;
     pwmCompleteWritePtr := pwmCompleteWritePtr st;
     pwmMotorsEnabled := pwmMotorsEnabled st;
     regs := regs st; trace := trace st |}.

Definition set_servos (ss : list pwmOutputPort_t) (st : state) : state :=
  {| motors := motors st; servos := ss;
     pwmCompleteWritePtr := pwmCompleteWritePtr st;
     pwmMotorsEnabled := pwmMotorsEnabled st;
     regs := regs st; trace := trace st |}.

Definition set_pwmCompleteWritePtr
    (f : option pwmCompleteWriteFuncPtr) (st : state) : state :=
  {| motors := motors st; servos := servos st;
     pwmCompleteWritePtr := f;
     pwmMotorsEnabled := pwmMotorsEnabled st;
     regs := regs st; trace := trace st |}.

Definition set_pwmMotorsEnabled (b : bool) (st : state) : state :=
  {| motors := motors st; servos := servos st;
     pwmCompleteWritePtr := pwmCompleteWritePtr st;
     pwmMotorsEnabled := b;
     regs := regs st; trace := trace st |}.

Definition set_regs (r : gmap Z Z) (st : state) : state :=
  {| motors := motors st; servos := servos st;
     pwmCompleteWritePtr := pwmCompleteWritePtr st;
     pwmMotorsEnabled := pwmMotorsEnabled st;
     regs := r; trace := trace st |}.

(** A call to another layer: the event is appended to the trace. *)
Definition emit (e : hwEvent) (st : state) : state :=
  {| motors := motors st; servos := servos st;
     pwmCompleteWritePtr := pwmCompleteWritePtr st;
     pwmMotorsEnabled := pwmMotorsEnabled st;
     regs := regs st; trace := trace st ++ [e] |}.

(** ** Faults

    What C leaves undefined is a fault of the model: an index past the end
    of a bank, a store through a null pointer, a division by zero. *)
Inductive fault : Type :=
| OutOfBounds (index : nat)
| NullPointer
| DivisionByZero.

Inductive result (A : Type) : Type :=
| Ok (a : A)
| Fault (f : fault).
Arguments Ok {A} a.
Arguments Fault {A} f.

#[global] Instance result_ret : MRet result := fun A a => Ok a.
#[global] Instance result_bind : MBind result := fun A B k m =>
  match m with
  | Ok a => k a
  | Fault f => Fault f
  end.

(** ** Loops

    [for (int index = start; index < start + count; index++) body], where
    the body may leave the loop with [break]. *)
Inductive loop_exit : Type := Continue | Break.

Fixpoint for_loop {A : Type} (count : nat) (index : nat)
    (body : nat -> A -> result (loop_exit * A)) (a : A) : result A :=
  match count with
  | O => Ok a
  | S count' =>
      match body index a with
      | Ok (Continue, a') => for_loop count' (S index) body a'
      | Ok (Break, a') => Ok a'
      | Fault f => Fault f
      end
  end.

(** ** The target

    What the driver takes from [platform.h], [pwm_output.h], [timer.h] and
    [io.h]: bank sizes, timer clock macros, the width of [timCCR_t], the
    output flags of a timer channel, and the resolvers of pin tags. *)
Inductive timCCR_width : Type := CCR_16bit | CCR_32bit.

Class Target : Type := {
  MAX_SUPPORTED_MOTORS : nat;
  MAX_SUPPORTED_SERVOS : nat;
  USE_DSHOT : bool;
  ONESHOT125_TIMER_MHZ : Z;
  ONESHOT42_TIMER_MHZ : Z;
  MULTISHOT_TIMER_MHZ : Z;
  PWM_BRUSHED_TIMER_MHZ : Z;
  PWM_TIMER_MHZ : Z;
  timCCR_bits : timCCR_width;
  TIMER_OUTPUT_ENABLED : Z;
  TIMER_OUTPUT_INVERTED : Z;
  TIMER_OUTPUT_N_CHANNEL : Z;
  timerGetByTag : ioTag_t -> Z -> option timerHardware_t;
  timerChCCR : timerHardware_t -> Z;
  IOGetByTag : ioTag_t -> IO_t
}.

(** ** The driver *)

Section Driver.

Context `{Target}.

(** Conversion to [timCCR_t], the type of a compare register. *)
Definition timCCR_t (v : Z) : Z :=
  match timCCR_bits with
  | CCR_16bit => uint16 v
  | CCR_32bit => uint32 v
  end.

(** Both banks zeroed, no completion function, motors enabled. *)
Definition initial_state : state :=
  {| motors := replicate MAX_SUPPORTED_MOTORS port_zero;
     servos := replicate MAX_SUPPORTED_SERVOS port_zero;
     pwmCompleteWritePtr := None;
     pwmMotorsEnabled := true;
     regs := ∅;
     trace := [] |}.

(** [motors[index]] and [servos[index]]. *)
Definition motor_at (index : nat) (st : state) : result pwmOutputPort_t :=
  match motors st !! index with
  | Some port => Ok port
  | None => Fault (OutOfBounds index)
  end.

Definition servo_at (index : nat) (st : state) : result pwmOutputPort_t :=
  match servos st !! index with
  | Some port => Ok port
  | None => Fault (OutOfBounds index)
  end.

(** [*handle = value]. *)
Definition store (handle : option Z) (value : Z) (st : state) : result state :=
  match handle with
  | Some a => Ok (set_regs (<[a := timCCR_t value]> (regs st)) st)
  | None => Fault NullPointer
  end.

(** [timerForceOverflow(tim)]; the timer layer reads through the pointer. *)
Definition timerForceOverflow (t : option Z) (st : state) : result state :=
  match t with
  | Some id => Ok (emit (Ev_timerForceOverflow id) st)
  | None => Fault NullPointer
  end.

Definition flag_set (output mask : Z) : bool := negb (Z.land output mask =? 0).

Definition pwmOCConfig (t channel value output : Z) (st : state) : state :=
  let channel := uint8 channel in
  let value := uint16 value in
  let output := uint8 output in
  let n_channel := flag_set output TIMER_OUTPUT_N_CHANNEL in
  let TIM_OCInitStructure :=
    {| TIM_OCMode := TIM_OCMode_PWM2;
       TIM_OutputState := negb n_channel;
       TIM_OutputNState := n_channel;
       TIM_Pulse := value;
       TIM_OCPolarity :=
         if flag_set output TIMER_OUTPUT_INVERTED
         then TIM_OCPolarity_High else TIM_OCPolarity_Low;
       TIM_OCIdleState := TIM_OCIdleState_Set |} in
  let st := emit (Ev_timerOCInit t channel TIM_OCInitStructure) st in
  emit (Ev_timerOCPreloadConfig t channel) st.

(** [pwmOutConfig]: the port is passed in and handed back. *)
Definition pwmOutConfig (port : pwmOutputPort_t) (timerHardware : timerHardware_t)
    (mhz period value : Z) (st : state) : pwmOutputPort_t * state :=
  let mhz := uint8 mhz in
  let period := uint16 period in
  let value := uint16 value in
  let t := timerHardware_tim timerHardware in
  let st := emit (Ev_configTimeBase t period mhz) st in
  let st := pwmOCConfig t (timerHardware_channel timerHardware) value
              (timerHardware_output timerHardware) st in
  let st :=
    if flag_set (timerHardware_output timerHardware) TIMER_OUTPUT_ENABLED
    then emit (Ev_TIM_CtrlPWMOutputs t) st else st in
  let st := emit (Ev_TIM_Cmd t) st in
  let port :=
    {| ccr := Some (timerChCCR timerHardware);
       tim := Some t;
       period := period;
       pwmWritePtr := pwmWritePtr port;
       enabled := enabled port;
       io := io port |} in
  (port, set_regs (<[timerChCCR timerHardware := timCCR_t 0]> (regs st)) st).

Definition pwmWriteBrushed (index : nat) (value : Z) (st : state) : result state :=
  port ← motor_at index st;
  store (ccr port) (Encoder.brushed (period port) value) st.

Definition pwmWriteStandard (index : nat) (value : Z) (st : state) : result state :=
  port ← motor_at index st;
  store (ccr port) (Encoder.standard value) st.

Definition pwmWriteOneShot125 (index : nat) (value : Z) (st : state) : result state :=
  port ← motor_at index st;
  store (ccr port) (Encoder.oneshot125 ONESHOT125_TIMER_MHZ value) st.

Definition pwmWriteOneShot42 (index : nat) (value : Z) (st : state) : result state :=
  port ← motor_at index st;
  store (ccr port) (Encoder.oneshot42 ONESHOT42_TIMER_MHZ value) st.

Definition pwmWriteMultiShot (index : nat) (value : Z) (st : state) : result state :=
  port ← motor_at index st;
  store (ccr port) (Encoder.multishot MULTISHOT_TIMER_MHZ value) st.

(** Modelled from the spec: [pwmWriteDigital], [pwmCompleteDigitalMotorUpdate]
    and [pwmDigitalMotorHardwareConfig] belong to the digital-protocol bridge,
    whose file is not part of this development.  The spec treats the bridge
    as opaque and keeps no compare-register bookkeeping for it, so a call is
    an event of the trace and nothing else. *)
Definition pwmWriteDigital (index : nat) (value : Z) (st : state) : result state :=
  Ok (emit (Ev_pwmWriteDigital index value) st).

Definition pwmCompleteDigitalMotorUpdate (motorCount : nat) (st : state) : result state :=
  Ok (emit (Ev_pwmCompleteDigitalMotorUpdate motorCount) st).

(** A call through a port's [pwmWritePtr]. *)
Definition call_pwmWritePtr (f : pwmWriteFuncPtr)
    : nat -> Z -> state -> result state :=
  match f with
  | fn_pwmWriteBrushed => pwmWriteBrushed
  | fn_pwmWriteStandard => pwmWriteStandard
  | fn_pwmWriteOneShot125 => pwmWriteOneShot125
  | fn_pwmWriteOneShot42 => pwmWriteOneShot42
  | fn_pwmWriteMultiShot => pwmWriteMultiShot
  | fn_pwmWriteDigital => pwmWriteDigital
  end.

Definition pwmWriteMotor (index : nat) (value : Z) (st : state) : result state :=
  if bool_decide (index < MAX_SUPPORTED_MOTORS)%nat && pwmMotorsEnabled st then
    port ← motor_at index st;
    match pwmWritePtr port with
    | Some f => call_pwmWritePtr f index value st
    | None => Ok st
    end
  else Ok st.

(** The body of the loop of [pwmShutdownPulsesForAllMotors]. *)
Definition pwmShutdownPulsesForAllMotors_body (index : nat) (st : state)
    : result (loop_exit * state) :=
  port ← motor_at index st;
  (* Set the compare register to 0, which stops the output pulsing if the
     timer overflows *)
  st ← match ccr port with
       | Some _ => store (ccr port) 0 st
       | None => Ok st
       end;
  Ok (Continue, st).

Definition pwmShutdownPulsesForAllMotors (motorCount : nat) (st : state)
    : result state :=
  for_loop motorCount 0 pwmShutdownPulsesForAllMotors_body st.

Definition pwmDisableMotors (st : state) : state := set_pwmMotorsEnabled false st.

Definition pwmEnableMotors (st : state) : state := set_pwmMotorsEnabled true st.

(** The inner loop of [pwmCompleteOneshotMotorUpdate]: whether a port
    before [index] has the timer of [motors[index]]. *)
Definition timer_overflowed (index : nat) (port : pwmOutputPort_t) (st : state)
    : result bool :=
  for_loop index 0 (fun j overflowed =>
    earlier ← motor_at j st;
    if bool_decide (tim earlier = tim port)
    then Ok (Break, true)
    else Ok (Continue, overflowed)) false.

(** The body of the outer loop of [pwmCompleteOneshotMotorUpdate]. *)
Definition pwmCompleteOneshotMotorUpdate_body (index : nat) (st : state)
    : result (loop_exit * state) :=
  port ← motor_at index st;
  (* If we have not already overflowed this timer *)
  overflowed ← timer_overflowed index port st;
  st ← (if overflowed : bool then Ok st else timerForceOverflow (tim port) st);
  (* Set the compare register to 0; it is set to the output value on the
     next main loop. *)
  st ← store (ccr port) 0 st;
  Ok (Continue, st).

Definition pwmCompleteOneshotMotorUpdate (motorCount : nat) (st : state)
    : result state :=
  for_loop motorCount 0 pwmCompleteOneshotMotorUpdate_body st.

(** A call through [pwmCompleteWritePtr]. *)
Definition call_pwmCompleteWritePtr (f : pwmCompleteWriteFuncPtr)
    : nat -> state -> result state :=
  match f with
  | fn_pwmCompleteOneshotMotorUpdate => pwmCompleteOneshotMotorUpdate
  | fn_pwmCompleteDigitalMotorUpdate => pwmCompleteDigitalMotorUpdate
  end.

Definition pwmCompleteMotorUpdate (motorCount : nat) (st : state) : result state :=
  match pwmCompleteWritePtr st with
  | Some f => call_pwmCompleteWritePtr f motorCount st
  | None => Ok st
  end.

Definition pwmIsSynced (st : state) : bool :=
  match pwmCompleteWritePtr st with
  | Some _ => true
  | None => false
  end.

Definition pwmGetMotors (st : state) : list pwmOutputPort_t := motors st.

(** The local variables of [motorInit] after its [switch].  For a digital
    protocol [timerMhzCounter] and [pwmWritePtr] are left unassigned and are
    not read; the model gives them [0] and [None]. *)
Record motorInit_locals : Type := {
  timerMhzCounter : Z;
  local_pwmWritePtr : option pwmWriteFuncPtr;
  local_useUnsyncedPwm : bool;
  local_idlePulse : Z;
  isDigital : bool
}.

Definition motorInit_switch (motorConfig : motorConfig_t) (idlePulse : Z)
    : motorInit_locals :=
  let oneshot125 :=
    {| timerMhzCounter := ONESHOT125_TIMER_MHZ;
       local_pwmWritePtr := Some fn_pwmWriteOneShot125;
       local_useUnsyncedPwm := useUnsyncedPwm motorConfig;
       local_idlePulse := idlePulse;
       isDigital := false |} in
  let digital :=
    {| timerMhzCounter := 0;
       local_pwmWritePtr := None;
       local_useUnsyncedPwm := useUnsyncedPwm motorConfig;
       local_idlePulse := idlePulse;
       isDigital := true |} in
  match motorPwmProtocol motorConfig with
  | PWM_TYPE_ONESHOT125 | PWM_TYPE_OTHER => oneshot125
  | PWM_TYPE_ONESHOT42 =>
      {| timerMhzCounter := ONESHOT42_TIMER_MHZ;
         local_pwmWritePtr := Some fn_pwmWriteOneShot42;
         local_useUnsyncedPwm := useUnsyncedPwm motorConfig;
         local_idlePulse := idlePulse;
         isDigital := false |}
  | PWM_TYPE_MULTISHOT =>
      {| timerMhzCounter := MULTISHOT_TIMER_MHZ;
         local_pwmWritePtr := Some fn_pwmWriteMultiShot;
         local_useUnsyncedPwm := useUnsyncedPwm motorConfig;
         local_idlePulse := idlePulse;
         isDigital := false |}
  | PWM_TYPE_BRUSHED =>
      {| timerMhzCounter := PWM_BRUSHED_TIMER_MHZ;
         local_pwmWritePtr := Some fn_pwmWriteBrushed;
         local_useUnsyncedPwm := true;
         local_idlePulse := 0;
         isDigital := false |}
  | PWM_TYPE_STANDARD =>
      {| timerMhzCounter := PWM_TIMER_MHZ;
         local_pwmWritePtr := Some fn_pwmWriteStandard;
         local_useUnsyncedPwm := true;
         local_idlePulse := 0;
         isDigital := false |}
  | PWM_TYPE_DSHOT600 | PWM_TYPE_DSHOT300 | PWM_TYPE_DSHOT150 =>
      if USE_DSHOT then digital else oneshot125
  end.

(** One pass through the body of the slot loop of [motorInit]. *)
Definition motorInit_slot (motorConfig : motorConfig_t) (loc : motorInit_locals)
    (motorIndex : nat) (st : state) : result (loop_exit * state) :=
  let tag := nth motorIndex (ioTags motorConfig) 0 in
  if tag =? 0 then Ok (Break, st)
  else
    match timerGetByTag tag TIMER_OUTPUT_ENABLED with
    | None =>
        (* flag failure and disable ability to arm *)
        Ok (Break, st)
    | Some timerHardware =>
        if isDigital loc then
          let st := emit (Ev_pwmDigitalMotorHardwareConfig timerHardware
                            motorIndex (motorPwmProtocol motorConfig)) st in
          port ← motor_at motorIndex st;
          let port :=
            {| ccr := ccr port; tim := tim port; period := period port;
               pwmWritePtr := Some fn_pwmWriteDigital;
               enabled := true;
               io := io port |} in
          Ok (Continue, set_motors (<[motorIndex := port]> (motors st)) st)
        else
          port ← motor_at motorIndex st;
          let pin := IOGetByTag tag in
          let st := emit (Ev_IOInit pin OWNER_MOTOR motorIndex) st in
          let st := emit (Ev_IOConfigGPIO pin) st in
          let port :=
            {| ccr := ccr port; tim := tim port; period := period port;
               pwmWritePtr := local_pwmWritePtr loc;
               enabled := enabled port;
               io := pin |} in
          configured ←
            (if local_useUnsyncedPwm loc then
               let hz := uint32 (timerMhzCounter loc * 1000000) in
               if motorPwmRate motorConfig =? 0 then Fault DivisionByZero
               else Ok (pwmOutConfig port timerHardware (timerMhzCounter loc)
                          (hz / motorPwmRate motorConfig) (local_idlePulse loc) st)
             else
               Ok (pwmOutConfig port timerHardware (timerMhzCounter loc)
                     65535 0 st));
          let '(port, st) := configured in
          let port :=
            {| ccr := ccr port; tim := tim port; period := period port;
               pwmWritePtr := pwmWritePtr port;
               enabled := true;
               io := io port |} in
          Ok (Continue, set_motors (<[motorIndex := port]> (motors st)) st)
    end.

Definition motorInit (motorConfig : motorConfig_t) (idlePulse : Z)
    (motorCount : nat) (st : state) : result state :=
  let loc := motorInit_switch motorConfig idlePulse in
  let st :=
    if isDigital loc
    then set_pwmCompleteWritePtr (Some fn_pwmCompleteDigitalMotorUpdate) st
    else st in
  let st :=
    if negb (local_useUnsyncedPwm loc) && negb (isDigital loc)
    then set_pwmCompleteWritePtr (Some fn_pwmCompleteOneshotMotorUpdate) st
    else st in
  (* motorIndex < MAX_SUPPORTED_MOTORS && motorIndex < motorCount *)
  for_loop (Nat.min MAX_SUPPORTED_MOTORS motorCount) 0
    (motorInit_slot motorConfig loc) st.

Definition pwmWriteServo (index : nat) (value : Z) (st : state) : result state :=
  if bool_decide (index < MAX_SUPPORTED_SERVOS)%nat then
    port ← servo_at index st;
    match ccr port with
    | Some _ => store (ccr port) value st
    | None => Ok st
    end
  else Ok st.

(** One pass through the body of the loop of [servoInit]. *)
Definition servoInit_slot (servoConfig : servoConfig_t)
    (servoIndex : nat) (st : state) : result (loop_exit * state) :=
  let tag := nth servoIndex (servo_ioTags servoConfig) 0 in
  if tag =? 0 then Ok (Break, st)
  else
    port ← servo_at servoIndex st;
    let pin := IOGetByTag tag in
    let port :=
      {| ccr := ccr port; tim := tim port; period := period port;
         pwmWritePtr := pwmWritePtr port; enabled := enabled port;
         io := pin |} in
    let st := set_servos (<[servoIndex := port]> (servos st)) st in
    let st := emit (Ev_IOInit pin OWNER_SERVO servoIndex) st in
    let st := emit (Ev_IOConfigGPIO pin) st in
    match timerGetByTag tag TIMER_OUTPUT_ENABLED with
    | None =>
        (* flag failure and disable ability to arm *)
        Ok (Break, st)
    | Some timer =>
        if servoPwmRate servoConfig =? 0 then Fault DivisionByZero
        else
          let '(port, st) :=
            pwmOutConfig port timer PWM_TIMER_MHZ
              (Z.quot 1000000 (servoPwmRate servoConfig))
              (servoCenterPulse servoConfig) st in
          let port :=
            {| ccr := ccr port; tim := tim port; period := period port;
               pwmWritePtr := pwmWritePtr port; enabled := true;
               io := io port |} in
          Ok (Continue, set_servos (<[servoIndex := port]> (servos st)) st)
    end.

Definition servoInit (servoConfig : servoConfig_t) (st : state) : result state :=
  for_loop MAX_SUPPORTED_SERVOS 0 (servoInit_slot servoConfig) st.

End Driver.

(** ** Vocabulary of the statements *)

(** The register store after 0 has been stored at each address of a list. *)
Definition zero_all (handles : list Z) (r : gmap Z Z) : gmap Z Z :=
  foldl (fun r a => <[a := 0]> r) r handles.

(** The elements of [l] that occur neither in [seen] nor earlier in [l], in
    the order of [l]. *)
Fixpoint first_occurrences (seen l : list Z) : list Z :=
  match l with
  | [] => []
  | t :: l' =>
      if bool_decide (t ∈ seen)
      then first_occurrences (seen ++ [t]) l'
      else t :: first_occurrences (seen ++ [t]) l'
  end.

(** The timers forced to overflow in a trace, in call order. *)
Definition forced_overflows (events : list hwEvent) : list Z :=
  omap (fun e => match e with
                 | Ev_timerForceOverflow t => Some t
                 | _ => None
                 end) events.

(** The state after the synchronised completion step has run over ports
    with the handles [handles], forcing the timers [overflowed]. *)
Definition completed (handles overflowed : list Z) (st : state) : state :=
  {| motors := motors st; servos := servos st;
     pwmCompleteWritePtr := pwmCompleteWritePtr st;
     pwmMotorsEnabled := pwmMotorsEnabled st;
     regs := zero_all handles (regs st);
     trace := trace st ++ (Ev_timerForceOverflow <$> overflowed) |}.

(** [r] is an integer nearest to the quotient [num / den]. *)
Definition nearest_integer (num den r : Z) : Prop :=
  2 * Z.abs (den * r - num) <= den.

(** The command domain. *)
Definition commands : list Z := seqZ 1000 1001.

(** The timer clocks, in MHz, for which the oneshot-family encoders are
    evaluated.  The clock macros come from [pwm_output.h], which is not part
    of this development: the list holds the 8 and 24 MHz of the
    specification's examples and the clocks the firmware gives its
    processor families (9, 12, 21, 27, 54, 72 and 84 MHz). *)
Definition clocks : list Z := [8; 9; 12; 21; 24; 27; 54; 72; 84].

Definition clock_supported (mhz : Z) : bool := existsb (Z.eqb mhz) clocks.

(** The numerator, over 1000, of the exact Multishot value
    [(value - 1000) * (mhz * 20 / 1000) + mhz * 5]. *)
Definition multishot_numerator (mhz value : Z) : Z :=
  (value - 1000) * (mhz * 20) + mhz * 5 * 1000.

(** Tests run over the whole grid of clocks and commands. *)
Definition oneshot125_exact (mhz value : Z) : bool :=
  Encoder.oneshot125 mhz value =? Float32.round_half_even (value * mhz) 8.

Definition oneshot42_exact (mhz value : Z) : bool :=
  Encoder.oneshot42 mhz value =? Float32.round_half_even (value * mhz) 24.

Definition multishot_nearest (mhz value : Z) : bool :=
  (2 * Z.abs (1000 * Encoder.multishot mhz value - multishot_numerator mhz value)
   <=? 1000)
  && (if Z.even mhz
      then Encoder.multishot mhz value
           =? Float32.round_half_even (multishot_numerator mhz value) 1000
      else true).

Definition on_grid (test : Z -> Z -> bool) : bool :=
  forallb (fun mhz => forallb (test mhz) commands) clocks.

(** The write functions that store into a compare register. *)
Definition analog (f : pwmWriteFuncPtr) : bool :=
  match f with
  | fn_pwmWriteDigital => false
  | _ => true
  end.

(** What every initialisation leaves true of a port: it is enabled exactly
    when it has a write function, and a port with an analog write function
    has a compare-register handle. *)
Definition port_consistent (p : pwmOutputPort_t) : Prop :=
  (enabled p = true <-> is_Some (pwmWritePtr p))
  /\ (forall f, pwmWritePtr p = Some f -> analog f = true -> is_Some (ccr p)).

(** The same, as a test. *)
Definition port_consistentb (p : pwmOutputPort_t) : bool :=
  match pwmWritePtr p with
  | None => negb (enabled p)
  | Some f =>
      enabled p
      && (if analog f then match ccr p with Some _ => true | None => false end
          else true)
  end.

Section Vocabulary.

Context `{Target}.

(** The motor bank has its declared size and consistent ports. *)
Definition bank_consistent (st : state) : Prop :=
  length (motors st) = MAX_SUPPORTED_MOTORS
  /\ Forall port_consistent (motors st).

(** The compare value an analog write function computes for a port. *)
Definition protocol_compare (f : pwmWriteFuncPtr) (p : pwmOutputPort_t)
    (value : Z) : Z :=
  match f with
  | fn_pwmWriteBrushed => Encoder.brushed (period p) value
  | fn_pwmWriteStandard => Encoder.standard value
  | fn_pwmWriteOneShot125 => Encoder.oneshot125 ONESHOT125_TIMER_MHZ value
  | fn_pwmWriteOneShot42 => Encoder.oneshot42 ONESHOT42_TIMER_MHZ value
  | fn_pwmWriteMultiShot => Encoder.multishot MULTISHOT_TIMER_MHZ value
  | fn_pwmWriteDigital => 0
  end.

(** [motorInit] divides by the configured rate only for an analog protocol
    that runs unsynchronised. *)
Definition rate_usable (motorConfig : motorConfig_t) (idlePulse : Z) : Prop :=
  let loc := motorInit_switch motorConfig idlePulse in
  local_useUnsyncedPwm loc = true -> isDigital loc = false ->
  motorPwmRate motorConfig <> 0.

(** The timer period [motorInit] gives an analog port. *)
Definition slot_period (motorConfig : motorConfig_t) (idlePulse : Z) : Z :=
  let loc := motorInit_switch motorConfig idlePulse in
  if local_useUnsyncedPwm loc
  then uint16 (uint32 (timerMhzCounter loc * 1000000) / motorPwmRate motorConfig)
  else 65535.

(** The pulse [motorInit] programs into the output-compare channel. *)
Definition slot_pulse (motorConfig : motorConfig_t) (idlePulse : Z) : Z :=
  let loc := motorInit_switch motorConfig idlePulse in
  if local_useUnsyncedPwm loc then uint16 (local_idlePulse loc) else 0.

(** A populated slot: the port [motorInit] leaves at a slot whose tag
    resolved to [hw], [before] being the port found there. *)
Definition slot_port (motorConfig : motorConfig_t) (idlePulse : Z)
    (tag : ioTag_t) (hw : timerHardware_t) (before : pwmOutputPort_t)
    : pwmOutputPort_t :=
  let loc := motorInit_switch motorConfig idlePulse in
  if isDigital loc then
    {| ccr := ccr before; tim := tim before; period := period before;
       pwmWritePtr := Some fn_pwmWriteDigital; enabled := true;
       io := io before |}
  else
    {| ccr := Some (timerChCCR hw);
       tim := Some (timerHardware_tim hw);
       period := slot_period motorConfig idlePulse;
       pwmWritePtr := local_pwmWritePtr loc;
       enabled := true;
       io := IOGetByTag tag |}.

(** The calls to the other layers made for one slot. *)
Definition slot_events (motorConfig : motorConfig_t) (idlePulse : Z)
    (index : nat) (tag : ioTag_t) (hw : timerHardware_t) : list hwEvent :=
  let loc := motorInit_switch motorConfig idlePulse in
  let t := timerHardware_tim hw in
  let channel := uint8 (timerHardware_channel hw) in
  let output := uint8 (timerHardware_output hw) in
  if isDigital loc then
    [Ev_pwmDigitalMotorHardwareConfig hw index (motorPwmProtocol motorConfig)]
  else
    [Ev_IOInit (IOGetByTag tag) OWNER_MOTOR index;
     Ev_IOConfigGPIO (IOGetByTag tag);
     Ev_configTimeBase t (slot_period motorConfig idlePulse)
       (uint8 (timerMhzCounter loc));
     Ev_timerOCInit t channel
       {| TIM_OCMode := TIM_OCMode_PWM2;
          TIM_OutputState := negb (flag_set output TIMER_OUTPUT_N_CHANNEL);
          TIM_OutputNState := flag_set output TIMER_OUTPUT_N_CHANNEL;
          TIM_Pulse := slot_pulse motorConfig idlePulse;
          TIM_OCPolarity :=
            if flag_set output TIMER_OUTPUT_INVERTED
            then TIM_OCPolarity_High else TIM_OCPolarity_Low;
          TIM_OCIdleState := TIM_OCIdleState_Set |};
     Ev_timerOCPreloadConfig t channel]
    ++ (if flag_set (timerHardware_output hw) TIMER_OUTPUT_ENABLED
        then [Ev_TIM_CtrlPWMOutputs t] else [])
    ++ [Ev_TIM_Cmd t].

(** The state after one slot has been populated. *)
Definition slot_state (motorConfig : motorConfig_t) (idlePulse : Z)
    (index : nat) (tag : ioTag_t) (hw : timerHardware_t)
    (before : pwmOutputPort_t) (st : state) : state :=
  {| motors := <[index := slot_port motorConfig idlePulse tag hw before]> (motors st);
     servos := servos st;
     pwmCompleteWritePtr := pwmCompleteWritePtr st;
     pwmMotorsEnabled := pwmMotorsEnabled st;
     regs := if isDigital (motorInit_switch motorConfig idlePulse)
             then regs st else <[timerChCCR hw := 0]> (regs st);
     trace := trace st ++ slot_events motorConfig idlePulse index tag hw |}.

(** The state after the slots [index], [index + 1], ... have been
    populated from the resolved tags of a list, in order. *)
Fixpoint populated (motorConfig : motorConfig_t) (idlePulse : Z)
    (index : nat) (resolved : list (ioTag_t * timerHardware_t)) (st : state)
    : state :=
  match resolved with
  | [] => st
  | (tag, hw) :: resolved' =>
      populated motorConfig idlePulse (S index) resolved'
        (slot_state motorConfig idlePulse index tag hw
           (default port_zero (motors st !! index)) st)
  end.

(** The state in which the slot loop of [motorInit] starts. *)
Definition motorInit_entry (motorConfig : motorConfig_t) (idlePulse : Z)
    (st : state) : state :=
  let loc := motorInit_switch motorConfig idlePulse in
  if isDigital loc
  then set_pwmCompleteWritePtr (Some fn_pwmCompleteDigitalMotorUpdate) st
  else if local_useUnsyncedPwm loc then st
       else set_pwmCompleteWritePtr (Some fn_pwmCompleteOneshotMotorUpdate) st.

(** The tags of the first slots of a configuration resolve to the timer
    hardware of a list. *)
Definition resolves (motorConfig : motorConfig_t)
    (resolved : list (ioTag_t * timerHardware_t)) : Prop :=
  forall j tag hw, resolved !! j = Some (tag, hw) ->
    nth j (ioTags motorConfig) 0 = tag
    /\ tag <> 0
    /\ timerGetByTag tag TIMER_OUTPUT_ENABLED = Some hw.

(** A slot whose tag is unset or resolves to no timer hardware. *)
Definition unresolvable (motorConfig : motorConfig_t) (j : nat) : Prop :=
  nth j (ioTags motorConfig) 0 = 0
  \/ timerGetByTag (nth j (ioTags motorConfig) 0) TIMER_OUTPUT_ENABLED = None.

(** The kinds of protocol [motorInit] distinguishes. *)
Inductive protocol_family : Type :=
| family_oneshot
| family_fixed_rate
| family_digital.

Definition family_of (protocol : motorPwmProtocolTypes_e) : protocol_family :=
  match protocol with
  | PWM_TYPE_STANDARD | PWM_TYPE_BRUSHED => family_fixed_rate
  | PWM_TYPE_ONESHOT125 | PWM_TYPE_ONESHOT42 | PWM_TYPE_MULTISHOT
  | PWM_TYPE_OTHER => family_oneshot
  | PWM_TYPE_DSHOT600 | PWM_TYPE_DSHOT300 | PWM_TYPE_DSHOT150 =>
      if USE_DSHOT then family_digital else family_oneshot
  end.

(** Whether the outputs must be resynchronised once per cycle, in the
    words of the specification: an oneshot-family protocol configured with
    synchronisation, or a digital protocol. *)
Definition resync_required (motorConfig : motorConfig_t) : bool :=
  match family_of (motorPwmProtocol motorConfig) with
  | family_oneshot => negb (useUnsyncedPwm motorConfig)
  | family_digital => true
  | family_fixed_rate => false
  end.

(** Two configurations that differ in their pin tags only. *)
Definition same_setup (a b : motorConfig_t) : Prop :=
  motorPwmRate a = motorPwmRate b
  /\ motorPwmProtocol a = motorPwmProtocol b
  /\ useUnsyncedPwm a = useUnsyncedPwm b.

End Vocabulary.

(** ** The protocol table of the specification

    What "configured" means for a populated slot, written from the
    specification's protocol table and initialisation steps and not from
    [motorInit_switch]: per protocol the clock, the write function, whether
    the protocol forces unsynchronised operation, and the idle pulse. *)
Inductive table_row : Type :=
| row_standard
| row_brushed
| row_oneshot125
| row_oneshot42
| row_multishot
| row_digital.

Section ProtocolTable.

Context `{Target}.

(** The row of a protocol value.  An unknown or unselected protocol
    defaults to OneShot125; so does a Dshot value on a build without
    [USE_DSHOT], which has no digital row. *)
Definition table_row_of (protocol : motorPwmProtocolTypes_e) : table_row :=
  match protocol with
  | PWM_TYPE_STANDARD => row_standard
  | PWM_TYPE_BRUSHED => row_brushed
  | PWM_TYPE_ONESHOT125 => row_oneshot125
  | PWM_TYPE_ONESHOT42 => row_oneshot42
  | PWM_TYPE_MULTISHOT => row_multishot
  | PWM_TYPE_DSHOT600 | PWM_TYPE_DSHOT300 | PWM_TYPE_DSHOT150 =>
      if USE_DSHOT then row_digital else row_oneshot125
  | PWM_TYPE_OTHER => row_oneshot125
  end.

(** Column "Clock basis", in MHz. *)
Definition table_clock (row : table_row) : Z :=
  match row with
  | row_standard => PWM_TIMER_MHZ
  | row_brushed => PWM_BRUSHED_TIMER_MHZ
  | row_oneshot125 => ONESHOT125_TIMER_MHZ
  | row_oneshot42 => ONESHOT42_TIMER_MHZ
  | row_multishot => MULTISHOT_TIMER_MHZ
  | row_digital => 0
  end.

(** Column "Encoder": the write operation bound to the port. *)
Definition table_write (row : table_row) : pwmWriteFuncPtr :=
  match row with
  | row_standard => fn_pwmWriteStandard
  | row_brushed => fn_pwmWriteBrushed
  | row_oneshot125 => fn_pwmWriteOneShot125
  | row_oneshot42 => fn_pwmWriteOneShot42
  | row_multishot => fn_pwmWriteMultiShot
  | row_digital => fn_pwmWriteDigital
  end.

(** Column "Forces unsynced". *)
Definition table_forces_unsynced (row : table_row) : bool :=
  match row with
  | row_standard | row_brushed => true
  | _ => false
  end.

(** Column "Idle pulse": 0 for Standard and Brushed, as given otherwise. *)
Definition table_idle_pulse (row : table_row) (idlePulse : Z) : Z :=
  match row with
  | row_standard | row_brushed => 0
  | _ => idlePulse
  end.

(** Whether an analog configuration runs unsynchronised: its protocol
    forces it, or the configuration asks for it. *)
Definition table_unsynced (motorConfig : motorConfig_t) : bool :=
  table_forces_unsynced (table_row_of (motorPwmProtocol motorConfig))
  || useUnsyncedPwm motorConfig.

(** "Unsynced protocols get period = clock / configuredRate.  Synced
    protocols get the maximum representable period and idle value 0."  The
    clock is in Hz in 32 bits, the period and the pulse in 16 bits. *)
Definition table_period (motorConfig : motorConfig_t) : Z :=
  if table_unsynced motorConfig
  then uint16 (uint32 (table_clock (table_row_of (motorPwmProtocol motorConfig))
                       * 1000000)
               / motorPwmRate motorConfig)
  else 65535.

Definition table_pulse (motorConfig : motorConfig_t) (idlePulse : Z) : Z :=
  if table_unsynced motorConfig
  then uint16 (table_idle_pulse (table_row_of (motorPwmProtocol motorConfig))
                 idlePulse)
  else 0.

(** A configured port.  Digital: the bridge's write operation is bound and
    the port is enabled, with no compare-register bookkeeping.  Analog: the
    handle and the timer of the resolved hardware, the period of the table,
    the write operation of the protocol, the pin, and the port enabled. *)
Definition configured_port (motorConfig : motorConfig_t) (tag : ioTag_t)
    (hw : timerHardware_t) : pwmOutputPort_t :=
  match table_row_of (motorPwmProtocol motorConfig) with
  | row_digital =>
      {| ccr := None; tim := None; period := 0;
         pwmWritePtr := Some fn_pwmWriteDigital;
         enabled := true; io := 0 |}
  | row =>
      {| ccr := Some (timerChCCR hw);
         tim := Some (timerHardware_tim hw);
         period := table_period motorConfig;
         pwmWritePtr := Some (table_write row);
         enabled := true;
         io := IOGetByTag tag |}
  end.

(** The calls that configure a slot.  Digital: the bridge configures the
    timer hardware.  Analog: the pin is claimed and set to alternate-function
    output, the time base gets the period and the clock of the table, the
    output-compare channel is programmed with the idle value, and the timer
    is started. *)
Definition configured_events (motorConfig : motorConfig_t) (idlePulse : Z)
    (index : nat) (tag : ioTag_t) (hw : timerHardware_t) : list hwEvent :=
  let t := timerHardware_tim hw in
  let channel := uint8 (timerHardware_channel hw) in
  let output := uint8 (timerHardware_output hw) in
  match table_row_of (motorPwmProtocol motorConfig) with
  | row_digital =>
      [Ev_pwmDigitalMotorHardwareConfig hw index (motorPwmProtocol motorConfig)]
  | row =>
      [Ev_IOInit (IOGetByTag tag) OWNER_MOTOR index;
       Ev_IOConfigGPIO (IOGetByTag tag);
       Ev_configTimeBase t (table_period motorConfig) (uint8 (table_clock row));
       Ev_timerOCInit t channel
         {| TIM_OCMode := TIM_OCMode_PWM2;
            TIM_OutputState := negb (flag_set output TIMER_OUTPUT_N_CHANNEL);
            TIM_OutputNState := flag_set output TIMER_OUTPUT_N_CHANNEL;
            TIM_Pulse := table_pulse motorConfig idlePulse;
            TIM_OCPolarity :=
              if flag_set output TIMER_OUTPUT_INVERTED
              then TIM_OCPolarity_High else TIM_OCPolarity_Low;
            TIM_OCIdleState := TIM_OCIdleState_Set |};
       Ev_timerOCPreloadConfig t channel]
      ++ (if flag_set (timerHardware_output hw) TIMER_OUTPUT_ENABLED
          then [Ev_TIM_CtrlPWMOutputs t] else [])
      ++ [Ev_TIM_Cmd t]
  end.

(** The rate is divided by only where the table gives the period
    [clock / configuredRate]. *)
Definition table_rate_usable (motorConfig : motorConfig_t) : Prop :=
  table_row_of (motorPwmProtocol motorConfig) <> row_digital ->
  table_unsynced motorConfig = true ->
  motorPwmRate motorConfig <> 0.

End ProtocolTable.

(** ** A reference board

    A board in the style of the firmware's STM32F3 targets: twelve motor
    slots, eight servo slots, 32-bit compare registers, and sixteen pins on
    four timers of four channels each (tags 1 to 16). *)
Module Board.

Definition hardware_of_tag (tag : Z) : timerHardware_t :=
  {| timerHardware_tim := 1073741824 + 1024 * ((tag - 1) / 4);
     timerHardware_channel := 4 * ((tag - 1) mod 4);
     timerHardware_output := 1 |}.

Definition timer_of_tag (tag : Z) : option timerHardware_t :=
  if (1 <=? tag) && (tag <=? 16) then Some (hardware_of_tag tag) else None.

#[export] Instance f3 : Target := {|
  MAX_SUPPORTED_MOTORS := 12;
  MAX_SUPPORTED_SERVOS := 8;
  USE_DSHOT := true;
  ONESHOT125_TIMER_MHZ := 8;
  ONESHOT42_TIMER_MHZ := 24;
  MULTISHOT_TIMER_MHZ := 72;
  PWM_BRUSHED_TIMER_MHZ := 24;
  PWM_TIMER_MHZ := 1;
  timCCR_bits := CCR_32bit;
  TIMER_OUTPUT_ENABLED := 1;
  TIMER_OUTPUT_INVERTED := 2;
  TIMER_OUTPUT_N_CHANNEL := 4;
  timerGetByTag := fun tag _ => timer_of_tag tag;
  timerChCCR := fun hw => timerHardware_tim hw + 52 + timerHardware_channel hw;
  IOGetByTag := fun tag => tag
|}.

(** The reference board with the clocks of the specification's literal
    cases: 8 MHz for OneShot125 and Multishot, 24 MHz for OneShot42. *)
Definition f3_literal_clocks : Target := {|
  MAX_SUPPORTED_MOTORS := 12;
  MAX_SUPPORTED_SERVOS := 8;
  USE_DSHOT := true;
  ONESHOT125_TIMER_MHZ := 8;
  ONESHOT42_TIMER_MHZ := 24;
  MULTISHOT_TIMER_MHZ := 8;
  PWM_BRUSHED_TIMER_MHZ := 24;
  PWM_TIMER_MHZ := 1;
  timCCR_bits := CCR_32bit;
  TIMER_OUTPUT_ENABLED := 1;
  TIMER_OUTPUT_INVERTED := 2;
  TIMER_OUTPUT_N_CHANNEL := 4;
  timerGetByTag := fun tag _ => timer_of_tag tag;
  timerChCCR := fun hw => timerHardware_tim hw + 52 + timerHardware_channel hw;
  IOGetByTag := fun tag => tag
|}.

(** Twelve motors on tags 1 to 12, synchronised OneShot125. *)
Definition oneshot_config : motorConfig_t :=
  {| motorPwmRate := 480;
     motorPwmProtocol := PWM_TYPE_ONESHOT125;
     useUnsyncedPwm := false;
     ioTags := [1; 2; 3; 4; 5; 6; 7; 8; 9; 10; 11; 12] |}.

(** Four brushed motors. *)
Definition brushed_config : motorConfig_t :=
  {| motorPwmRate := 24000;
     motorPwmProtocol := PWM_TYPE_BRUSHED;
     useUnsyncedPwm := true;
     ioTags := [1; 2; 3; 4] |}.

(** Four motors requested; the third tag resolves to no timer. *)
Definition broken_config : motorConfig_t :=
  {| motorPwmRate := 480;
     motorPwmProtocol := PWM_TYPE_MULTISHOT;
     useUnsyncedPwm := false;
     ioTags := [5; 6; 99; 7] |}.

(** Two servos on tags 13 and 14. *)
Definition servo_config : servoConfig_t :=
  {| servoCenterPulse := 1500;
     servoPwmRate := 50;
     servo_ioTags := [13; 14] |}.

(** The state of a result, the initial state standing in for a fault. *)
Definition state_of (r : result state) : state :=
  match r with
  | Ok st => st
  | Fault _ => initial_state
  end.

Definition oneshot_state : state :=
  Eval vm_compute in state_of (motorInit oneshot_config 1000 12 initial_state).

Definition brushed_state : state :=
  Eval vm_compute in state_of (motorInit brushed_config 1000 4 initial_state).

Definition servo_state : state :=
  Eval vm_compute in state_of (servoInit servo_config initial_state).

End Board.

(** ** Vocabulary of the further statements *)

(** A port that [pwmOutConfig] has set up: it has a timer and a handle. *)
Definition port_populated (p : pwmOutputPort_t) : Prop :=
  is_Some (tim p) /\ is_Some (ccr p).

(** Every motor port has a period that fits [uint16_t]. *)
Definition periods_16bit (st : state) : Prop :=
  Forall (fun p => 0 <= period p < 65536) (motors st).

Section FurtherVocabulary.

Context `{Target}.

(** The number of values of [timCCR_t]. *)
Definition timCCR_modulus : Z :=
  match timCCR_bits with
  | CCR_16bit => 65536
  | CCR_32bit => 4294967296
  end.

(** The timer period [servoInit] gives a servo port. *)
Definition servo_period (servoConfig : servoConfig_t) : Z :=
  uint16 (Z.quot 1000000 (servoPwmRate servoConfig)).

(** The port [servoInit] leaves at a slot whose tag resolved to [hw]. *)
Definition servo_port (servoConfig : servoConfig_t) (tag : ioTag_t)
    (hw : timerHardware_t) (before : pwmOutputPort_t) : pwmOutputPort_t :=
  {| ccr := Some (timerChCCR hw);
     tim := Some (timerHardware_tim hw);
     period := servo_period servoConfig;
     pwmWritePtr := pwmWritePtr before;
     enabled := true;
     io := IOGetByTag tag |}.

(** The port [servoInit] leaves at a slot whose tag is set and resolves to
    no timer: the pin is recorded, nothing else. *)
Definition servo_port_claimed (tag : ioTag_t) (before : pwmOutputPort_t)
    : pwmOutputPort_t :=
  {| ccr := ccr before; tim := tim before; period := period before;
     pwmWritePtr := pwmWritePtr before; enabled := enabled before;
     io := IOGetByTag tag |}.

(** The calls [servoInit] makes for a pin, and then for its timer. *)
Definition servo_pin_events (index : nat) (tag : ioTag_t) : list hwEvent :=
  [Ev_IOInit (IOGetByTag tag) OWNER_SERVO index;
   Ev_IOConfigGPIO (IOGetByTag tag)].

Definition servo_timer_events (servoConfig : servoConfig_t)
    (hw : timerHardware_t) : list hwEvent :=
  let t := timerHardware_tim hw in
  let channel := uint8 (timerHardware_channel hw) in
  let output := uint8 (timerHardware_output hw) in
  [Ev_configTimeBase t (servo_period servoConfig) (uint8 PWM_TIMER_MHZ);
   Ev_timerOCInit t channel
     {| TIM_OCMode := TIM_OCMode_PWM2;
        TIM_OutputState := negb (flag_set output TIMER_OUTPUT_N_CHANNEL);
        TIM_OutputNState := flag_set output TIMER_OUTPUT_N_CHANNEL;
        TIM_Pulse := uint16 (servoCenterPulse servoConfig);
        TIM_OCPolarity :=
          if flag_set output TIMER_OUTPUT_INVERTED
          then TIM_OCPolarity_High else TIM_OCPolarity_Low;
        TIM_OCIdleState := TIM_OCIdleState_Set |};
   Ev_timerOCPreloadConfig t channel]
  ++ (if flag_set (timerHardware_output hw) TIMER_OUTPUT_ENABLED
      then [Ev_TIM_CtrlPWMOutputs t] else [])
  ++ [Ev_TIM_Cmd t].

(** The state after one servo slot has been populated. *)
Definition servo_slot_state (servoConfig : servoConfig_t) (index : nat)
    (tag : ioTag_t) (hw : timerHardware_t) (before : pwmOutputPort_t)
    (st : state) : state :=
  {| motors := motors st;
     servos := <[index := servo_port servoConfig tag hw before]> (servos st);
     pwmCompleteWritePtr := pwmCompleteWritePtr st;
     pwmMotorsEnabled := pwmMotorsEnabled st;
     regs := <[timerChCCR hw := 0]> (regs st);
     trace := trace st ++ servo_pin_events index tag
                       ++ servo_timer_events servoConfig hw |}.

(** The state after a servo slot whose tag resolves to no timer. *)
Definition servo_claimed_state (index : nat) (tag : ioTag_t)
    (before : pwmOutputPort_t) (st : state) : state :=
  {| motors := motors st;
     servos := <[index := servo_port_claimed tag before]> (servos st);
     pwmCompleteWritePtr := pwmCompleteWritePtr st;
     pwmMotorsEnabled := pwmMotorsEnabled st;
     regs := regs st;
     trace := trace st ++ servo_pin_events index tag |}.

(** The state after the servo slots [index], [index + 1], ... have been
    populated from the resolved tags of a list, in order. *)
Fixpoint servos_populated (servoConfig : servoConfig_t) (index : nat)
    (resolved : list (ioTag_t * timerHardware_t)) (st : state) : state :=
  match resolved with
  | [] => st
  | (tag, hw) :: resolved' =>
      servos_populated servoConfig (S index) resolved'
        (servo_slot_state servoConfig index tag hw
           (default port_zero (servos st !! index)) st)
  end.

(** The tags of the first servo slots resolve to the timer hardware of a
    list. *)
Definition servo_resolves (servoConfig : servoConfig_t)
    (resolved : list (ioTag_t * timerHardware_t)) : Prop :=
  forall j tag hw, resolved !! j = Some (tag, hw) ->
    nth j (servo_ioTags servoConfig) 0 = tag
    /\ tag <> 0
    /\ timerGetByTag tag TIMER_OUTPUT_ENABLED = Some hw.

End FurtherVocabulary.

(** A result with the enable gate of its state set. *)
Definition with_gate (gate : bool) (r : result state) : result state :=
  match r with
  | Ok st => Ok (set_pwmMotorsEnabled gate st)
  | Fault f => Fault f
  end.

(** An operation that neither reads nor writes [pwmMotorsEnabled]: run
    with the gate set either way, it does the same to the rest of the
    state. *)
Definition gate_independent (op : state -> result state) : Prop :=
  forall gate st, op (set_pwmMotorsEnabled gate st) = with_gate gate (op st).

(** * Properties *)

(** ** Machine integers *)

Lemma wrap_unsigned_small bits z :
  0 <= z < 2 ^ bits -> wrap_unsigned bits z = z.
Proof. intros Hz. unfold wrap_unsigned. apply Z.mod_small. exact Hz. Qed.

Lemma sint32_small z :
  - 2147483648 <= z <= 2147483647 -> sint32 z = z.
Proof.
  intros Hz. unfold sint32, wrap_signed.
  change (2 ^ (32 - 1)) with 2147483648. change (2 ^ 32) with 4294967296.
  rewrite Z.mod_small; lia.
Qed.

(** ** Register stores and first occurrences *)

Lemma zero_all_snoc handles a (r : gmap Z Z) :
  zero_all (handles ++ [a]) r = <[a := 0]> (zero_all handles r).
Proof. unfold zero_all. rewrite foldl_app. reflexivity. Qed.

Lemma zero_all_keeps handles : forall (r : gmap Z Z) a,
  r !! a = Some 0 -> zero_all handles r !! a = Some 0.
Proof.
  induction handles as [|b handles IH]; intros r a Ha; simpl; [exact Ha|].
  apply IH. destruct (decide (b = a)) as [->|Hne].
  - apply lookup_insert_eq.
  - rewrite lookup_insert_ne; assumption.
Qed.

Lemma zero_all_hit handles : forall (r : gmap Z Z) a,
  a ∈ handles -> zero_all handles r !! a = Some 0.
Proof.
  induction handles as [|b handles IH]; intros r a Hin.
  - inversion Hin.
  - simpl. apply elem_of_cons in Hin as [->|Hin].
    + apply zero_all_keeps, lookup_insert_eq.
    + apply IH, Hin.
Qed.

Lemma zero_all_miss handles : forall (r : gmap Z Z) a,
  a ∉ handles -> zero_all handles r !! a = r !! a.
Proof.
  induction handles as [|b handles IH]; intros r a Hmiss; simpl; [reflexivity|].
  apply not_elem_of_cons in Hmiss as [Hne Hmiss].
  rewrite IH by exact Hmiss. apply lookup_insert_ne. congruence.
Qed.

Lemma first_occurrences_spec l : forall seen t,
  t ∈ first_occurrences seen l <-> t ∈ l /\ t ∉ seen.
Proof.
  induction l as [|x l IH]; intros seen t; simpl.
  - split; [intros Hin; inversion Hin | intros [Hin _]; inversion Hin].
  - case_bool_decide as Hx.
    + rewrite IH, elem_of_cons, elem_of_app, list_elem_of_singleton.
      unfold not. intuition (subst; tauto).
    + rewrite elem_of_cons, IH, elem_of_cons, elem_of_app,
        list_elem_of_singleton.
      unfold not. destruct (decide (t = x)); intuition (subst; tauto).
Qed.

Lemma first_occurrences_NoDup l : forall seen, NoDup (first_occurrences seen l).
Proof.
  induction l as [|x l IH]; intros seen; simpl; [constructor|].
  case_bool_decide as Hx; [apply IH|].
  constructor; [|apply IH].
  rewrite first_occurrences_spec, elem_of_app, list_elem_of_singleton.
  unfold not. tauto.
Qed.

Lemma forced_overflows_app tr1 tr2 :
  forced_overflows (tr1 ++ tr2) = forced_overflows tr1 ++ forced_overflows tr2.
Proof. unfold forced_overflows. apply omap_app. Qed.

Lemma forced_overflows_fmap ts :
  forced_overflows (Ev_timerForceOverflow <$> ts) = ts.
Proof. induction ts as [|t ts IH]; simpl; [reflexivity|]. f_equal. exact IH. Qed.

(** ** The motor bank *)

Section Frame.

Context `{Target}.

Lemma timCCR_t_zero : timCCR_t 0 = 0.
Proof. unfold timCCR_t. destruct timCCR_bits; reflexivity. Qed.

Lemma timCCR_t_small v : 0 <= v < 65536 -> timCCR_t v = v.
Proof.
  intros Hv. unfold timCCR_t, uint16, uint32.
  destruct timCCR_bits; apply wrap_unsigned_small.
  - change (2 ^ 16) with 65536. lia.
  - change (2 ^ 32) with 4294967296. lia.
Qed.

Lemma motor_at_Some st i p : motors st !! i = Some p -> motor_at i st = Ok p.
Proof. intros Hp. unfold motor_at. rewrite Hp. reflexivity. Qed.

Lemma motor_at_None st i :
  (length (motors st) <= i)%nat -> motor_at i st = Fault (OutOfBounds i).
Proof.
  intros Hi. unfold motor_at. rewrite (lookup_ge_None_2 _ _ Hi). reflexivity.
Qed.

Lemma set_regs_id st : set_regs (regs st) st = st.
Proof. destruct st; reflexivity. Qed.

Lemma omap_ccr_snoc ports p :
  omap ccr (ports ++ [p]) = omap ccr ports ++ from_option (fun a => [a]) [] (ccr p).
Proof. rewrite omap_app. simpl. destruct (ccr p); reflexivity. Qed.

(** The shutdown loop over [count] slots from [index] on, all inside the
    bank: only the registers change, a zero being stored through each
    handle met. *)
Lemma shutdown_loop count : forall index st,
  (index + count <= length (motors st))%nat ->
  for_loop count index pwmShutdownPulsesForAllMotors_body st
  = Ok (set_regs
          (zero_all (omap ccr (take count (drop index (motors st)))) (regs st))
          st).
Proof.
  induction count as [|count IH]; intros index st Hlen.
  - simpl. rewrite set_regs_id. reflexivity.
  - destruct (lookup_lt_is_Some_2 (motors st) index) as [p Hp]; [lia|].
    rewrite (drop_S _ _ _ Hp). simpl.
    unfold pwmShutdownPulsesForAllMotors_body at 1.
    rewrite (motor_at_Some _ _ _ Hp). simpl.
    destruct (ccr p) as [a|] eqn:Ha; simpl.
    + rewrite timCCR_t_zero. rewrite IH by (simpl; lia). reflexivity.
    + rewrite IH by lia. reflexivity.
Qed.

(** The same loop running past the end of the bank faults at the first
    index outside it. *)
Lemma shutdown_loop_fault count : forall index st,
  (index <= length (motors st) < index + count)%nat ->
  for_loop count index pwmShutdownPulsesForAllMotors_body st
  = Fault (OutOfBounds (length (motors st))).
Proof.
  induction count as [|count IH]; intros index st Hlen; [lia|].
  simpl. destruct (decide (index = length (motors st))) as [->|Hne].
  - unfold pwmShutdownPulsesForAllMotors_body.
    rewrite motor_at_None by lia. reflexivity.
  - destruct (lookup_lt_is_Some_2 (motors st) index) as [p Hp]; [lia|].
    unfold pwmShutdownPulsesForAllMotors_body at 1.
    rewrite (motor_at_Some _ _ _ Hp). simpl.
    destruct (ccr p) as [a|] eqn:Ha; simpl; rewrite IH; simpl;
      try reflexivity; lia.
Qed.

End Frame.

Section Completion.

Context `{Target}.

Lemma completed_nil st : completed [] [] st = st.
Proof. destruct st. unfold completed. simpl. rewrite app_nil_r. reflexivity. Qed.

(** The inner scan: the ports [j .. j + count - 1] are compared in turn. *)
Lemma timer_scan port st count : forall j overflowed,
  (j + count <= length (motors st))%nat ->
  for_loop count j (fun j overflowed =>
    earlier ← motor_at j st;
    if bool_decide (tim earlier = tim port)
    then Ok (Break, true)
    else Ok (Continue, overflowed)) overflowed
  = Ok (bool_decide (tim port ∈ tim <$> take count (drop j (motors st)))
        || overflowed).
Proof.
  induction count as [|count IH]; intros j overflowed Hlen.
  - reflexivity.
  - destruct (lookup_lt_is_Some_2 (motors st) j) as [p Hp]; [lia|].
    rewrite (drop_S _ _ _ Hp). simpl.
    rewrite (motor_at_Some _ _ _ Hp). simpl.
    case_bool_decide as Heq.
    + rewrite bool_decide_true; [reflexivity|]. rewrite Heq. left.
    + rewrite IH by lia. f_equal. f_equal.
      apply bool_decide_ext. rewrite elem_of_cons. intuition congruence.
Qed.

Lemma timer_overflowed_eq index port st :
  (index <= length (motors st))%nat ->
  timer_overflowed index port st
  = Ok (bool_decide (tim port ∈ tim <$> take index (motors st))).
Proof.
  intros Hlen. unfold timer_overflowed.
  rewrite timer_scan by lia. rewrite drop_0, orb_false_r. reflexivity.
Qed.

(** The completion loop over [count] configured ports from [index] on. *)
Lemma complete_loop count : forall index st seen timers handles,
  (index + count <= length (motors st))%nat ->
  tim <$> take index (motors st) = Some <$> seen ->
  tim <$> take count (drop index (motors st)) = Some <$> timers ->
  ccr <$> take count (drop index (motors st)) = Some <$> handles ->
  for_loop count index pwmCompleteOneshotMotorUpdate_body st
  = Ok (completed handles (first_occurrences seen timers) st).
Proof.
  induction count as [|count IH]; intros index st seen timers handles
    Hlen Hseen Htim Hccr.
  - simpl in *. destruct timers; [|discriminate]. destruct handles; [|discriminate].
    simpl. rewrite completed_nil. reflexivity.
  - destruct (lookup_lt_is_Some_2 (motors st) index) as [p Hp]; [lia|].
    rewrite (drop_S _ _ _ Hp) in Htim, Hccr. simpl in Htim, Hccr.
    destruct timers as [|t timers]; [discriminate|].
    destruct handles as [|a handles]; [discriminate|].
    simpl in Htim, Hccr.
    injection Htim as Ht Htim. injection Hccr as Ha Hccr.
    simpl. unfold pwmCompleteOneshotMotorUpdate_body at 1.
    rewrite (motor_at_Some _ _ _ Hp). simpl.
    rewrite timer_overflowed_eq by lia. simpl.
    rewrite Hseen, Ht, Ha.
    rewrite (bool_decide_ext _ (t ∈ seen)) by apply list_elem_of_fmap_inj, _.
    assert (Hseen' : forall st1, motors st1 = motors st ->
              tim <$> take (S index) (motors st1) = Some <$> (seen ++ [t])).
    { intros st1 ->. rewrite (take_S_r _ _ _ Hp), !fmap_app, Hseen. simpl.
      rewrite Ht. reflexivity. }
    case_bool_decide as Hin; simpl; rewrite timCCR_t_zero.
    + rewrite (IH _ _ (seen ++ [t]) timers handles);
        [reflexivity | simpl; lia | apply Hseen'; reflexivity | exact Htim | exact Hccr].
    + rewrite (IH _ _ (seen ++ [t]) timers handles);
        [| simpl; lia | apply Hseen'; reflexivity | exact Htim | exact Hccr].
      unfold completed. simpl. rewrite <- app_assoc. reflexivity.
Qed.

(** One pass of the completion loop inside the bank: it goes on to the
    next port with the bank as it was, or stops at a null pointer. *)
Lemma complete_body_cases index st :
  (index < length (motors st))%nat ->
  (exists st', pwmCompleteOneshotMotorUpdate_body index st = Ok (Continue, st')
               /\ motors st' = motors st)
  \/ pwmCompleteOneshotMotorUpdate_body index st = Fault NullPointer.
Proof.
  intros Hlen.
  destruct (lookup_lt_is_Some_2 (motors st) index) as [p Hp]; [lia|].
  unfold pwmCompleteOneshotMotorUpdate_body.
  rewrite (motor_at_Some _ _ _ Hp). simpl.
  rewrite timer_overflowed_eq by lia. simpl.
  destruct (bool_decide _); simpl.
  - destruct (ccr p) as [a|]; simpl; [|right; reflexivity].
    left. eexists. split; reflexivity.
  - destruct (tim p) as [t|]; simpl; [|right; reflexivity].
    destruct (ccr p) as [a|]; simpl; [|right; reflexivity].
    left. eexists. split; reflexivity.
Qed.

(** Inside the bank the completion loop never indexes out of bounds: it
    returns, or stops at a null pointer. *)
Lemma complete_loop_in_bounds count : forall index st,
  (index + count <= length (motors st))%nat ->
  (exists st', for_loop count index pwmCompleteOneshotMotorUpdate_body st = Ok st'
               /\ motors st' = motors st)
  \/ for_loop count index pwmCompleteOneshotMotorUpdate_body st = Fault NullPointer.
Proof.
  induction count as [|count IH]; intros index st Hlen.
  - left. exists st. split; reflexivity.
  - simpl.
    destruct (complete_body_cases index st) as [(st1 & -> & Hm1) | -> ];
      [lia| |right; reflexivity].
    destruct (IH (S index) st1) as [(st' & -> & Hm) | -> ];
      [rewrite Hm1; lia| |right; reflexivity].
    left. exists st'. split; [reflexivity|congruence].
Qed.

(** Run past the end of the bank, the completion loop faults. *)
Lemma complete_loop_fault count : forall index st,
  (index <= length (motors st) < index + count)%nat ->
  exists f, for_loop count index pwmCompleteOneshotMotorUpdate_body st = Fault f.
Proof.
  induction count as [|count IH]; intros index st Hlen; [lia|].
  simpl. destruct (decide (index = length (motors st))) as [->|Hne].
  - unfold pwmCompleteOneshotMotorUpdate_body.
    rewrite motor_at_None by lia. simpl. eauto.
  - destruct (complete_body_cases index st) as [(st1 & -> & Hm1) | -> ];
      [lia| |eauto].
    apply IH. rewrite Hm1. lia.
Qed.

End Completion.

Section CountFunctions.

Context `{Target}.

Lemma complete_body_configured index st p :
  motors st !! index = Some p -> is_Some (tim p) -> is_Some (ccr p) ->
  exists st', pwmCompleteOneshotMotorUpdate_body index st = Ok (Continue, st')
              /\ motors st' = motors st.
Proof.
  intros Hp [t Ht] [a Ha].
  destruct (complete_body_cases index st) as [Hok|Hf];
    [eapply lookup_lt_Some; exact Hp | exact Hok |].
  exfalso. revert Hf. unfold pwmCompleteOneshotMotorUpdate_body.
  rewrite (motor_at_Some _ _ _ Hp). simpl.
  rewrite timer_overflowed_eq
    by (apply Nat.lt_le_incl; eapply lookup_lt_Some; exact Hp).
  simpl. rewrite Ht, Ha. destruct (bool_decide _); simpl; discriminate.
Qed.

Lemma complete_loop_past_end count : forall index st,
  (index <= length (motors st) < index + count)%nat ->
  Forall (fun p => is_Some (tim p) /\ is_Some (ccr p)) (motors st) ->
  for_loop count index pwmCompleteOneshotMotorUpdate_body st
  = Fault (OutOfBounds (length (motors st))).
Proof.
  induction count as [|count IH]; intros index st Hlen Hall; [lia|].
  simpl. destruct (decide (index = length (motors st))) as [->|Hne].
  - unfold pwmCompleteOneshotMotorUpdate_body.
    rewrite motor_at_None by lia. reflexivity.
  - destruct (lookup_lt_is_Some_2 (motors st) index) as [p Hp]; [lia|].
    destruct (proj1 (Forall_lookup _ _) Hall _ _ Hp) as [Ht Ha].
    destruct (complete_body_configured index st p Hp Ht Ha) as (st1 & -> & Hm).
    rewrite IH; rewrite Hm; [reflexivity | lia | exact Hall].
Qed.

Lemma pwmWriteMotor_in_bounds index value st :
  length (motors st) = MAX_SUPPORTED_MOTORS ->
  (exists st', pwmWriteMotor index value st = Ok st')
  \/ pwmWriteMotor index value st = Fault NullPointer.
Proof.
  intros Hlen. unfold pwmWriteMotor.
  case_bool_decide as Hi; simpl; [|left; eauto].
  destruct (pwmMotorsEnabled st); simpl; [|left; eauto].
  destruct (lookup_lt_is_Some_2 (motors st) index) as [p Hp]; [lia|].
  rewrite (motor_at_Some _ _ _ Hp). simpl.
  destruct (pwmWritePtr p) as [[]|]; simpl;
    unfold pwmWriteBrushed, pwmWriteStandard, pwmWriteOneShot125,
      pwmWriteOneShot42, pwmWriteMultiShot, pwmWriteDigital;
    rewrite ?(motor_at_Some _ _ _ Hp); simpl;
    try (destruct (ccr p); simpl); eauto.
Qed.

(** C1.  For every count [n] and every assignment [timers] of timer
    identities to the ports [0 .. n-1] of the bank, each port having its
    compare register, one call of the synchronised completion step returns;
    the timers it forces to overflow are the distinct timers of those
    ports, each exactly once, issued at the first port carrying each; the
    compare register of every port [0 .. n-1] then holds 0, and nothing
    else changes. *)
Theorem pwmCompleteOneshotMotorUpdate_one_overflow_per_timer
    (n : nat) (st : state) (timers handles : list Z) :
  (n <= MAX_SUPPORTED_MOTORS)%nat ->
  length (motors st) = MAX_SUPPORTED_MOTORS ->
  tim <$> take n (motors st) = Some <$> timers ->
  ccr <$> take n (motors st) = Some <$> handles ->
  exists st' overflowed,
    pwmCompleteOneshotMotorUpdate n st = Ok st'
    /\ trace st' = trace st ++ (Ev_timerForceOverflow <$> overflowed)
    /\ overflowed = first_occurrences [] timers
    /\ NoDup overflowed
    /\ (forall t, t ∈ overflowed <-> t ∈ timers)
    /\ (forall a, a ∈ handles -> regs st' !! a = Some 0)
    /\ (forall a, a ∉ handles -> regs st' !! a = regs st !! a)
    /\ motors st' = motors st
    /\ servos st' = servos st
    /\ pwmCompleteWritePtr st' = pwmCompleteWritePtr st
    /\ pwmMotorsEnabled st' = pwmMotorsEnabled st.
Proof.
  intros Hn Hlen Htim Hccr.
  exists (completed handles (first_occurrences [] timers) st),
         (first_occurrences [] timers).
  split.
  { unfold pwmCompleteOneshotMotorUpdate.
    apply complete_loop; rewrite ?drop_0; try assumption; [lia|reflexivity]. }
  split; [reflexivity|]. split; [reflexivity|].
  split; [apply first_occurrences_NoDup|].
  split.
  { intros t. rewrite first_occurrences_spec. split; [tauto|].
    intros Ht. split; [exact Ht|apply not_elem_of_nil]. }
  split; [intros a Ha; apply zero_all_hit, Ha|].
  split; [intros a Ha; apply zero_all_miss, Ha|].
  repeat split.
Qed.

(** C5 (as amended).  For a count within the bank, whatever the enable
    gate says, the shutdown returns and every compare register reached
    through a handle of ports [0 .. n-1] holds 0; the other registers, the
    ports, the gate and the trace are as before: no write function and no
    other layer is called. *)
Theorem pwmShutdownPulsesForAllMotors_zeroes (n : nat) (st : state) :
  (n <= MAX_SUPPORTED_MOTORS)%nat ->
  length (motors st) = MAX_SUPPORTED_MOTORS ->
  exists st',
    pwmShutdownPulsesForAllMotors n st = Ok st'
    /\ (forall i p a, (i < n)%nat -> motors st !! i = Some p -> ccr p = Some a ->
          regs st' !! a = Some 0)
    /\ (forall a, (forall i p, (i < n)%nat -> motors st !! i = Some p ->
                     ccr p <> Some a) ->
          regs st' !! a = regs st !! a)
    /\ st' = set_regs (regs st') st
    /\ (forall gate,
          pwmShutdownPulsesForAllMotors n (set_pwmMotorsEnabled gate st)
          = Ok (set_pwmMotorsEnabled gate st')).
Proof.
  intros Hn Hlen.
  eexists. split.
  { unfold pwmShutdownPulsesForAllMotors. apply shutdown_loop. lia. }
  rewrite drop_0. split; [|split; [|split]].
  - intros i p a Hi Hp Ha. apply zero_all_hit.
    apply list_elem_of_omap. exists p. split; [|exact Ha].
    apply elem_of_take. exists i. split; [exact Hp|exact Hi].
  - intros a Hmiss. apply zero_all_miss.
    rewrite list_elem_of_omap. intros (p & Hp & Ha).
    apply elem_of_take in Hp as (i & Hp & Hi).
    exact (Hmiss i p Hi Hp Ha).
  - reflexivity.
  - intros gate. unfold pwmShutdownPulsesForAllMotors.
    rewrite shutdown_loop by (simpl; lia). rewrite drop_0. reflexivity.
Qed.

(** C10.  The two functions that take a motor count index the bank at every
    position below the count and do not compare the count with
    [MAX_SUPPORTED_MOTORS]: the shutdown returns exactly when the count is
    within the bank and otherwise indexes out of bounds at position
    [MAX_SUPPORTED_MOTORS]; the completion step never indexes out of bounds
    for a count within the bank, never returns for a larger one, and reaches
    the out-of-bounds access whenever every port of the bank is configured.
    [pwmWriteMotor], which checks its index, never indexes out of bounds. *)
Theorem count_functions_in_bounds_iff_within_capacity (n : nat) (st : state) :
  length (motors st) = MAX_SUPPORTED_MOTORS ->
  ((exists st', pwmShutdownPulsesForAllMotors n st = Ok st')
   <-> (n <= MAX_SUPPORTED_MOTORS)%nat)
  /\ ((MAX_SUPPORTED_MOTORS < n)%nat ->
      pwmShutdownPulsesForAllMotors n st
      = Fault (OutOfBounds MAX_SUPPORTED_MOTORS))
  /\ ((n <= MAX_SUPPORTED_MOTORS)%nat ->
      forall i, pwmCompleteOneshotMotorUpdate n st <> Fault (OutOfBounds i))
  /\ ((MAX_SUPPORTED_MOTORS < n)%nat ->
      exists f, pwmCompleteOneshotMotorUpdate n st = Fault f)
  /\ ((MAX_SUPPORTED_MOTORS < n)%nat ->
      Forall (fun p => is_Some (tim p) /\ is_Some (ccr p)) (motors st) ->
      pwmCompleteOneshotMotorUpdate n st
      = Fault (OutOfBounds MAX_SUPPORTED_MOTORS))
  /\ (forall i v k, pwmWriteMotor i v st <> Fault (OutOfBounds k)).
Proof.
  intros Hlen.
  assert (Hfault : (MAX_SUPPORTED_MOTORS < n)%nat ->
            pwmShutdownPulsesForAllMotors n st
            = Fault (OutOfBounds MAX_SUPPORTED_MOTORS)).
  { intros Hn. unfold pwmShutdownPulsesForAllMotors.
    rewrite shutdown_loop_fault by lia. rewrite Hlen. reflexivity. }
  split; [split|split; [exact Hfault|split; [|split; [|split]]]].
  - intros [st' Hst']. destruct (decide (n <= MAX_SUPPORTED_MOTORS)%nat) as [|Hn];
      [assumption|]. rewrite Hfault in Hst' by lia. discriminate.
  - intros Hn. eexists. unfold pwmShutdownPulsesForAllMotors.
    apply shutdown_loop. lia.
  - intros Hn i. unfold pwmCompleteOneshotMotorUpdate.
    destruct (complete_loop_in_bounds n 0 st) as [(st' & -> & _) | -> ];
      [lia|discriminate|discriminate].
  - intros Hn. apply complete_loop_fault. lia.
  - intros Hn Hall. unfold pwmCompleteOneshotMotorUpdate.
    rewrite complete_loop_past_end; [rewrite Hlen; reflexivity|lia|exact Hall].
  - intros i v k.
    destruct (pwmWriteMotor_in_bounds i v st Hlen) as [[st' ->] | -> ];
      discriminate.
Qed.

End CountFunctions.

Lemma port_consistentb_correct p :
  port_consistentb p = true -> port_consistent p.
Proof.
  unfold port_consistentb, port_consistent.
  destruct (pwmWritePtr p) as [f|], (enabled p); simpl; try discriminate.
  - intros Hok. split; [split; eauto|].
    intros g [= <-] Hg. rewrite Hg in Hok.
    destruct (ccr p); [eauto|discriminate].
  - intros _. split; [split; [discriminate|intros [? ?]; discriminate]|].
    intros g ?; discriminate.
Qed.

Section Writes.

Context `{Target}.

Lemma bank_consistent_check st :
  length (motors st) = MAX_SUPPORTED_MOTORS ->
  forallb port_consistentb (motors st) = true ->
  bank_consistent st.
Proof.
  intros Hlen Hall. split; [exact Hlen|].
  apply Forall_forall. intros p Hp. apply port_consistentb_correct.
  rewrite forallb_forall in Hall. apply Hall, list_elem_of_In, Hp.
Qed.

Lemma servo_at_Some st i p : servos st !! i = Some p -> servo_at i st = Ok p.
Proof. intros Hp. unfold servo_at. rewrite Hp. reflexivity. Qed.

Lemma call_analog_write f index value st p a :
  motors st !! index = Some p -> ccr p = Some a -> analog f = true ->
  call_pwmWritePtr f index value st
  = Ok (set_regs (<[a := timCCR_t (protocol_compare f p value)]> (regs st)) st).
Proof.
  intros Hp Ha Hf.
  destruct f; try discriminate; simpl;
    unfold pwmWriteBrushed, pwmWriteStandard, pwmWriteOneShot125,
      pwmWriteOneShot42, pwmWriteMultiShot;
    rewrite (motor_at_Some _ _ _ Hp); simpl; rewrite Ha; reflexivity.
Qed.

Lemma brushed_in_domain period value :
  0 <= period < 65536 -> 1000 <= value <= 2000 ->
  Encoder.brushed period value = (value - 1000) * period / 1000
  /\ 0 <= (value - 1000) * period / 1000 <= period.
Proof.
  intros Hp Hv. unfold Encoder.brushed.
  rewrite (sint32_small (value - 1000)) by lia.
  rewrite sint32_small by nia.
  rewrite Z.quot_div_nonneg by nia.
  split; [reflexivity|].
  split; [apply Z.div_pos; nia|].
  apply Z.div_le_upper_bound; nia.
Qed.

(** C4.  In a bank as initialisation leaves it, [pwmWriteMotor] returns the
    state unchanged when the index is at or beyond [MAX_SUPPORTED_MOTORS],
    when the port is disabled, or when the enable gate is cleared.
    Otherwise the port has a write function; an analog one stores the
    protocol's compare value, converted to the register's type, through the
    port's handle and changes nothing else, and the digital one hands the
    write to the bridge. *)
Theorem pwmWriteMotor_frame (i : nat) (v : Z) (st : state) :
  bank_consistent st ->
  (((MAX_SUPPORTED_MOTORS <= i)%nat
    \/ (exists p, motors st !! i = Some p /\ enabled p = false)
    \/ pwmMotorsEnabled st = false) ->
   pwmWriteMotor i v st = Ok st)
  /\ (forall p, motors st !! i = Some p -> enabled p = true ->
        pwmMotorsEnabled st = true ->
        exists f, pwmWritePtr p = Some f
          /\ (analog f = true ->
              exists a, ccr p = Some a
                /\ pwmWriteMotor i v st
                   = Ok (set_regs
                           (<[a := timCCR_t (protocol_compare f p v)]> (regs st))
                           st))
          /\ (analog f = false ->
              pwmWriteMotor i v st = Ok (emit (Ev_pwmWriteDigital i v) st))).
Proof.
  intros [Hlen Hall]. split.
  - intros Hcase. unfold pwmWriteMotor.
    case_bool_decide as Hi; simpl; [|reflexivity].
    destruct (pwmMotorsEnabled st) eqn:Hgate; simpl; [|reflexivity].
    destruct Hcase as [Hge|[(p & Hp & Hdis)|Hoff]]; [lia| |discriminate].
    rewrite (motor_at_Some _ _ _ Hp). simpl.
    destruct (proj1 (Forall_lookup _ _) Hall _ _ Hp) as [Hen _].
    destruct (pwmWritePtr p) as [f|]; [|reflexivity].
    rewrite (proj2 Hen) in Hdis by eauto. discriminate.
  - intros p Hp Hen Hgate.
    destruct (proj1 (Forall_lookup _ _) Hall _ _ Hp) as [Henabled Hccr].
    destruct (proj1 Henabled Hen) as [f Hf]. exists f.
    assert (Hcall : pwmWriteMotor i v st = call_pwmWritePtr f i v st).
    { unfold pwmWriteMotor. rewrite bool_decide_true
        by (rewrite <- Hlen; eapply lookup_lt_Some; exact Hp).
      rewrite Hgate. simpl. rewrite (motor_at_Some _ _ _ Hp). simpl.
      rewrite Hf. reflexivity. }
    split; [exact Hf|split].
    + intros Han. destruct (Hccr f Hf Han) as [a Ha]. exists a.
      split; [exact Ha|]. rewrite Hcall.
      apply call_analog_write; assumption.
    + intros Hdig. rewrite Hcall. destruct f; try discriminate. reflexivity.
Qed.

(** C3 (as amended).  The enable gate stops motor writes only.  With the
    gate cleared [pwmWriteMotor] returns the state unchanged; a servo write
    does not consult the gate: for a servo index within the bank whose port
    has a compare-register handle, [pwmWriteServo] stores the value through
    it whether the gate is set or cleared, after [pwmDisableMotors] as
    well. *)
Theorem pwmWriteServo_not_gated (i : nat) (v : Z) (st : state)
    (p : pwmOutputPort_t) (a : Z) :
  (i < MAX_SUPPORTED_SERVOS)%nat ->
  servos st !! i = Some p ->
  ccr p = Some a ->
  (forall gate,
     pwmWriteServo i v (set_pwmMotorsEnabled gate st)
     = Ok (set_regs (<[a := timCCR_t v]> (regs st)) (set_pwmMotorsEnabled gate st)))
  /\ pwmWriteServo i v (pwmDisableMotors st)
     = Ok (set_regs (<[a := timCCR_t v]> (regs st)) (pwmDisableMotors st))
  /\ (forall j w, pwmWriteMotor j w (pwmDisableMotors st) = Ok (pwmDisableMotors st)).
Proof.
  intros Hi Hp Ha.
  assert (Hwrite : forall gate,
     pwmWriteServo i v (set_pwmMotorsEnabled gate st)
     = Ok (set_regs (<[a := timCCR_t v]> (regs st)) (set_pwmMotorsEnabled gate st))).
  { intros gate. unfold pwmWriteServo. rewrite bool_decide_true by exact Hi.
    rewrite (servo_at_Some _ _ p) by exact Hp. simpl. rewrite Ha. reflexivity. }
  split; [exact Hwrite|split; [apply Hwrite|]].
  intros j w. unfold pwmWriteMotor, pwmDisableMotors. simpl.
  rewrite andb_false_r. reflexivity.
Qed.

(** C2 (as amended).  For a command in [1000, 2000] and a 16-bit port
    period, [pwmWriteBrushed] stores [(value - 1000) * period / 1000], the
    division being that of integers, which lies between 0 and the period;
    for the value 1500 and the period 1000 that is 500. *)
Theorem pwmWriteBrushed_formula (i : nat) (v : Z) (st : state)
    (p : pwmOutputPort_t) (a : Z) :
  motors st !! i = Some p ->
  ccr p = Some a ->
  0 <= period p < 65536 ->
  1000 <= v <= 2000 ->
  pwmWriteBrushed i v st
  = Ok (set_regs (<[a := (v - 1000) * period p / 1000]> (regs st)) st)
  /\ 0 <= (v - 1000) * period p / 1000 <= period p
  /\ (v = 1500 -> period p = 1000 -> (v - 1000) * period p / 1000 = 500).
Proof.
  intros Hp Ha Hper Hv.
  destruct (brushed_in_domain (period p) v Hper Hv) as [Heq Hrange].
  split; [|split; [exact Hrange|]].
  - unfold pwmWriteBrushed. rewrite (motor_at_Some _ _ _ Hp). simpl.
    rewrite Ha. simpl. rewrite Heq, timCCR_t_small by lia. reflexivity.
  - intros -> ->. reflexivity.
Qed.

End Writes.

Section Initialisation.

Context `{Target}.

Lemma uint16_65535 : uint16 65535 = 65535.
Proof. reflexivity. Qed.

Lemma uint16_0 : uint16 0 = 0.
Proof. reflexivity. Qed.

Lemma uint16_idem v : uint16 (uint16 v) = uint16 v.
Proof. unfold uint16, wrap_unsigned. apply Z.mod_mod. discriminate. Qed.

#[local] Opaque uint8 uint16 uint32.

Lemma state_ext (a b : state) :
  motors a = motors b -> servos a = servos b ->
  pwmCompleteWritePtr a = pwmCompleteWritePtr b ->
  pwmMotorsEnabled a = pwmMotorsEnabled b ->
  regs a = regs b -> trace a = trace b ->
  a = b.
Proof. destruct a, b. simpl. intros; subst; reflexivity. Qed.

(** A slot whose tag is unset or does not resolve ends the loop. *)
Lemma motorInit_slot_unresolvable motorConfig loc index st :
  unresolvable motorConfig index ->
  motorInit_slot motorConfig loc index st = Ok (Break, st).
Proof.
  intros [Htag|Hhw]; unfold motorInit_slot.
  - rewrite Htag. reflexivity.
  - destruct (nth index (ioTags motorConfig) 0 =? 0); [reflexivity|].
    rewrite Hhw. reflexivity.
Qed.

(** A slot whose tag resolves is populated, and the loop goes on. *)
Lemma motorInit_slot_resolved motorConfig idlePulse index tag hw before st :
  nth index (ioTags motorConfig) 0 = tag ->
  tag <> 0 ->
  timerGetByTag tag TIMER_OUTPUT_ENABLED = Some hw ->
  motors st !! index = Some before ->
  rate_usable motorConfig idlePulse ->
  motorInit_slot motorConfig (motorInit_switch motorConfig idlePulse) index st
  = Ok (Continue, slot_state motorConfig idlePulse index tag hw before st).
Proof.
  intros Htag Hne Hhw Hbefore Hrate.
  unfold motorInit_slot. rewrite Htag.
  rewrite (proj2 (Z.eqb_neq tag 0) Hne), Hhw.
  unfold slot_state, slot_port, slot_events, slot_period, slot_pulse.
  unfold rate_usable in Hrate.
  destruct (isDigital (motorInit_switch motorConfig idlePulse)) eqn:Hdig.
  - unfold motor_at. cbn [emit motors mbind result_bind]. rewrite Hbefore.
    reflexivity.
  - rewrite (motor_at_Some _ _ _ Hbefore). cbn [mbind result_bind].
    destruct (local_useUnsyncedPwm (motorInit_switch motorConfig idlePulse))
      eqn:Hunsynced.
    + rewrite (proj2 (Z.eqb_neq _ 0) (Hrate eq_refl eq_refl)).
      cbn [mbind result_bind].
      unfold pwmOutConfig, pwmOCConfig. rewrite timCCR_t_zero.
      do 2 f_equal.
      destruct (flag_set (timerHardware_output hw) TIMER_OUTPUT_ENABLED);
        apply state_ext; cbn [emit set_motors set_regs motors servos regs trace
               pwmCompleteWritePtr pwmMotorsEnabled
               ccr tim period pwmWritePtr enabled io]; try reflexivity;
        rewrite <- !app_assoc, ?uint16_idem; reflexivity.
    + cbn [mbind result_bind].
      unfold pwmOutConfig, pwmOCConfig. rewrite timCCR_t_zero.
      do 2 f_equal.
      destruct (flag_set (timerHardware_output hw) TIMER_OUTPUT_ENABLED);
        apply state_ext; cbn [emit set_motors set_regs motors servos regs trace
               pwmCompleteWritePtr pwmMotorsEnabled
               ccr tim period pwmWritePtr enabled io]; try reflexivity;
        rewrite <- !app_assoc, ?uint16_idem, ?uint16_0, ?uint16_65535;
        reflexivity.
Qed.

Lemma resolves_cons motorConfig tag hw resolved :
  resolves motorConfig ((tag, hw) :: resolved) ->
  nth 0 (ioTags motorConfig) 0 = tag /\ tag <> 0
  /\ timerGetByTag tag TIMER_OUTPUT_ENABLED = Some hw.
Proof. intros Hres. apply (Hres 0%nat). reflexivity. Qed.

(** The slot loop: the slots from [index] on resolve to [resolved], and
    the loop ends after them, by its count or at an unresolvable slot. *)
Lemma motorInit_loop motorConfig idlePulse resolved :
  forall index count st,
  (forall j tag hw, resolved !! j = Some (tag, hw) ->
     nth (index + j) (ioTags motorConfig) 0 = tag /\ tag <> 0
     /\ timerGetByTag tag TIMER_OUTPUT_ENABLED = Some hw) ->
  (index + length resolved <= length (motors st))%nat ->
  (length resolved <= count)%nat ->
  (count = length resolved
   \/ unresolvable motorConfig (index + length resolved)) ->
  rate_usable motorConfig idlePulse ->
  for_loop count index
    (motorInit_slot motorConfig (motorInit_switch motorConfig idlePulse)) st
  = Ok (populated motorConfig idlePulse index resolved st).
Proof.
  induction resolved as [|[tag hw] resolved IH];
    intros index count st Hres Hlen Hcount Hend Hrate.
  - simpl in *. destruct count as [|count]; [reflexivity|].
    destruct Hend as [Hend|Hend]; [discriminate|].
    simpl. rewrite Nat.add_0_r in Hend.
    rewrite motorInit_slot_unresolvable by exact Hend. reflexivity.
  - simpl in Hlen, Hcount.
    destruct count as [|count]; [lia|].
    destruct (lookup_lt_is_Some_2 (motors st) index) as [before Hbefore]; [lia|].
    destruct (Hres 0%nat tag hw eq_refl) as (Htag & Hne & Hhw).
    rewrite Nat.add_0_r in Htag.
    simpl.
    rewrite (motorInit_slot_resolved _ _ _ tag hw before) by assumption.
    rewrite Hbefore. simpl.
    apply IH.
    + intros j tag' hw' Hj. replace (S index + j)%nat with (index + S j)%nat by lia.
      apply Hres. exact Hj.
    + simpl. rewrite length_insert. lia.
    + lia.
    + simpl in Hend. replace (S index + length resolved)%nat
        with (index + S (length resolved))%nat by lia.
      destruct Hend as [Hend|Hend]; [left; lia|right; exact Hend].
    + exact Hrate.
Qed.

End Initialisation.

Section Population.

Context `{Target}.

#[local] Opaque uint8 uint16 uint32.

(** What [populated] does to the state. *)
Lemma populated_spec motorConfig idlePulse resolved : forall index st,
  (index + length resolved <= length (motors st))%nat ->
  let st' := populated motorConfig idlePulse index resolved st in
  length (motors st') = length (motors st)
  /\ (forall j, (j < index \/ index + length resolved <= j)%nat ->
        motors st' !! j = motors st !! j)
  /\ (forall k tag hw, resolved !! k = Some (tag, hw) ->
        motors st' !! (index + k)%nat
        = Some (slot_port motorConfig idlePulse tag hw
                  (default port_zero (motors st !! (index + k)%nat))))
  /\ (forall a, regs st !! a = Some 0 -> regs st' !! a = Some 0)
  /\ (isDigital (motorInit_switch motorConfig idlePulse) = false ->
      forall k tag hw, resolved !! k = Some (tag, hw) ->
        regs st' !! timerChCCR hw = Some 0)
  /\ servos st' = servos st
  /\ pwmCompleteWritePtr st' = pwmCompleteWritePtr st
  /\ pwmMotorsEnabled st' = pwmMotorsEnabled st
  /\ trace st'
     = trace st
       ++ concat (imap (fun k '(tag, hw) =>
                          slot_events motorConfig idlePulse (index + k) tag hw)
                    resolved).
Proof.
  induction resolved as [|[tag hw] resolved IH]; intros index st Hlen; simpl.
  - repeat split; try reflexivity; try (intros; assumption).
    + intros k tag hw Hk. discriminate.
    + intros _ k tag hw Hk. discriminate.
    + rewrite app_nil_r. reflexivity.
  - simpl in Hlen.
    set (st1 := slot_state motorConfig idlePulse index tag hw
                  (default port_zero (motors st !! index)) st).
    assert (Hlen1 : length (motors st1) = length (motors st))
      by (unfold st1; simpl; apply length_insert).
    destruct (IH (S index) st1) as
      (Hl & Hout & Hin & Hzero & Hregs & Hservos & Hptr & Hgate & Htrace);
      [rewrite Hlen1; lia|].
    assert (Hkeep : forall a, regs st !! a = Some 0 -> regs st1 !! a = Some 0).
    { intros a Ha. unfold st1. simpl.
      destruct (isDigital _); [exact Ha|].
      destruct (decide (timerChCCR hw = a)) as [->|Hne];
        [apply lookup_insert_eq|rewrite lookup_insert_ne; assumption]. }
    split; [congruence|].
    split; [|split; [|split; [|split; [|split; [|split; [|split]]]]]].
    + intros j Hj. rewrite Hout by lia. unfold st1. simpl.
      apply list_lookup_insert_ne. lia.
    + intros [|k] tag' hw' Hk; simpl in Hk.
      * injection Hk as <- <-. rewrite Nat.add_0_r.
        rewrite Hout by lia. unfold st1. simpl.
        apply list_lookup_insert_eq. lia.
      * replace (index + S k)%nat with (S index + k)%nat by lia.
        rewrite (Hin k tag' hw' Hk). unfold st1. simpl.
        rewrite list_lookup_insert_ne by lia. reflexivity.
    + intros a Ha. apply Hzero, Hkeep, Ha.
    + intros Hdig [|k] tag' hw' Hk; simpl in Hk.
      * injection Hk as <- <-. apply Hzero. unfold st1. simpl.
        rewrite Hdig. apply lookup_insert_eq.
      * exact (Hregs Hdig k tag' hw' Hk).
    + exact Hservos.
    + exact Hptr.
    + exact Hgate.
    + rewrite Htrace. unfold st1. simpl. rewrite <- app_assoc, Nat.add_0_r.
      f_equal. f_equal. f_equal. apply imap_ext. intros k [tag' hw'] _. simpl.
      f_equal. lia.
Qed.

Lemma populated_from_0 motorConfig idlePulse resolved st :
  (length resolved <= length (motors st))%nat ->
  let st' := populated motorConfig idlePulse 0 resolved st in
  length (motors st') = length (motors st)
  /\ (forall j, (length resolved <= j)%nat -> motors st' !! j = motors st !! j)
  /\ (forall k tag hw, resolved !! k = Some (tag, hw) ->
        motors st' !! k
        = Some (slot_port motorConfig idlePulse tag hw
                  (default port_zero (motors st !! k))))
  /\ (forall a, regs st !! a = Some 0 -> regs st' !! a = Some 0)
  /\ (isDigital (motorInit_switch motorConfig idlePulse) = false ->
      forall k tag hw, resolved !! k = Some (tag, hw) ->
        regs st' !! timerChCCR hw = Some 0)
  /\ servos st' = servos st
  /\ pwmCompleteWritePtr st' = pwmCompleteWritePtr st
  /\ pwmMotorsEnabled st' = pwmMotorsEnabled st
  /\ trace st'
     = trace st
       ++ concat (imap (fun k '(tag, hw) =>
                          slot_events motorConfig idlePulse k tag hw)
                    resolved).
Proof.
  intros Hlen.
  destruct (populated_spec motorConfig idlePulse resolved 0 st Hlen)
    as (Hl & Hout & Hin & Hzero & Hregs & Hservos & Hptr & Hgate & Htrace).
  repeat split; try assumption.
  intros j Hj. apply Hout. right. exact Hj.
Qed.

(** [populated] reads the configuration through the rate, the protocol and
    the synchronisation flag only. *)
Lemma populated_same_setup a b idlePulse resolved : forall index st,
  same_setup a b ->
  populated a idlePulse index resolved st = populated b idlePulse index resolved st.
Proof.
  intros index st (Hrate & Hproto & Hsync).
  assert (Hswitch : motorInit_switch a idlePulse = motorInit_switch b idlePulse).
  { unfold motorInit_switch. rewrite Hproto, Hsync. reflexivity. }
  revert index st.
  induction resolved as [|[tag hw] resolved IH]; intros index st; simpl;
    [reflexivity|].
  rewrite IH. f_equal.
  unfold slot_state, slot_port, slot_events, slot_period, slot_pulse.
  rewrite Hswitch, Hrate, Hproto. reflexivity.
Qed.

Lemma motorInit_entry_same_setup a b idlePulse st :
  same_setup a b -> motorInit_entry a idlePulse st = motorInit_entry b idlePulse st.
Proof.
  intros (Hrate & Hproto & Hsync). unfold motorInit_entry, motorInit_switch.
  rewrite Hproto, Hsync. reflexivity.
Qed.

(** [motorInit] as the slot loop started in [motorInit_entry]. *)
Lemma motorInit_unfold motorConfig idlePulse motorCount st :
  motorInit motorConfig idlePulse motorCount st
  = for_loop (Nat.min MAX_SUPPORTED_MOTORS motorCount) 0
      (motorInit_slot motorConfig (motorInit_switch motorConfig idlePulse))
      (motorInit_entry motorConfig idlePulse st).
Proof.
  unfold motorInit, motorInit_entry.
  destruct (isDigital (motorInit_switch motorConfig idlePulse)),
    (local_useUnsyncedPwm (motorInit_switch motorConfig idlePulse));
    reflexivity.
Qed.

Lemma motorInit_entry_fields motorConfig idlePulse st :
  motors (motorInit_entry motorConfig idlePulse st) = motors st
  /\ servos (motorInit_entry motorConfig idlePulse st) = servos st
  /\ regs (motorInit_entry motorConfig idlePulse st) = regs st
  /\ trace (motorInit_entry motorConfig idlePulse st) = trace st
  /\ pwmMotorsEnabled (motorInit_entry motorConfig idlePulse st)
     = pwmMotorsEnabled st.
Proof.
  unfold motorInit_entry.
  destruct (isDigital (motorInit_switch motorConfig idlePulse)),
    (local_useUnsyncedPwm (motorInit_switch motorConfig idlePulse));
    repeat split.
Qed.

(** [motorInit] on a configuration whose first slots resolve to [resolved]
    and whose population stops after them. *)
Lemma motorInit_resolved motorConfig idlePulse motorCount resolved st :
  resolves motorConfig resolved ->
  length (motors st) = MAX_SUPPORTED_MOTORS ->
  (length resolved <= Nat.min MAX_SUPPORTED_MOTORS motorCount)%nat ->
  ((length resolved < Nat.min MAX_SUPPORTED_MOTORS motorCount)%nat ->
   unresolvable motorConfig (length resolved)) ->
  rate_usable motorConfig idlePulse ->
  motorInit motorConfig idlePulse motorCount st
  = Ok (populated motorConfig idlePulse 0 resolved
          (motorInit_entry motorConfig idlePulse st)).
Proof.
  intros Hres Hlen Hk Hstop Hrate.
  rewrite motorInit_unfold.
  destruct (motorInit_entry_fields motorConfig idlePulse st) as (Hm & _).
  apply motorInit_loop.
  - intros j tag hw Hj. simpl. exact (Hres j tag hw Hj).
  - rewrite Hm. simpl. lia.
  - exact Hk.
  - simpl. destruct (decide (length resolved
                             = Nat.min MAX_SUPPORTED_MOTORS motorCount));
      [left; congruence|right; apply Hstop; lia].
  - exact Hrate.
Qed.

(** Every configuration has a longest resolvable prefix. *)
Lemma resolvable_prefix motorConfig count : forall index,
  exists resolved,
    (length resolved <= count)%nat
    /\ (forall j tag hw, resolved !! j = Some (tag, hw) ->
          nth (index + j) (ioTags motorConfig) 0 = tag /\ tag <> 0
          /\ timerGetByTag tag TIMER_OUTPUT_ENABLED = Some hw)
    /\ ((length resolved < count)%nat ->
        unresolvable motorConfig (index + length resolved)).
Proof.
  induction count as [|count IH]; intros index.
  - exists []. split; [simpl; lia|]. split; [intros j tag hw Hj; discriminate|].
    simpl. lia.
  - destruct (decide (nth index (ioTags motorConfig) 0 = 0)) as [Hz|Hnz].
    { exists []. split; [simpl; lia|].
      split; [intros j tag hw Hj; discriminate|].
      intros _. simpl. rewrite Nat.add_0_r. left. exact Hz. }
    destruct (timerGetByTag (nth index (ioTags motorConfig) 0) TIMER_OUTPUT_ENABLED)
      as [hw|] eqn:Hhw.
    + destruct (IH (S index)) as (resolved & Hlen & Hres & Hstop).
      exists ((nth index (ioTags motorConfig) 0, hw) :: resolved).
      split; [simpl; lia|]. split.
      * intros [|j] tag' hw' Hj; simpl in Hj.
        -- injection Hj as <- <-. rewrite Nat.add_0_r. auto.
        -- replace (index + S j)%nat with (S index + j)%nat by lia.
           apply Hres, Hj.
      * simpl. intros Hlt.
        replace (index + S (length resolved))%nat
          with (S index + length resolved)%nat by lia.
        apply Hstop. lia.
    + exists []. split; [simpl; lia|].
      split; [intros j tag hw Hj; discriminate|].
      intros _. simpl. rewrite Nat.add_0_r. right. exact Hhw.
Qed.

(** [motorInit] returns whenever the rate it divides by is not zero, with
    the completion function its entry chose and the bank at its size. *)
Lemma motorInit_total motorConfig idlePulse motorCount st :
  length (motors st) = MAX_SUPPORTED_MOTORS ->
  rate_usable motorConfig idlePulse ->
  exists st',
    motorInit motorConfig idlePulse motorCount st = Ok st'
    /\ pwmCompleteWritePtr st'
       = pwmCompleteWritePtr (motorInit_entry motorConfig idlePulse st)
    /\ length (motors st') = MAX_SUPPORTED_MOTORS.
Proof.
  intros Hlen Hrate.
  destruct (resolvable_prefix motorConfig
              (Nat.min MAX_SUPPORTED_MOTORS motorCount) 0)
    as (resolved & Hk & Hres & Hstop).
  eexists. split.
  - apply (motorInit_resolved _ _ _ resolved); try assumption.
  - destruct (motorInit_entry_fields motorConfig idlePulse st) as (Hm & _).
    destruct (populated_from_0 motorConfig idlePulse resolved
                (motorInit_entry motorConfig idlePulse st))
      as (Hl & _ & _ & _ & _ & _ & Hptr & _); [rewrite Hm; lia|].
    split; [exact Hptr|]. rewrite Hl, Hm. exact Hlen.
Qed.

End Population.

Section InitialisationClaims.

Context `{Target}.

#[local] Opaque uint8 uint16 uint32.

Lemma initial_state_consistent : bank_consistent initial_state.
Proof.
  split; [apply length_replicate|].
  apply Forall_replicate. apply port_consistentb_correct. reflexivity.
Qed.

Lemma local_pwmWritePtr_analog motorConfig idlePulse :
  isDigital (motorInit_switch motorConfig idlePulse) = false ->
  exists f, local_pwmWritePtr (motorInit_switch motorConfig idlePulse) = Some f
            /\ analog f = true.
Proof.
  unfold motorInit_switch.
  destruct (motorPwmProtocol motorConfig), USE_DSHOT; simpl;
    intros Hdig; try discriminate; eexists; split; reflexivity.
Qed.

Lemma slot_port_consistent motorConfig idlePulse tag hw before :
  port_consistent (slot_port motorConfig idlePulse tag hw before).
Proof.
  unfold slot_port.
  destruct (isDigital (motorInit_switch motorConfig idlePulse)) eqn:Hdig.
  - split; simpl; [split; eauto|]. intros f [= <-]. discriminate.
  - destruct (local_pwmWritePtr_analog _ _ Hdig) as (f & Hf & Han).
    split; simpl; [split; eauto|]. eauto.
Qed.

(** Initialisation keeps the bank consistent. *)
Lemma motorInit_consistent motorConfig idlePulse motorCount st st' :
  bank_consistent st ->
  rate_usable motorConfig idlePulse ->
  motorInit motorConfig idlePulse motorCount st = Ok st' ->
  bank_consistent st'.
Proof.
  intros [Hlen Hall] Hrate Hinit.
  destruct (resolvable_prefix motorConfig
              (Nat.min MAX_SUPPORTED_MOTORS motorCount) 0)
    as (resolved & Hk & Hres & Hstop).
  rewrite (motorInit_resolved _ _ _ resolved) in Hinit by assumption.
  injection Hinit as <-.
  destruct (motorInit_entry_fields motorConfig idlePulse st) as (Hm & _).
  destruct (populated_from_0 motorConfig idlePulse resolved
              (motorInit_entry motorConfig idlePulse st))
    as (Hl & Hout & Hin & _); [rewrite Hm; lia|].
  split; [rewrite Hl, Hm; exact Hlen|].
  apply Forall_lookup. intros j p Hp.
  destruct (decide (j < length resolved)%nat) as [Hj|Hj].
  - destruct (lookup_lt_is_Some_2 resolved j Hj) as [[tag hw] Hr].
    rewrite (Hin j tag hw Hr) in Hp. injection Hp as <-.
    apply slot_port_consistent.
  - rewrite Hout, Hm in Hp by lia.
    exact (proj1 (Forall_lookup _ _) Hall _ _ Hp).
Qed.

(** C6.  After one [motorInit] from the initial state, the completion
    pointer is set exactly when resynchronisation is required, and
    [pwmIsSynced] returns that: true for an oneshot-family protocol (the
    default branch included) with [useUnsyncedPwm] false and for a digital
    protocol, false for Standard, for Brushed and for an oneshot-family
    protocol that runs unsynchronised. *)
Theorem pwmIsSynced_iff_resync_required
    (motorConfig : motorConfig_t) (idlePulse : Z) (motorCount : nat) :
  rate_usable motorConfig idlePulse ->
  exists st',
    motorInit motorConfig idlePulse motorCount initial_state = Ok st'
    /\ (pwmCompleteWritePtr st' <> None <-> resync_required motorConfig = true)
    /\ pwmIsSynced st' = resync_required motorConfig
    /\ pwmIsSynced st'
       = match family_of (motorPwmProtocol motorConfig) with
         | family_oneshot => negb (useUnsyncedPwm motorConfig)
         | family_digital => true
         | family_fixed_rate => false
         end.
Proof.
  intros Hrate.
  destruct (motorInit_total motorConfig idlePulse motorCount initial_state)
    as (st' & Hinit & Hptr & _); [apply length_replicate|exact Hrate|].
  exists st'. split; [exact Hinit|].
  assert (Hsync : pwmIsSynced st' = resync_required motorConfig).
  { unfold pwmIsSynced. rewrite Hptr.
    unfold motorInit_entry, motorInit_switch, resync_required, family_of.
    destruct (motorPwmProtocol motorConfig), USE_DSHOT,
      (useUnsyncedPwm motorConfig); reflexivity. }
  split; [|split; [exact Hsync|rewrite Hsync; reflexivity]].
  rewrite <- Hsync. unfold pwmIsSynced.
  destruct (pwmCompleteWritePtr st'); split; congruence.
Qed.

(** [motorInit_switch] against the protocol table. *)
Lemma slot_port_table motorConfig idlePulse tag hw :
  slot_port motorConfig idlePulse tag hw port_zero
  = configured_port motorConfig tag hw.
Proof.
  unfold slot_port, configured_port, slot_period, table_period, table_unsynced,
    motorInit_switch, table_row_of.
  destruct motorConfig as [rate protocol unsynced tags]. simpl.
  destruct protocol, USE_DSHOT; simpl; try reflexivity;
    destruct unsynced; reflexivity.
Qed.

Lemma slot_events_table motorConfig idlePulse index tag hw :
  slot_events motorConfig idlePulse index tag hw
  = configured_events motorConfig idlePulse index tag hw.
Proof.
  unfold slot_events, configured_events, slot_period, slot_pulse, table_period,
    table_pulse, table_unsynced, motorInit_switch, table_row_of.
  destruct motorConfig as [rate protocol unsynced tags]. simpl.
  destruct protocol, USE_DSHOT; simpl; try reflexivity;
    destruct unsynced; reflexivity.
Qed.

Lemma isDigital_table motorConfig idlePulse :
  isDigital (motorInit_switch motorConfig idlePulse) = false
  <-> table_row_of (motorPwmProtocol motorConfig) <> row_digital.
Proof.
  unfold motorInit_switch, table_row_of.
  destruct (motorPwmProtocol motorConfig), USE_DSHOT; simpl;
    split; congruence.
Qed.

Lemma table_rate_usable_switch motorConfig idlePulse :
  table_rate_usable motorConfig -> rate_usable motorConfig idlePulse.
Proof.
  unfold table_rate_usable, rate_usable. intros Hrate Hunsynced Hdig.
  apply Hrate; [apply (isDigital_table motorConfig idlePulse), Hdig|].
  revert Hunsynced Hdig.
  unfold table_unsynced, motorInit_switch, table_row_of.
  destruct (motorPwmProtocol motorConfig), USE_DSHOT; simpl;
    intros Hunsynced Hdig; congruence.
Qed.

(** C7.  [motorInit] populates the slots in index order and stops at the
    first slot whose tag is unset or resolves to no timer hardware.  With
    the first [K] tags resolving to [resolved] and population ending after
    them, every slot below [K] is configured as the protocol table says
    ([configured_port]: enabled, bound to the write function of its
    protocol, and for an analog protocol holding the handle and the timer
    of its hardware, the period of the table and its pin), its compare
    register holds 0, and the calls to the other layers are those of the
    slots in index order with the clock, period and idle pulse of the table
    ([configured_events]); every slot from [K] on is as it was: disabled.
    The result is the same for any configuration with the same protocol,
    rate and synchronisation flag whose first [K] tags resolve alike,
    whatever follows slot [K]. *)
Theorem motorInit_populates_resolved_prefix
    (motorConfig : motorConfig_t) (idlePulse : Z) (motorCount : nat)
    (resolved : list (ioTag_t * timerHardware_t)) :
  resolves motorConfig resolved ->
  (length resolved <= Nat.min MAX_SUPPORTED_MOTORS motorCount)%nat ->
  ((length resolved < Nat.min MAX_SUPPORTED_MOTORS motorCount)%nat ->
   unresolvable motorConfig (length resolved)) ->
  table_rate_usable motorConfig ->
  exists st',
    motorInit motorConfig idlePulse motorCount initial_state = Ok st'
    /\ (forall j tag hw, resolved !! j = Some (tag, hw) ->
          motors st' !! j = Some (configured_port motorConfig tag hw)
          /\ enabled (configured_port motorConfig tag hw) = true
          /\ (table_row_of (motorPwmProtocol motorConfig) <> row_digital ->
              regs st' !! timerChCCR hw = Some 0))
    /\ (forall j, (length resolved <= j < MAX_SUPPORTED_MOTORS)%nat ->
          motors st' !! j = Some port_zero)
    /\ enabled port_zero = false
    /\ trace st'
       = concat (imap (fun j '(tag, hw) =>
                         configured_events motorConfig idlePulse j tag hw)
                   resolved)
    /\ (forall motorConfig' motorCount',
          same_setup motorConfig motorConfig' ->
          resolves motorConfig' resolved ->
          (length resolved <= Nat.min MAX_SUPPORTED_MOTORS motorCount')%nat ->
          ((length resolved < Nat.min MAX_SUPPORTED_MOTORS motorCount')%nat ->
           unresolvable motorConfig' (length resolved)) ->
          motorInit motorConfig' idlePulse motorCount' initial_state = Ok st').
Proof.
  intros Hres Hk Hstop Htable.
  pose proof (table_rate_usable_switch motorConfig idlePulse Htable) as Hrate.
  assert (Hlen0 : length (motors initial_state) = MAX_SUPPORTED_MOTORS)
    by apply length_replicate.
  destruct (motorInit_entry_fields motorConfig idlePulse initial_state)
    as (Hm & _ & Hr & Ht & _).
  destruct (populated_from_0 motorConfig idlePulse resolved
              (motorInit_entry motorConfig idlePulse initial_state))
    as (Hl & Hout & Hin & _ & Hregs & _ & _ & _ & Htrace);
    [rewrite Hm, Hlen0; lia|].
  eexists. split; [apply (motorInit_resolved _ _ _ resolved); assumption|].
  split; [|split; [|split; [reflexivity|split]]].
  - intros j tag hw Hj. split; [|split].
    + rewrite (Hin j tag hw Hj), Hm. simpl.
      rewrite lookup_replicate_2 by (apply lookup_lt_Some in Hj; lia).
      simpl. rewrite slot_port_table. reflexivity.
    + unfold configured_port.
      destruct (table_row_of (motorPwmProtocol motorConfig)); reflexivity.
    + intros Hrow.
      exact (Hregs (proj2 (isDigital_table motorConfig idlePulse) Hrow)
               j tag hw Hj).
  - intros j Hj. rewrite Hout, Hm by lia. simpl.
    apply lookup_replicate_2. lia.
  - rewrite Htrace, Ht. simpl. f_equal. apply imap_ext.
    intros k [tag hw] _. simpl. apply slot_events_table.
  - intros motorConfig' motorCount' Hsame Hres' Hk' Hstop'.
    rewrite (motorInit_resolved _ _ _ resolved); try assumption.
    + rewrite <- (populated_same_setup motorConfig motorConfig') by exact Hsame.
      rewrite <- (motorInit_entry_same_setup motorConfig motorConfig')
        by exact Hsame.
      reflexivity.
    + destruct Hsame as (Hrate' & Hproto & Hsync).
      unfold rate_usable, motorInit_switch in *.
      rewrite <- Hrate', <- Hproto, <- Hsync. exact Hrate.
Qed.

End InitialisationClaims.

(** ** The oneshot-family encoders on the grid of clocks and commands *)

Lemma clock_supported_range mhz :
  clock_supported mhz = true -> 8 <= mhz <= 84.
Proof.
  unfold clock_supported. rewrite existsb_exists.
  intros (m & Hin & Heq). apply Z.eqb_eq in Heq. subst m. simpl in Hin.
  repeat (destruct Hin as [<-|Hin]; [lia|]). destruct Hin.
Qed.

Lemma on_grid_spec test mhz value :
  on_grid test = true ->
  clock_supported mhz = true -> 1000 <= value <= 2000 ->
  test mhz value = true.
Proof.
  unfold on_grid, clock_supported. intros Hgrid Hmhz Hvalue.
  rewrite forallb_forall in Hgrid.
  apply existsb_exists in Hmhz as (m & Hin & Heq).
  apply Z.eqb_eq in Heq. subst m.
  pose proof (Hgrid mhz Hin) as Hrow.
  rewrite forallb_forall in Hrow.
  apply Hrow, list_elem_of_In, elem_of_seqZ. lia.
Qed.

Lemma oneshot125_grid : on_grid oneshot125_exact = true.
Proof. vm_compute. reflexivity. Qed.

Lemma oneshot42_grid : on_grid oneshot42_exact = true.
Proof. vm_compute. reflexivity. Qed.

Lemma multishot_grid : on_grid multishot_nearest = true.
Proof. vm_compute. reflexivity. Qed.

(** ** Rounding to the nearest integer *)

Lemma round_half_even_nearest num den :
  0 < den -> nearest_integer num den (Float32.round_half_even num den).
Proof.
  intros Hden. unfold nearest_integer, Float32.round_half_even.
  pose proof (Z.div_mod num den ltac:(lia)) as Hdm.
  pose proof (Z.mod_pos_bound num den Hden) as Hm.
  set (q := num / den) in *. set (m := num mod den) in *.
  replace (den * (q + 1)) with (den * q + den) by ring.
  destruct (Z.compare_spec (2 * m) den) as [Heq|Hlt|Hgt];
    [destruct (Z.even q)| |]; lia.
Qed.

Lemma nearest_integer_mono den num1 num2 r1 r2 :
  0 < den -> num1 < num2 ->
  nearest_integer num1 den r1 -> nearest_integer num2 den r2 ->
  r1 <= r2.
Proof.
  unfold nearest_integer. intros Hden Hnum H1 H2.
  destruct (Z_le_gt_dec r1 r2) as [Hle|Hgt]; [exact Hle|exfalso].
  assert (den * r2 + den <= den * r1) by nia.
  lia.
Qed.

Lemma nearest_integer_bounds den num r :
  0 < den -> 0 <= num -> nearest_integer num den r ->
  0 <= r /\ 2 * den * r <= 2 * num + den.
Proof.
  unfold nearest_integer. intros Hden Hnum Hr. split; [|lia].
  destruct (Z_le_gt_dec 0 r) as [Hle|Hgt]; [exact Hle|exfalso].
  assert (den * r <= - den) by nia. lia.
Qed.

(** ** The oneshot-family encoders *)

Lemma oneshot125_rounds mhz value :
  clock_supported mhz = true -> 1000 <= value <= 2000 ->
  Encoder.oneshot125 mhz value = Float32.round_half_even (value * mhz) 8.
Proof.
  intros Hmhz Hvalue. apply Z.eqb_eq.
  exact (on_grid_spec oneshot125_exact mhz value oneshot125_grid Hmhz Hvalue).
Qed.

Lemma oneshot42_rounds mhz value :
  clock_supported mhz = true -> 1000 <= value <= 2000 ->
  Encoder.oneshot42 mhz value = Float32.round_half_even (value * mhz) 24.
Proof.
  intros Hmhz Hvalue. apply Z.eqb_eq.
  exact (on_grid_spec oneshot42_exact mhz value oneshot42_grid Hmhz Hvalue).
Qed.

Lemma multishot_rounds mhz value :
  clock_supported mhz = true -> 1000 <= value <= 2000 ->
  nearest_integer (multishot_numerator mhz value) 1000 (Encoder.multishot mhz value)
  /\ (Z.even mhz = true ->
      Encoder.multishot mhz value
      = Float32.round_half_even (multishot_numerator mhz value) 1000).
Proof.
  intros Hmhz Hvalue.
  pose proof (on_grid_spec multishot_nearest mhz value multishot_grid Hmhz Hvalue)
    as Hgrid.
  unfold multishot_nearest in Hgrid. apply andb_prop in Hgrid as [Hnear Heven].
  split.
  - unfold nearest_integer. apply Z.leb_le. exact Hnear.
  - intros He. rewrite He in Heven. apply Z.eqb_eq. exact Heven.
Qed.

Lemma oneshot125_range mhz value :
  clock_supported mhz = true -> 1000 <= value <= 2000 ->
  0 <= Encoder.oneshot125 mhz value < 65536.
Proof.
  intros Hmhz Hvalue. rewrite oneshot125_rounds by assumption.
  apply clock_supported_range in Hmhz.
  destruct (nearest_integer_bounds 8 (value * mhz)
              (Float32.round_half_even (value * mhz) 8));
    [lia | nia | apply round_half_even_nearest; lia | nia].
Qed.

Lemma oneshot42_range mhz value :
  clock_supported mhz = true -> 1000 <= value <= 2000 ->
  0 <= Encoder.oneshot42 mhz value < 65536.
Proof.
  intros Hmhz Hvalue. rewrite oneshot42_rounds by assumption.
  apply clock_supported_range in Hmhz.
  destruct (nearest_integer_bounds 24 (value * mhz)
              (Float32.round_half_even (value * mhz) 24));
    [lia | nia | apply round_half_even_nearest; lia | nia].
Qed.

Lemma multishot_range mhz value :
  clock_supported mhz = true -> 1000 <= value <= 2000 ->
  0 <= Encoder.multishot mhz value < 65536.
Proof.
  intros Hmhz Hvalue.
  destruct (multishot_rounds mhz value Hmhz Hvalue) as [Hnear _].
  apply clock_supported_range in Hmhz.
  destruct (nearest_integer_bounds 1000 (multishot_numerator mhz value)
              (Encoder.multishot mhz value));
    unfold multishot_numerator in *; [lia | nia | exact Hnear | nia].
Qed.

Lemma oneshot125_mono mhz v1 v2 :
  clock_supported mhz = true -> 1000 <= v1 -> v1 < v2 -> v2 <= 2000 ->
  Encoder.oneshot125 mhz v1 <= Encoder.oneshot125 mhz v2.
Proof.
  intros Hmhz H1 H12 H2. rewrite !oneshot125_rounds by (assumption || lia).
  apply clock_supported_range in Hmhz.
  apply (nearest_integer_mono 8 (v1 * mhz) (v2 * mhz));
    [lia | nia | apply round_half_even_nearest; lia
     | apply round_half_even_nearest; lia].
Qed.

Lemma oneshot42_mono mhz v1 v2 :
  clock_supported mhz = true -> 1000 <= v1 -> v1 < v2 -> v2 <= 2000 ->
  Encoder.oneshot42 mhz v1 <= Encoder.oneshot42 mhz v2.
Proof.
  intros Hmhz H1 H12 H2. rewrite !oneshot42_rounds by (assumption || lia).
  apply clock_supported_range in Hmhz.
  apply (nearest_integer_mono 24 (v1 * mhz) (v2 * mhz));
    [lia | nia | apply round_half_even_nearest; lia
     | apply round_half_even_nearest; lia].
Qed.

Lemma multishot_mono mhz v1 v2 :
  clock_supported mhz = true -> 1000 <= v1 -> v1 < v2 -> v2 <= 2000 ->
  Encoder.multishot mhz v1 <= Encoder.multishot mhz v2.
Proof.
  intros Hmhz H1 H12 H2.
  destruct (multishot_rounds mhz v1) as [Hn1 _]; [assumption|lia|].
  destruct (multishot_rounds mhz v2) as [Hn2 _]; [assumption|lia|].
  apply clock_supported_range in Hmhz.
  apply (nearest_integer_mono 1000 (multishot_numerator mhz v1)
           (multishot_numerator mhz v2)); try assumption; [lia|].
  unfold multishot_numerator. nia.
Qed.

Section EncoderClaims.

Context `{Target}.

(** A store of a value that fits 16 bits through a port's handle. *)
Lemma store_small index st port a v :
  motors st !! index = Some port -> ccr port = Some a -> 0 <= v < 65536 ->
  (port' ← motor_at index st; store (ccr port') v st)
  = Ok (set_regs (<[a := v]> (regs st)) st).
Proof.
  intros Hp Ha Hv. rewrite (motor_at_Some _ _ _ Hp). simpl. rewrite Ha.
  simpl. rewrite timCCR_t_small by exact Hv. reflexivity.
Qed.

Lemma pwmWriteOneShot125_stores index value st port a :
  motors st !! index = Some port -> ccr port = Some a ->
  clock_supported ONESHOT125_TIMER_MHZ = true -> 1000 <= value <= 2000 ->
  pwmWriteOneShot125 index value st
  = Ok (set_regs
          (<[a := Float32.round_half_even (value * ONESHOT125_TIMER_MHZ) 8]>
             (regs st)) st).
Proof.
  intros Hp Ha Hmhz Hvalue. unfold pwmWriteOneShot125.
  rewrite (store_small index st port a) by
    (try assumption; apply oneshot125_range; assumption).
  rewrite oneshot125_rounds by assumption. reflexivity.
Qed.

Lemma pwmWriteOneShot42_stores index value st port a :
  motors st !! index = Some port -> ccr port = Some a ->
  clock_supported ONESHOT42_TIMER_MHZ = true -> 1000 <= value <= 2000 ->
  pwmWriteOneShot42 index value st
  = Ok (set_regs
          (<[a := Float32.round_half_even (value * ONESHOT42_TIMER_MHZ) 24]>
             (regs st)) st).
Proof.
  intros Hp Ha Hmhz Hvalue. unfold pwmWriteOneShot42.
  rewrite (store_small index st port a) by
    (try assumption; apply oneshot42_range; assumption).
  rewrite oneshot42_rounds by assumption. reflexivity.
Qed.

Lemma pwmWriteMultiShot_stores index value st port a :
  motors st !! index = Some port -> ccr port = Some a ->
  clock_supported MULTISHOT_TIMER_MHZ = true -> 1000 <= value <= 2000 ->
  pwmWriteMultiShot index value st
  = Ok (set_regs
          (<[a := Encoder.multishot MULTISHOT_TIMER_MHZ value]> (regs st)) st).
Proof.
  intros Hp Ha Hmhz Hvalue. unfold pwmWriteMultiShot.
  apply (store_small index st port a); try assumption.
  apply multishot_range; assumption.
Qed.

(** C8.  On a port with a compare-register handle, for a command in
    [1000, 2000] and clock macros of the list [clocks]:
    [pwmWriteOneShot125] stores [value * ONESHOT125_TIMER_MHZ / 8] and
    [pwmWriteOneShot42] stores [value * ONESHOT42_TIMER_MHZ / 24], each
    rounded to the nearest integer, a tie going to the even neighbour;
    [pwmWriteMultiShot] stores an integer nearest to
    [(value - 1000) * (mhz * 20 / 1000) + mhz * 5] for
    [mhz = MULTISHOT_TIMER_MHZ], which for an even clock (no tie occurs
    then) is the same rounding.  The register holds that integer itself,
    no other register changes, and nothing else of the state does.  With
    [ONESHOT125_TIMER_MHZ = 8], OneShot125 stores 1000 for 1000 and 2000
    for 2000; with [MULTISHOT_TIMER_MHZ = 8], Multishot stores 40 for 1000
    and 200 for 2000. *)
Theorem oneshot_family_round_to_nearest
    (index : nat) (value : Z) (st : state) (port : pwmOutputPort_t) (a : Z) :
  motors st !! index = Some port ->
  ccr port = Some a ->
  clock_supported ONESHOT125_TIMER_MHZ = true ->
  clock_supported ONESHOT42_TIMER_MHZ = true ->
  clock_supported MULTISHOT_TIMER_MHZ = true ->
  1000 <= value <= 2000 ->
  (pwmWriteOneShot125 index value st
   = Ok (set_regs
           (<[a := Float32.round_half_even (value * ONESHOT125_TIMER_MHZ) 8]>
              (regs st)) st)
   /\ nearest_integer (value * ONESHOT125_TIMER_MHZ) 8
        (Float32.round_half_even (value * ONESHOT125_TIMER_MHZ) 8))
  /\ (pwmWriteOneShot42 index value st
      = Ok (set_regs
              (<[a := Float32.round_half_even (value * ONESHOT42_TIMER_MHZ) 24]>
                 (regs st)) st)
      /\ nearest_integer (value * ONESHOT42_TIMER_MHZ) 24
           (Float32.round_half_even (value * ONESHOT42_TIMER_MHZ) 24))
  /\ (exists r,
        pwmWriteMultiShot index value st
        = Ok (set_regs (<[a := r]> (regs st)) st)
        /\ nearest_integer (multishot_numerator MULTISHOT_TIMER_MHZ value) 1000 r
        /\ (Z.even MULTISHOT_TIMER_MHZ = true ->
            r = Float32.round_half_even
                  (multishot_numerator MULTISHOT_TIMER_MHZ value) 1000))
  /\ (ONESHOT125_TIMER_MHZ = 8 ->
      pwmWriteOneShot125 index 1000 st
      = Ok (set_regs (<[a := 1000]> (regs st)) st)
      /\ pwmWriteOneShot125 index 2000 st
         = Ok (set_regs (<[a := 2000]> (regs st)) st))
  /\ (MULTISHOT_TIMER_MHZ = 8 ->
      pwmWriteMultiShot index 1000 st
      = Ok (set_regs (<[a := 40]> (regs st)) st)
      /\ pwmWriteMultiShot index 2000 st
         = Ok (set_regs (<[a := 200]> (regs st)) st)).
Proof.
  intros Hp Ha H125 H42 Hmulti Hvalue.
  split; [|split; [|split; [|split]]].
  - split; [apply (pwmWriteOneShot125_stores _ _ _ port); assumption|].
    apply round_half_even_nearest. lia.
  - split; [apply (pwmWriteOneShot42_stores _ _ _ port); assumption|].
    apply round_half_even_nearest. lia.
  - exists (Encoder.multishot MULTISHOT_TIMER_MHZ value).
    split; [apply (pwmWriteMultiShot_stores _ _ _ port); assumption|].
    exact (multishot_rounds _ value Hmulti Hvalue).
  - intros H8.
    rewrite !(pwmWriteOneShot125_stores _ _ _ port a Hp Ha H125) by lia.
    rewrite H8. split; reflexivity.
  - intros H8.
    rewrite !(pwmWriteMultiShot_stores _ _ _ port a Hp Ha Hmulti) by lia.
    destruct (multishot_rounds _ 1000 Hmulti ltac:(lia)) as [_ H1000].
    destruct (multishot_rounds _ 2000 Hmulti ltac:(lia)) as [_ H2000].
    rewrite H8 in H1000, H2000 |- *.
    rewrite H1000, H2000 by reflexivity. split; reflexivity.
Qed.

(** C9.  Each of the five analog encoders is monotone on the command
    domain: for commands [v1 < v2] in [1000, 2000], a 16-bit port period and
    timer clocks of the list [clocks], the compare value stored for [v1] is at
    most the one stored for [v2]. *)
Theorem analog_encoders_monotone
    (f : pwmWriteFuncPtr) (p : pwmOutputPort_t) (v1 v2 : Z) :
  analog f = true ->
  0 <= period p < 65536 ->
  clock_supported ONESHOT125_TIMER_MHZ = true ->
  clock_supported ONESHOT42_TIMER_MHZ = true ->
  clock_supported MULTISHOT_TIMER_MHZ = true ->
  1000 <= v1 -> v1 < v2 -> v2 <= 2000 ->
  timCCR_t (protocol_compare f p v1) <= timCCR_t (protocol_compare f p v2).
Proof.
  intros Hf Hper H125 H42 Hms H1 H12 H2.
  destruct f; try discriminate; simpl.
  - destruct (brushed_in_domain (period p) v1) as [-> Hr1]; [lia|lia|].
    destruct (brushed_in_domain (period p) v2) as [-> Hr2]; [lia|lia|].
    rewrite !timCCR_t_small by lia.
    apply Z.div_le_mono; nia.
  - unfold Encoder.standard. rewrite !timCCR_t_small by lia. lia.
  - rewrite !timCCR_t_small by (apply oneshot125_range; (assumption || lia)).
    apply oneshot125_mono; (assumption || lia).
  - rewrite !timCCR_t_small by (apply oneshot42_range; (assumption || lia)).
    apply oneshot42_mono; (assumption || lia).
  - rewrite !timCCR_t_small by (apply multishot_range; (assumption || lia)).
    apply multishot_mono; (assumption || lia).
Qed.

End EncoderClaims.

(** ** Further properties of the driver *)

(** * Further properties of the driver *)

Section MotorLifecycle.

Context `{Target}.

Lemma slot_period_16bit motorConfig idlePulse :
  0 <= slot_period motorConfig idlePulse < 65536.
Proof.
  unfold slot_period. destruct (local_useUnsyncedPwm _); [|lia].
  unfold uint16, wrap_unsigned.
  apply Z.mod_pos_bound. reflexivity.
Qed.

#[local] Opaque uint8 uint16 uint32.

(** [motorInit] from the zero-initialised state, slot by slot. *)
Lemma motorInit_from_initial motorConfig idlePulse motorCount resolved :
  resolves motorConfig resolved ->
  (length resolved <= Nat.min MAX_SUPPORTED_MOTORS motorCount)%nat ->
  ((length resolved < Nat.min MAX_SUPPORTED_MOTORS motorCount)%nat ->
   unresolvable motorConfig (length resolved)) ->
  rate_usable motorConfig idlePulse ->
  exists st',
    motorInit motorConfig idlePulse motorCount initial_state = Ok st'
    /\ length (motors st') = MAX_SUPPORTED_MOTORS
    /\ (forall j tag hw, resolved !! j = Some (tag, hw) ->
          motors st' !! j = Some (slot_port motorConfig idlePulse tag hw port_zero))
    /\ (forall j, (length resolved <= j < MAX_SUPPORTED_MOTORS)%nat ->
          motors st' !! j = Some port_zero)
    /\ (isDigital (motorInit_switch motorConfig idlePulse) = false ->
        forall j tag hw, resolved !! j = Some (tag, hw) ->
          regs st' !! timerChCCR hw = Some 0)
    /\ pwmCompleteWritePtr st'
       = pwmCompleteWritePtr (motorInit_entry motorConfig idlePulse initial_state)
    /\ pwmMotorsEnabled st' = true
    /\ servos st' = servos initial_state.
Proof.
  intros Hres Hk Hstop Hrate.
  assert (Hlen0 : length (motors initial_state) = MAX_SUPPORTED_MOTORS)
    by apply length_replicate.
  destruct (motorInit_entry_fields motorConfig idlePulse initial_state)
    as (Hm & Hs & _ & _ & Hg).
  destruct (populated_from_0 motorConfig idlePulse resolved
              (motorInit_entry motorConfig idlePulse initial_state))
    as (Hl & Hout & Hin & _ & Hregs & Hservos & Hptr & Hgate & _);
    [rewrite Hm, Hlen0; lia|].
  eexists. split; [apply (motorInit_resolved _ _ _ resolved); assumption|].
  split; [rewrite Hl, Hm; exact Hlen0|].
  split; [|split; [|split; [exact Hregs|split; [exact Hptr|split]]]].
  - intros j tag hw Hj. rewrite (Hin j tag hw Hj), Hm. simpl.
    rewrite lookup_replicate_2; [reflexivity|].
    apply lookup_lt_Some in Hj. lia.
  - intros j Hj. rewrite Hout, Hm by lia. simpl.
    apply lookup_replicate_2. lia.
  - rewrite Hgate, Hg. reflexivity.
  - rewrite Hservos, Hs. reflexivity.
Qed.

Lemma slot_port_analog_populated motorConfig idlePulse tag hw before :
  isDigital (motorInit_switch motorConfig idlePulse) = false ->
  tim (slot_port motorConfig idlePulse tag hw before) = Some (timerHardware_tim hw)
  /\ ccr (slot_port motorConfig idlePulse tag hw before) = Some (timerChCCR hw).
Proof. intros Hdig. unfold slot_port. rewrite Hdig. split; reflexivity. Qed.

(** One pass of the completion loop, every earlier port having a timer. *)
Lemma complete_body_unpopulated index st p :
  motors st !! index = Some p ->
  (forall j q, (j < index)%nat -> motors st !! j = Some q -> is_Some (tim q)) ->
  tim p = None \/ ccr p = None ->
  pwmCompleteOneshotMotorUpdate_body index st = Fault NullPointer.
Proof.
  intros Hp Hearlier Hbad.
  unfold pwmCompleteOneshotMotorUpdate_body.
  rewrite (motor_at_Some _ _ _ Hp). simpl.
  rewrite timer_overflowed_eq
    by (apply Nat.lt_le_incl; eapply lookup_lt_Some; exact Hp).
  simpl. destruct (tim p) as [t|] eqn:Ht.
  - destruct Hbad as [Hbad|Hbad]; [discriminate|]. rewrite Hbad.
    destruct (bool_decide _); reflexivity.
  - rewrite bool_decide_false; [reflexivity|].
    intros Hin. apply list_elem_of_fmap in Hin as (q & Hq & Hin).
    apply elem_of_take in Hin as (j & Hj & Hlt).
    destruct (Hearlier j q Hlt Hj) as [t Ht']. congruence.
Qed.

(** The completion loop inside the bank returns when every port it visits
    is populated, and stops at a null pointer otherwise. *)
Lemma complete_loop_cases count : forall index st,
  (index + count <= length (motors st))%nat ->
  (forall j q, (j < index)%nat -> motors st !! j = Some q -> is_Some (tim q)) ->
  (exists st',
      for_loop count index pwmCompleteOneshotMotorUpdate_body st = Ok st'
      /\ forall j q, (index <= j < index + count)%nat ->
           motors st !! j = Some q -> port_populated q)
  \/ (for_loop count index pwmCompleteOneshotMotorUpdate_body st = Fault NullPointer
      /\ exists j q, (index <= j < index + count)%nat
           /\ motors st !! j = Some q /\ (tim q = None \/ ccr q = None)).
Proof.
  induction count as [|count IH]; intros index st Hlen Hearlier.
  - left. exists st. split; [reflexivity|]. intros j q Hj. lia.
  - destruct (lookup_lt_is_Some_2 (motors st) index) as [p Hp]; [lia|].
    simpl.
    destruct (tim p) as [t|] eqn:Ht; [destruct (ccr p) as [a|] eqn:Ha|].
    + destruct (complete_body_configured index st p Hp) as (st1 & -> & Hm);
        [rewrite Ht; eauto|rewrite Ha; eauto|].
      destruct (IH (S index) st1) as [(st' & Hok & Hall)|(Hf & j & q & Hj & Hq & Hbad)].
      * rewrite Hm. lia.
      * intros j q Hj Hq. rewrite Hm in Hq.
        destruct (decide (j = index)) as [->|Hne].
        -- rewrite Hp in Hq. injection Hq as <-. rewrite Ht. eauto.
        -- apply (Hearlier j q); [lia|exact Hq].
      * left. exists st'. split; [exact Hok|].
        intros j q Hj Hq. destruct (decide (j = index)) as [->|Hne].
        -- rewrite Hp in Hq. injection Hq as <-.
           split; [rewrite Ht|rewrite Ha]; eauto.
        -- apply (Hall j q); [lia|rewrite Hm; exact Hq].
      * right. split; [exact Hf|]. exists j, q.
        split; [lia|]. split; [rewrite <- Hm; exact Hq|exact Hbad].
    + right. rewrite (complete_body_unpopulated index st p Hp Hearlier)
        by (right; exact Ha).
      split; [reflexivity|]. exists index, p.
      split; [lia|]. split; [exact Hp|right; exact Ha].
    + right. rewrite (complete_body_unpopulated index st p Hp Hearlier)
        by (left; exact Ht).
      split; [reflexivity|]. exists index, p.
      split; [lia|]. split; [exact Hp|left; exact Ht].
Qed.

(** X3.  For a count within the bank, the synchronised completion step
    returns exactly when every port below the count has a timer and a
    compare-register handle; when one has not, the step stores through a
    null pointer. *)
Theorem pwmCompleteOneshotMotorUpdate_returns_iff_populated
    (n : nat) (st : state) :
  length (motors st) = MAX_SUPPORTED_MOTORS ->
  (n <= MAX_SUPPORTED_MOTORS)%nat ->
  ((exists st', pwmCompleteOneshotMotorUpdate n st = Ok st')
   <-> (forall j p, (j < n)%nat -> motors st !! j = Some p -> port_populated p))
  /\ (pwmCompleteOneshotMotorUpdate n st = Fault NullPointer
      <-> (exists j p, (j < n)%nat /\ motors st !! j = Some p
                       /\ (tim p = None \/ ccr p = None))).
Proof.
  intros Hlen Hn. unfold pwmCompleteOneshotMotorUpdate.
  destruct (complete_loop_cases n 0 st) as
    [(st' & Hok & Hall)|(Hf & j & q & Hj & Hq & Hbad)];
    [lia | intros j q Hj; lia | |].
  - rewrite Hok. split; split.
    + intros _ j p Hj Hp. apply (Hall j p); [lia|exact Hp].
    + intros _. eauto.
    + discriminate.
    + intros (j & p & Hj & Hp & Hbad).
      destruct (Hall j p ltac:(lia) Hp) as [[t Ht] [a Ha]].
      destruct Hbad; congruence.
  - rewrite Hf. split; split.
    + intros [st' Hst']. discriminate.
    + intros Hall. destruct (Hall j q ltac:(lia) Hq) as [[t Ht] [a Ha]].
      destruct Hbad; congruence.
    + intros _. exists j, q. split; [lia|]. split; assumption.
    + reflexivity.
Qed.

(** X1.  After a [motorInit] that requires no resynchronisation (Standard,
    Brushed, or an oneshot-family protocol with [useUnsyncedPwm]),
    [pwmCompleteMotorUpdate] returns the state unchanged for every count,
    also one beyond the bank. *)
Theorem pwmCompleteMotorUpdate_unsynced_noop
    (motorConfig : motorConfig_t) (idlePulse : Z) (motorCount n : nat) :
  rate_usable motorConfig idlePulse ->
  resync_required motorConfig = false ->
  exists st',
    motorInit motorConfig idlePulse motorCount initial_state = Ok st'
    /\ pwmCompleteMotorUpdate n st' = Ok st'.
Proof.
  intros Hrate Hsync.
  destruct (motorInit_total motorConfig idlePulse motorCount initial_state)
    as (st' & Hinit & Hptr & _); [apply length_replicate|exact Hrate|].
  exists st'. split; [exact Hinit|].
  unfold pwmCompleteMotorUpdate. rewrite Hptr.
  revert Hsync.
  unfold motorInit_entry, motorInit_switch, resync_required, family_of.
  destruct (motorPwmProtocol motorConfig), USE_DSHOT,
    (useUnsyncedPwm motorConfig); simpl; intros Hsync;
    try discriminate; reflexivity.
Qed.

(** X2.  After a [motorInit] of a synchronised analog protocol whose
    [motorCount] tags all resolve, [pwmCompleteMotorUpdate motorCount]
    returns: it forces each distinct timer of the resolved hardware to
    overflow once, in the order of the first motor on each, leaves every
    motor's compare register at 0 and the ports as they were. *)
Theorem pwmCompleteMotorUpdate_after_motorInit
    (motorConfig : motorConfig_t) (idlePulse : Z) (motorCount : nat)
    (resolved : list (ioTag_t * timerHardware_t)) :
  resolves motorConfig resolved ->
  length resolved = motorCount ->
  (motorCount <= MAX_SUPPORTED_MOTORS)%nat ->
  isDigital (motorInit_switch motorConfig idlePulse) = false ->
  local_useUnsyncedPwm (motorInit_switch motorConfig idlePulse) = false ->
  exists st' st'',
    motorInit motorConfig idlePulse motorCount initial_state = Ok st'
    /\ pwmCompleteMotorUpdate motorCount st' = Ok st''
    /\ trace st''
       = trace st'
         ++ (Ev_timerForceOverflow
               <$> first_occurrences []
                     ((fun r => timerHardware_tim (snd r)) <$> resolved))
    /\ (forall j tag hw, resolved !! j = Some (tag, hw) ->
          regs st'' !! timerChCCR hw = Some 0)
    /\ motors st'' = motors st'.
Proof.
  intros Hres Hlen Hn Hdig Hsynced.
  destruct (motorInit_from_initial motorConfig idlePulse motorCount resolved)
    as (st' & Hinit & Hlen' & Hin & _ & _ & Hptr & _);
    [exact Hres | lia | lia | unfold rate_usable; rewrite Hsynced; discriminate |].
  assert (Hcall : pwmCompleteMotorUpdate motorCount st'
                  = pwmCompleteOneshotMotorUpdate motorCount st').
  { unfold pwmCompleteMotorUpdate. rewrite Hptr. unfold motorInit_entry.
    rewrite Hdig, Hsynced. reflexivity. }
  assert (Hport : forall i, (i < motorCount)%nat ->
            exists tag hw, resolved !! i = Some (tag, hw)
              /\ motors st' !! i
                 = Some (slot_port motorConfig idlePulse tag hw port_zero)).
  { intros i Hi. destruct (lookup_lt_is_Some_2 resolved i) as [[tag hw] Hr]; [lia|].
    exists tag, hw. split; [exact Hr|exact (Hin i tag hw Hr)]. }
  assert (Htim : tim <$> take motorCount (motors st')
                 = Some <$> ((fun r => timerHardware_tim (snd r)) <$> resolved)).
  { apply list_eq. intros i. rewrite !list_lookup_fmap.
    destruct (decide (i < motorCount)%nat) as [Hi|Hi].
    - rewrite lookup_take_lt by exact Hi.
      destruct (Hport i Hi) as (tag & hw & -> & ->). simpl.
      rewrite (proj1 (slot_port_analog_populated _ _ _ _ _ Hdig)). reflexivity.
    - rewrite lookup_take_ge by lia.
      rewrite (lookup_ge_None_2 resolved i) by lia. reflexivity. }
  assert (Hccr : ccr <$> take motorCount (motors st')
                 = Some <$> ((fun r => timerChCCR (snd r)) <$> resolved)).
  { apply list_eq. intros i. rewrite !list_lookup_fmap.
    destruct (decide (i < motorCount)%nat) as [Hi|Hi].
    - rewrite lookup_take_lt by exact Hi.
      destruct (Hport i Hi) as (tag & hw & -> & ->). simpl.
      rewrite (proj2 (slot_port_analog_populated _ _ _ _ _ Hdig)). reflexivity.
    - rewrite lookup_take_ge by lia.
      rewrite (lookup_ge_None_2 resolved i) by lia. reflexivity. }
  exists st'. eexists. split; [exact Hinit|]. split.
  { rewrite Hcall. unfold pwmCompleteOneshotMotorUpdate.
    apply (complete_loop motorCount 0 st' []);
      rewrite ?drop_0; [lia | reflexivity | exact Htim | exact Hccr]. }
  split; [reflexivity|]. split; [|reflexivity].
  intros j tag hw Hj. simpl. apply zero_all_hit.
  apply list_elem_of_fmap. exists (tag, hw). split; [reflexivity|].
  eapply list_elem_of_lookup_2. exact Hj.
Qed.

(** X4.  After a [motorInit] of a synchronised analog protocol that stopped
    at an unresolvable slot below the requested count,
    [pwmCompleteMotorUpdate] run over that count stores through the null
    handle of the first unpopulated port, whereas
    [pwmShutdownPulsesForAllMotors], which tests the handle, returns. *)
Theorem pwmCompleteMotorUpdate_underpopulated_bank
    (motorConfig : motorConfig_t) (idlePulse : Z) (motorCount : nat)
    (resolved : list (ioTag_t * timerHardware_t)) :
  resolves motorConfig resolved ->
  (length resolved < motorCount)%nat ->
  (motorCount <= MAX_SUPPORTED_MOTORS)%nat ->
  unresolvable motorConfig (length resolved) ->
  isDigital (motorInit_switch motorConfig idlePulse) = false ->
  local_useUnsyncedPwm (motorInit_switch motorConfig idlePulse) = false ->
  exists st',
    motorInit motorConfig idlePulse motorCount initial_state = Ok st'
    /\ pwmCompleteMotorUpdate motorCount st' = Fault NullPointer
    /\ exists st'', pwmShutdownPulsesForAllMotors motorCount st' = Ok st''.
Proof.
  intros Hres Hk Hn Hstop Hdig Hsynced.
  destruct (motorInit_from_initial motorConfig idlePulse motorCount resolved)
    as (st' & Hinit & Hlen' & _ & Hout & _ & Hptr & _);
    [exact Hres | lia | intros _; exact Hstop
     | unfold rate_usable; rewrite Hsynced; discriminate |].
  exists st'. split; [exact Hinit|]. split.
  - unfold pwmCompleteMotorUpdate. rewrite Hptr. unfold motorInit_entry.
    rewrite Hdig, Hsynced. simpl.
    unfold pwmCompleteOneshotMotorUpdate.
    destruct (complete_loop_cases motorCount 0 st') as
      [(st'' & _ & Hall)|(Hf & _)];
      [lia | intros j q Hj; lia | | exact Hf].
    destruct (Hall (length resolved) port_zero) as [_ [a Ha]];
      [lia | apply Hout; lia | discriminate].
  - eexists. unfold pwmShutdownPulsesForAllMotors. apply shutdown_loop. lia.
Qed.

(** X5.  [motorInit] never takes anything back: whatever the
    configuration, a port that was enabled is enabled afterwards and a
    completion function that was set stays set, so a second [motorInit]
    neither disables a motor nor makes [pwmIsSynced] false.  It leaves the
    servo bank and the enable gate alone. *)
Theorem motorInit_never_disables
    (motorConfig : motorConfig_t) (idlePulse : Z) (motorCount : nat)
    (st : state) :
  length (motors st) = MAX_SUPPORTED_MOTORS ->
  rate_usable motorConfig idlePulse ->
  exists st',
    motorInit motorConfig idlePulse motorCount st = Ok st'
    /\ (forall j p, motors st !! j = Some p -> enabled p = true ->
          exists p', motors st' !! j = Some p' /\ enabled p' = true)
    /\ (pwmIsSynced st = true -> pwmIsSynced st' = true)
    /\ servos st' = servos st
    /\ pwmMotorsEnabled st' = pwmMotorsEnabled st.
Proof.
  intros Hlen Hrate.
  destruct (resolvable_prefix motorConfig
              (Nat.min MAX_SUPPORTED_MOTORS motorCount) 0)
    as (resolved & Hk & Hres & Hstop).
  destruct (motorInit_entry_fields motorConfig idlePulse st)
    as (Hm & Hs & _ & _ & Hg).
  destruct (populated_from_0 motorConfig idlePulse resolved
              (motorInit_entry motorConfig idlePulse st))
    as (Hl & Hout & Hin & _ & _ & Hservos & Hptr & Hgate & _);
    [rewrite Hm; lia|].
  eexists. split; [apply (motorInit_resolved _ _ _ resolved); assumption|].
  split; [|split; [|split]].
  - intros j p Hp Hen.
    destruct (decide (j < length resolved)%nat) as [Hj|Hj].
    + destruct (lookup_lt_is_Some_2 resolved j Hj) as [[tag hw] Hr].
      eexists. split; [exact (Hin j tag hw Hr)|].
      unfold slot_port. destruct (isDigital _); reflexivity.
    + exists p. split; [|exact Hen]. rewrite Hout, Hm by lia. exact Hp.
  - unfold pwmIsSynced. rewrite Hptr. unfold motorInit_entry.
    destruct (isDigital _); [reflexivity|].
    destruct (local_useUnsyncedPwm _); [|reflexivity].
    intros Hsynced. exact Hsynced.
  - rewrite Hservos, Hs. reflexivity.
  - rewrite Hgate, Hg. reflexivity.
Qed.

(** X6.  [motorInit] keeps the invariants the write path relies on: in a
    bank of the declared size whose ports are consistent (enabled exactly
    with a write function, an analog write function with a handle) and have
    16-bit periods, it returns a bank with the same properties. *)
Theorem motorInit_keeps_bank_invariants
    (motorConfig : motorConfig_t) (idlePulse : Z) (motorCount : nat)
    (st : state) :
  bank_consistent st ->
  periods_16bit st ->
  rate_usable motorConfig idlePulse ->
  exists st',
    motorInit motorConfig idlePulse motorCount st = Ok st'
    /\ bank_consistent st'
    /\ periods_16bit st'.
Proof.
  intros Hcons Hper Hrate.
  destruct (resolvable_prefix motorConfig
              (Nat.min MAX_SUPPORTED_MOTORS motorCount) 0)
    as (resolved & Hk & Hres & Hstop).
  destruct Hcons as [Hlen Hall].
  destruct (motorInit_entry_fields motorConfig idlePulse st) as (Hm & _).
  destruct (populated_from_0 motorConfig idlePulse resolved
              (motorInit_entry motorConfig idlePulse st))
    as (Hl & Hout & Hin & _); [rewrite Hm; lia|].
  assert (Hinit : motorInit motorConfig idlePulse motorCount st
                  = Ok (populated motorConfig idlePulse 0 resolved
                          (motorInit_entry motorConfig idlePulse st)))
    by (apply (motorInit_resolved _ _ _ resolved); assumption).
  eexists. split; [exact Hinit|]. split.
  - apply (motorInit_consistent motorConfig idlePulse motorCount st);
      [split; assumption | exact Hrate | exact Hinit].
  - apply Forall_lookup. intros j p Hp.
    destruct (decide (j < length resolved)%nat) as [Hj|Hj].
    + destruct (lookup_lt_is_Some_2 resolved j Hj) as [[tag hw] Hr].
      rewrite (Hin j tag hw Hr) in Hp. injection Hp as <-.
      unfold slot_port. destruct (isDigital _); simpl.
      * rewrite Hm. destruct (motors st !! j) as [q|] eqn:Hq; simpl; [|lia].
        exact (proj1 (Forall_lookup _ _) Hper _ _ Hq).
      * apply slot_period_16bit.
    + rewrite Hout, Hm in Hp by lia.
      exact (proj1 (Forall_lookup _ _) Hper _ _ Hp).
Qed.

Lemma omap_ccr_none (ports : list pwmOutputPort_t) :
  Forall (fun p => ccr p = None) ports -> omap ccr ports = [].
Proof.
  induction 1 as [|p ports Hp _ IH]; simpl; [reflexivity|].
  rewrite Hp. exact IH.
Qed.

(** X14.  After a [motorInit] of a digital protocol no motor port has a
    compare-register handle, so [pwmShutdownPulsesForAllMotors] finds
    nothing to zero: for a count within the bank it returns the state
    unchanged. *)
Theorem pwmShutdownPulsesForAllMotors_digital_noop
    (motorConfig : motorConfig_t) (idlePulse : Z) (motorCount n : nat) :
  isDigital (motorInit_switch motorConfig idlePulse) = true ->
  (n <= MAX_SUPPORTED_MOTORS)%nat ->
  exists st',
    motorInit motorConfig idlePulse motorCount initial_state = Ok st'
    /\ Forall (fun p => ccr p = None) (motors st')
    /\ pwmShutdownPulsesForAllMotors n st' = Ok st'.
Proof.
  intros Hdig Hn.
  destruct (resolvable_prefix motorConfig
              (Nat.min MAX_SUPPORTED_MOTORS motorCount) 0)
    as (resolved & Hk & Hres & Hstop).
  destruct (motorInit_from_initial motorConfig idlePulse motorCount resolved)
    as (st' & Hinit & Hlen' & Hin & Hout & _);
    [exact Hres | exact Hk | exact Hstop
     | unfold rate_usable; rewrite Hdig; discriminate |].
  assert (Hnone : Forall (fun p => ccr p = None) (motors st')).
  { apply Forall_lookup. intros j p Hp.
    destruct (decide (j < length resolved)%nat) as [Hj|Hj].
    - destruct (lookup_lt_is_Some_2 resolved j Hj) as [[tag hw] Hr].
      rewrite (Hin j tag hw Hr) in Hp. injection Hp as <-.
      unfold slot_port. rewrite Hdig. reflexivity.
    - rewrite Hout in Hp; [injection Hp as <-; reflexivity|].
      apply lookup_lt_Some in Hp. lia. }
  exists st'. split; [exact Hinit|]. split; [exact Hnone|].
  unfold pwmShutdownPulsesForAllMotors.
  rewrite shutdown_loop by lia. rewrite drop_0.
  rewrite omap_ccr_none by (apply Forall_take; exact Hnone).
  simpl. rewrite set_regs_id. reflexivity.
Qed.

End MotorLifecycle.

(** ** Pulse widths *)


Lemma brushed_below_domain period value :
  0 <= period < 65536 -> 0 <= value < 1000 ->
  Encoder.brushed period value = - ((1000 - value) * period / 1000)
  /\ 0 <= (1000 - value) * period / 1000 <= period.
Proof.
  intros Hp Hv. unfold Encoder.brushed.
  rewrite (sint32_small (value - 1000)) by lia.
  rewrite sint32_small by nia.
  replace ((value - 1000) * period) with (- ((1000 - value) * period)) by ring.
  rewrite Z.quot_opp_l by lia.
  rewrite Z.quot_div_nonneg by nia.
  split; [reflexivity|].
  split; [apply Z.div_pos; nia|].
  apply Z.div_le_upper_bound; nia.
Qed.

Section PulseWidths.

Context `{Target}.

Lemma timCCR_t_negative k :
  0 < k < 65536 -> timCCR_t (- k) = timCCR_modulus - k.
Proof.
  intros Hk. unfold timCCR_t, timCCR_modulus, uint16, uint32, wrap_unsigned.
  destruct timCCR_bits.
  - change (2 ^ 16) with 65536. symmetry.
    apply (Z.mod_unique (- k) 65536 (- 1)); lia.
  - change (2 ^ 32) with 4294967296. symmetry.
    apply (Z.mod_unique (- k) 4294967296 (- 1)); lia.
Qed.

(** X11.  The Brushed encoder does not clamp a command below 1000: it
    computes minus [(1000 - value) * period / 1000], and unless that is
    zero the conversion to the unsigned register type wraps it to the
    register modulus minus that amount, which for a period below 32768 is
    a compare value above the period. *)
Theorem pwmWriteBrushed_below_1000_wraps (period value : Z) :
  0 <= period < 65536 ->
  0 <= value < 1000 ->
  Encoder.brushed period value = - ((1000 - value) * period / 1000)
  /\ 0 <= (1000 - value) * period / 1000 <= period
  /\ ((1000 - value) * period < 1000 ->
      timCCR_t (Encoder.brushed period value) = 0)
  /\ (1000 <= (1000 - value) * period ->
      timCCR_t (Encoder.brushed period value)
      = timCCR_modulus - (1000 - value) * period / 1000)
  /\ (1000 <= (1000 - value) * period -> period < 32768 ->
      period < timCCR_t (Encoder.brushed period value)).
Proof.
  intros Hp Hv.
  destruct (brushed_below_domain period value Hp Hv) as [Heq Hk].
  assert (Hpos : 1000 <= (1000 - value) * period ->
                 0 < (1000 - value) * period / 1000).
  { intros Hge. apply Z.div_str_pos. lia. }
  split; [exact Heq|split; [exact Hk|split; [|split]]].
  - intros Hsmall. rewrite Heq, Z.div_small by nia. apply timCCR_t_zero.
  - intros Hge. rewrite Heq. apply timCCR_t_negative. specialize (Hpos Hge). lia.
  - intros Hge Hhalf. rewrite Heq, timCCR_t_negative by (specialize (Hpos Hge); lia).
    unfold timCCR_modulus. destruct timCCR_bits; lia.
Qed.


End PulseWidths.

(** ** Writes and the shutdown *)

Section WriteComposition.

Context `{Target}.

Lemma pwmWriteMotor_analog i v st p f a :
  length (motors st) = MAX_SUPPORTED_MOTORS ->
  motors st !! i = Some p ->
  pwmWritePtr p = Some f -> analog f = true -> ccr p = Some a ->
  pwmMotorsEnabled st = true ->
  pwmWriteMotor i v st
  = Ok (set_regs (<[a := timCCR_t (protocol_compare f p v)]> (regs st)) st).
Proof.
  intros Hlen Hp Hf Han Ha Hgate. unfold pwmWriteMotor.
  rewrite bool_decide_true by (rewrite <- Hlen; eapply lookup_lt_Some; exact Hp).
  rewrite Hgate. simpl. rewrite (motor_at_Some _ _ _ Hp). simpl. rewrite Hf.
  apply call_analog_write; assumption.
Qed.

(** X13.  The shutdown and the writes compose without a latch: a shutdown
    after a write leaves the written register at 0, and a write after a
    shutdown stores its compare value again, the shutdown having left the
    enable gate set. *)
Theorem pwmShutdownPulsesForAllMotors_does_not_latch
    (n i : nat) (v : Z) (st : state) (p : pwmOutputPort_t)
    (f : pwmWriteFuncPtr) (a : Z) :
  length (motors st) = MAX_SUPPORTED_MOTORS ->
  (n <= MAX_SUPPORTED_MOTORS)%nat ->
  (i < n)%nat ->
  motors st !! i = Some p ->
  pwmWritePtr p = Some f -> analog f = true -> ccr p = Some a ->
  pwmMotorsEnabled st = true ->
  (exists st1 st2,
      pwmWriteMotor i v st = Ok st1
      /\ pwmShutdownPulsesForAllMotors n st1 = Ok st2
      /\ regs st2 !! a = Some 0)
  /\ (exists st3 st4,
        pwmShutdownPulsesForAllMotors n st = Ok st3
        /\ pwmMotorsEnabled st3 = true
        /\ pwmWriteMotor i v st3 = Ok st4
        /\ regs st4 !! a = Some (timCCR_t (protocol_compare f p v))).
Proof.
  intros Hlen Hn Hi Hp Hf Han Ha Hgate.
  assert (Hin : a ∈ omap ccr (take n (motors st))).
  { apply list_elem_of_omap. exists p. split; [|exact Ha].
    apply elem_of_take. exists i. split; assumption. }
  split.
  - eexists. eexists. split; [apply (pwmWriteMotor_analog i v st p f a); assumption|].
    split.
    + unfold pwmShutdownPulsesForAllMotors. apply shutdown_loop. simpl. lia.
    + simpl. rewrite drop_0. apply zero_all_hit. exact Hin.
  - eexists. eexists. split.
    { unfold pwmShutdownPulsesForAllMotors. apply shutdown_loop. lia. }
    split; [exact Hgate|]. split.
    + apply (pwmWriteMotor_analog i v _ p f a); simpl; assumption.
    + simpl. apply lookup_insert_eq.
Qed.

End WriteComposition.

(** ** The servo bank *)

Section Servos.

Context `{Target}.

Lemma servo_period_16bit servoConfig : 0 <= servo_period servoConfig < 65536.
Proof.
  unfold servo_period, uint16, wrap_unsigned.
  apply Z.mod_pos_bound. reflexivity.
Qed.

#[local] Opaque uint8 uint16 uint32.

(** A servo slot whose tag is unset ends the loop at once. *)
Lemma servoInit_slot_unset servoConfig index st :
  nth index (servo_ioTags servoConfig) 0 = 0 ->
  servoInit_slot servoConfig index st = Ok (Break, st).
Proof. intros Htag. unfold servoInit_slot. rewrite Htag. reflexivity. Qed.

(** A servo slot whose tag is set and resolves to no timer ends the loop
    after the pin has been initialised. *)
Lemma servoInit_slot_claimed servoConfig index tag before st :
  nth index (servo_ioTags servoConfig) 0 = tag ->
  tag <> 0 ->
  timerGetByTag tag TIMER_OUTPUT_ENABLED = None ->
  servos st !! index = Some before ->
  servoInit_slot servoConfig index st
  = Ok (Break, servo_claimed_state index tag before st).
Proof.
  intros Htag Hne Hhw Hbefore. unfold servoInit_slot.
  rewrite Htag, (proj2 (Z.eqb_neq tag 0) Hne).
  rewrite (servo_at_Some _ _ _ Hbefore). cbn [mbind result_bind].
  rewrite Hhw. do 2 f_equal.
  apply state_ext;
    cbn [emit set_servos servo_claimed_state motors servos regs trace
         pwmCompleteWritePtr pwmMotorsEnabled]; try reflexivity.
  unfold servo_pin_events. rewrite <- app_assoc. reflexivity.
Qed.

(** A servo slot whose tag resolves is populated, and the loop goes on. *)
Lemma servoInit_slot_resolved servoConfig index tag hw before st :
  nth index (servo_ioTags servoConfig) 0 = tag ->
  tag <> 0 ->
  timerGetByTag tag TIMER_OUTPUT_ENABLED = Some hw ->
  servos st !! index = Some before ->
  servoPwmRate servoConfig <> 0 ->
  servoInit_slot servoConfig index st
  = Ok (Continue, servo_slot_state servoConfig index tag hw before st).
Proof.
  intros Htag Hne Hhw Hbefore Hrate. unfold servoInit_slot.
  rewrite Htag, (proj2 (Z.eqb_neq tag 0) Hne).
  rewrite (servo_at_Some _ _ _ Hbefore). cbn [mbind result_bind].
  rewrite Hhw, (proj2 (Z.eqb_neq _ 0) Hrate).
  unfold pwmOutConfig, pwmOCConfig. rewrite timCCR_t_zero.
  do 2 f_equal.
  destruct (flag_set (timerHardware_output hw) TIMER_OUTPUT_ENABLED) eqn:Hflag;
    apply state_ext;
    cbn [emit set_servos set_regs servo_slot_state servo_port
         motors servos regs trace pwmCompleteWritePtr pwmMotorsEnabled
         ccr tim period pwmWritePtr enabled io]; try reflexivity;
    try (rewrite list_insert_insert_eq; reflexivity);
    unfold servo_pin_events, servo_timer_events, servo_period;
    rewrite Hflag, <- !app_assoc, ?uint16_idem; reflexivity.
Qed.

(** The servo loop over a resolved prefix. *)
Lemma servoInit_loop_prefix servoConfig resolved : forall index rest st,
  (forall j tag hw, resolved !! j = Some (tag, hw) ->
     nth (index + j) (servo_ioTags servoConfig) 0 = tag /\ tag <> 0
     /\ timerGetByTag tag TIMER_OUTPUT_ENABLED = Some hw) ->
  (index + length resolved <= length (servos st))%nat ->
  (resolved <> [] -> servoPwmRate servoConfig <> 0) ->
  for_loop (length resolved + rest) index (servoInit_slot servoConfig) st
  = for_loop rest (index + length resolved) (servoInit_slot servoConfig)
      (servos_populated servoConfig index resolved st).
Proof.
  induction resolved as [|[tag hw] resolved IH]; intros index rest st Hres Hlen Hrate.
  - simpl. rewrite Nat.add_0_r. reflexivity.
  - simpl in Hlen.
    destruct (lookup_lt_is_Some_2 (servos st) index) as [before Hbefore]; [lia|].
    destruct (Hres 0%nat tag hw eq_refl) as (Htag & Hne & Hhw).
    rewrite Nat.add_0_r in Htag.
    assert (Hr : servoPwmRate servoConfig <> 0) by (apply Hrate; discriminate).
    cbn [length Nat.add for_loop servos_populated].
    rewrite (servoInit_slot_resolved _ _ tag hw before) by assumption.
    rewrite Hbefore. cbn [default].
    rewrite IH.
    + f_equal. lia.
    + intros j tag' hw' Hj. replace (S index + j)%nat with (index + S j)%nat by lia.
      apply Hres. exact Hj.
    + cbn [servo_slot_state servos]. rewrite length_insert. lia.
    + intros _. exact Hr.
Qed.

(** What [servos_populated] does to the state. *)
Lemma servos_populated_spec servoConfig resolved : forall index st,
  (index + length resolved <= length (servos st))%nat ->
  let st' := servos_populated servoConfig index resolved st in
  length (servos st') = length (servos st)
  /\ (forall j, (j < index \/ index + length resolved <= j)%nat ->
        servos st' !! j = servos st !! j)
  /\ (forall k tag hw, resolved !! k = Some (tag, hw) ->
        servos st' !! (index + k)%nat
        = Some (servo_port servoConfig tag hw
                  (default port_zero (servos st !! (index + k)%nat))))
  /\ (forall a, regs st !! a = Some 0 -> regs st' !! a = Some 0)
  /\ (forall k tag hw, resolved !! k = Some (tag, hw) ->
        regs st' !! timerChCCR hw = Some 0)
  /\ motors st' = motors st
  /\ pwmCompleteWritePtr st' = pwmCompleteWritePtr st
  /\ pwmMotorsEnabled st' = pwmMotorsEnabled st
  /\ trace st'
     = trace st
       ++ concat (imap (fun k '(tag, hw) =>
                          servo_pin_events (index + k) tag
                          ++ servo_timer_events servoConfig hw)
                    resolved).
Proof.
  induction resolved as [|[tag hw] resolved IH]; intros index st Hlen;
    cbn [servos_populated].
  - repeat split; try reflexivity; try (intros; assumption).
    + intros k tag hw Hk. discriminate.
    + intros k tag hw Hk. discriminate.
    + cbn. rewrite app_nil_r. reflexivity.
  - simpl in Hlen.
    set (st1 := servo_slot_state servoConfig index tag hw
                  (default port_zero (servos st !! index)) st).
    assert (Hlen1 : length (servos st1) = length (servos st))
      by (unfold st1; cbn [servo_slot_state servos]; apply length_insert).
    destruct (IH (S index) st1) as
      (Hl & Hout & Hin & Hzero & Hregs & Hmotors & Hptr & Hgate & Htrace);
      [rewrite Hlen1; lia|].
    assert (Hkeep : forall a, regs st !! a = Some 0 -> regs st1 !! a = Some 0).
    { intros a Ha. unfold st1. cbn [servo_slot_state regs].
      destruct (decide (timerChCCR hw = a)) as [->|Hne];
        [apply lookup_insert_eq|rewrite lookup_insert_ne; assumption]. }
    split; [congruence|].
    split; [|split; [|split; [|split; [|split; [|split; [|split]]]]]].
    + intros j Hj. simpl in Hj. rewrite Hout by lia. unfold st1.
      cbn [servo_slot_state servos]. apply list_lookup_insert_ne. lia.
    + intros [|k] tag' hw' Hk; cbn in Hk.
      * injection Hk as <- <-. rewrite Nat.add_0_r.
        rewrite Hout by lia. unfold st1. cbn [servo_slot_state servos].
        apply list_lookup_insert_eq. lia.
      * replace (index + S k)%nat with (S index + k)%nat by lia.
        rewrite (Hin k tag' hw' Hk). unfold st1. cbn [servo_slot_state servos].
        rewrite list_lookup_insert_ne by lia. reflexivity.
    + intros a Ha. apply Hzero, Hkeep, Ha.
    + intros [|k] tag' hw' Hk; cbn in Hk.
      * injection Hk as <- <-. apply Hzero. unfold st1.
        cbn [servo_slot_state regs]. apply lookup_insert_eq.
      * exact (Hregs k tag' hw' Hk).
    + exact Hmotors.
    + exact Hptr.
    + exact Hgate.
    + rewrite Htrace. unfold st1. cbn [servo_slot_state trace].
      rewrite imap_cons. cbn [concat]. rewrite Nat.add_0_r, <- !app_assoc.
      do 4 f_equal. apply imap_ext. intros k [tag' hw'] _. cbn.
      do 2 f_equal. lia.
Qed.

End Servos.

Section ServoClaims.

Context `{Target}.

#[local] Opaque uint8 uint16 uint32.

(** [servoInit] from the zero-initialised state: the loop runs over the
    resolved prefix and then meets the end of the bank, an unset tag, or a
    tag without a timer. *)
Lemma servoInit_from_initial servoConfig resolved :
  servo_resolves servoConfig resolved ->
  (length resolved <= MAX_SUPPORTED_SERVOS)%nat ->
  servoPwmRate servoConfig <> 0 ->
  let tag := nth (length resolved) (servo_ioTags servoConfig) 0 in
  let st1 := servos_populated servoConfig 0 resolved initial_state in
  (length resolved = MAX_SUPPORTED_SERVOS \/ tag = 0 ->
   servoInit servoConfig initial_state = Ok st1)
  /\ ((length resolved < MAX_SUPPORTED_SERVOS)%nat -> tag <> 0 ->
      timerGetByTag tag TIMER_OUTPUT_ENABLED = None ->
      servoInit servoConfig initial_state
      = Ok (servo_claimed_state (length resolved) tag port_zero st1)).
Proof.
  intros Hres Hk Hrate tag st1.
  assert (Hlen0 : length (servos initial_state) = MAX_SUPPORTED_SERVOS)
    by apply length_replicate.
  assert (Hloop : servoInit servoConfig initial_state
                  = for_loop (MAX_SUPPORTED_SERVOS - length resolved)
                      (length resolved) (servoInit_slot servoConfig) st1).
  { unfold servoInit.
    replace MAX_SUPPORTED_SERVOS
      with (length resolved + (MAX_SUPPORTED_SERVOS - length resolved))%nat
      at 1 by lia.
    rewrite servoInit_loop_prefix; [reflexivity | | rewrite Hlen0; simpl; lia | ].
    - intros j tag' hw Hj. simpl. exact (Hres j tag' hw Hj).
    - intros _. exact Hrate. }
  destruct (servos_populated_spec servoConfig resolved 0 initial_state)
    as (_ & Hout & _); [rewrite Hlen0; simpl; lia|].
  split.
  - intros [Hfull|Hunset]; rewrite Hloop.
    + rewrite Hfull, Nat.sub_diag. reflexivity.
    + destruct (MAX_SUPPORTED_SERVOS - length resolved)%nat; [reflexivity|].
      simpl. rewrite servoInit_slot_unset by exact Hunset. reflexivity.
  - intros Hlt Hne Hnone. rewrite Hloop.
    destruct (MAX_SUPPORTED_SERVOS - length resolved)%nat eqn:Hrest; [lia|].
    simpl.
    rewrite (servoInit_slot_claimed _ _ tag port_zero);
      [reflexivity | reflexivity | exact Hne | exact Hnone |].
    fold st1. rewrite Hout by (right; simpl; lia). simpl.
    apply lookup_replicate_2. lia.
Qed.

(** X7.  [servoInit] populates the servo slots in index order up to the
    first slot whose tag is unset or resolves to no timer: every slot below
    it gets the handle and timer of its hardware, the period
    [1000000 / servoPwmRate] as a 16-bit value, the enabled flag, and a
    compare register at 0; every slot from it on stays disabled and without
    a handle.  The motor bank, the completion function and the enable gate
    are not touched. *)
Theorem servoInit_populates_resolved_prefix
    (servoConfig : servoConfig_t)
    (resolved : list (ioTag_t * timerHardware_t)) :
  servo_resolves servoConfig resolved ->
  (length resolved <= MAX_SUPPORTED_SERVOS)%nat ->
  ((length resolved < MAX_SUPPORTED_SERVOS)%nat ->
   nth (length resolved) (servo_ioTags servoConfig) 0 = 0
   \/ timerGetByTag (nth (length resolved) (servo_ioTags servoConfig) 0)
        TIMER_OUTPUT_ENABLED = None) ->
  servoPwmRate servoConfig <> 0 ->
  exists st',
    servoInit servoConfig initial_state = Ok st'
    /\ (forall j tag hw, resolved !! j = Some (tag, hw) ->
          servos st' !! j = Some (servo_port servoConfig tag hw port_zero)
          /\ regs st' !! timerChCCR hw = Some 0)
    /\ (forall j p, (length resolved <= j)%nat -> servos st' !! j = Some p ->
          enabled p = false /\ ccr p = None)
    /\ (forall j, (length resolved < j < MAX_SUPPORTED_SERVOS)%nat ->
          servos st' !! j = Some port_zero)
    /\ motors st' = motors initial_state
    /\ pwmCompleteWritePtr st' = None
    /\ pwmMotorsEnabled st' = true.
Proof.
  intros Hres Hk Hstop Hrate.
  assert (Hlen0 : length (servos initial_state) = MAX_SUPPORTED_SERVOS)
    by apply length_replicate.
  destruct (servoInit_from_initial servoConfig resolved Hres Hk Hrate)
    as [Hplain Hclaimed].
  destruct (servos_populated_spec servoConfig resolved 0 initial_state)
    as (Hl & Hout & Hin & _ & Hregs & Hmotors & Hptr & Hgate & _);
    [rewrite Hlen0; simpl; lia|].
  set (st1 := servos_populated servoConfig 0 resolved initial_state) in *.
  assert (Hport : forall j tag hw, resolved !! j = Some (tag, hw) ->
            servos st1 !! j = Some (servo_port servoConfig tag hw port_zero)).
  { intros j tag hw Hj. pose proof (Hin j tag hw Hj) as Hs. simpl in Hs.
    rewrite Hs. rewrite lookup_replicate_2; [reflexivity|].
    apply lookup_lt_Some in Hj. lia. }
  assert (Hrest : forall j, (length resolved <= j < MAX_SUPPORTED_SERVOS)%nat ->
            servos st1 !! j = Some port_zero).
  { intros j Hj. rewrite Hout by (right; simpl; lia). simpl.
    apply lookup_replicate_2. lia. }
  assert (Hbeyond : forall j p, (length resolved <= j)%nat ->
            servos st1 !! j = Some p -> p = port_zero).
  { intros j p Hj Hp. rewrite Hrest in Hp; [congruence|].
    apply lookup_lt_Some in Hp. rewrite Hl, Hlen0 in Hp. lia. }
  destruct (decide (length resolved = MAX_SUPPORTED_SERVOS)) as [Hfull|Hnot].
  { exists st1. split; [apply Hplain; left; exact Hfull|].
    split; [intros j tag hw Hj; split; [exact (Hport j tag hw Hj)
                                       |exact (Hregs j tag hw Hj)]|].
    split; [intros j p Hj Hp; rewrite (Hbeyond j p Hj Hp); split; reflexivity|].
    split; [intros j Hj; apply Hrest; lia|].
    split; [exact Hmotors|split; [rewrite Hptr; reflexivity
                                 |rewrite Hgate; reflexivity]]. }
  destruct (decide (nth (length resolved) (servo_ioTags servoConfig) 0 = 0))
    as [Hunset|Hset].
  { exists st1. split; [apply Hplain; right; exact Hunset|].
    split; [intros j tag hw Hj; split; [exact (Hport j tag hw Hj)
                                       |exact (Hregs j tag hw Hj)]|].
    split; [intros j p Hj Hp; rewrite (Hbeyond j p Hj Hp); split; reflexivity|].
    split; [intros j Hj; apply Hrest; lia|].
    split; [exact Hmotors|split; [rewrite Hptr; reflexivity
                                 |rewrite Hgate; reflexivity]]. }
  destruct (Hstop ltac:(lia)) as [Hunset|Hnone]; [contradiction|].
  eexists. split; [apply Hclaimed; [lia|exact Hset|exact Hnone]|].
  cbn [servo_claimed_state servos motors regs pwmCompleteWritePtr
       pwmMotorsEnabled].
  split; [|split; [|split; [|split; [exact Hmotors
                                    |split; [rewrite Hptr; reflexivity
                                            |rewrite Hgate; reflexivity]]]]].
  - intros j tag hw Hj. split; [|exact (Hregs j tag hw Hj)].
    rewrite list_lookup_insert_ne by (apply lookup_lt_Some in Hj; lia).
    exact (Hport j tag hw Hj).
  - intros j p Hj Hp. destruct (decide (j = length resolved)) as [->|Hne].
    + rewrite list_lookup_insert_eq in Hp by (rewrite Hl, Hlen0; lia).
      injection Hp as <-. split; reflexivity.
    + rewrite list_lookup_insert_ne in Hp by lia.
      rewrite (Hbeyond j p Hj Hp). split; reflexivity.
  - intros j Hj. rewrite list_lookup_insert_ne by lia. apply Hrest. lia.
Qed.

(** X8.  The slot at which [servoInit] stops.  An unset tag leaves the slot
    untouched and adds no call.  A tag that is set and resolves to no timer
    has already had its pin initialised: the slot records the pin and the
    trace ends with the [IOInit] and [IOConfigGPIO] calls for it, while the
    port stays disabled and without a handle. *)
Theorem servoInit_stopping_slot
    (servoConfig : servoConfig_t)
    (resolved : list (ioTag_t * timerHardware_t)) :
  servo_resolves servoConfig resolved ->
  (length resolved < MAX_SUPPORTED_SERVOS)%nat ->
  servoPwmRate servoConfig <> 0 ->
  let stop := length resolved in
  let tag := nth stop (servo_ioTags servoConfig) 0 in
  let populated_trace :=
    concat (imap (fun k '(tag, hw) =>
                    servo_pin_events k tag ++ servo_timer_events servoConfig hw)
              resolved) in
  (tag = 0 ->
   exists st',
     servoInit servoConfig initial_state = Ok st'
     /\ servos st' !! stop = Some port_zero
     /\ trace st' = populated_trace)
  /\ (tag <> 0 -> timerGetByTag tag TIMER_OUTPUT_ENABLED = None ->
      exists st',
        servoInit servoConfig initial_state = Ok st'
        /\ servos st' !! stop
           = Some {| ccr := None; tim := None; period := 0;
                     pwmWritePtr := None; enabled := false;
                     io := IOGetByTag tag |}
        /\ trace st' = populated_trace ++ servo_pin_events stop tag).
Proof.
  intros Hres Hk Hrate stop tag populated_trace.
  assert (Hlen0 : length (servos initial_state) = MAX_SUPPORTED_SERVOS)
    by apply length_replicate.
  destruct (servoInit_from_initial servoConfig resolved Hres ltac:(lia) Hrate)
    as [Hplain Hclaimed].
  destruct (servos_populated_spec servoConfig resolved 0 initial_state)
    as (Hl & Hout & _ & _ & _ & _ & _ & _ & Htrace);
    [rewrite Hlen0; simpl; lia|].
  split.
  - intros Hunset. eexists. split; [apply Hplain; right; exact Hunset|].
    split.
    + rewrite Hout by (right; simpl; lia). simpl. apply lookup_replicate_2. lia.
    + rewrite Htrace. reflexivity.
  - intros Hset Hnone. eexists.
    split; [apply Hclaimed; [lia|exact Hset|exact Hnone]|].
    cbn [servo_claimed_state servos trace]. split.
    + rewrite list_lookup_insert_eq by (rewrite Hl, Hlen0; lia). reflexivity.
    + rewrite Htrace. reflexivity.
Qed.

(** X9.  [pwmWriteServo] on a servo bank of the declared size never
    faults and changes nothing but the register store; it returns the state
    unchanged when the index is at or beyond [MAX_SUPPORTED_SERVOS] and
    when the port has no handle. *)
Theorem pwmWriteServo_total_and_framed (i : nat) (v : Z) (st : state) :
  length (servos st) = MAX_SUPPORTED_SERVOS ->
  (exists st', pwmWriteServo i v st = Ok st' /\ st' = set_regs (regs st') st)
  /\ ((MAX_SUPPORTED_SERVOS <= i)%nat -> pwmWriteServo i v st = Ok st)
  /\ (forall p, servos st !! i = Some p -> ccr p = None ->
        pwmWriteServo i v st = Ok st).
Proof.
  intros Hlen. unfold pwmWriteServo. split; [|split].
  - case_bool_decide as Hi; [|exists st; split; [reflexivity|]].
    + destruct (lookup_lt_is_Some_2 (servos st) i) as [p Hp]; [lia|].
      rewrite (servo_at_Some _ _ _ Hp). simpl.
      destruct (ccr p) as [a|]; simpl.
      * eexists. split; reflexivity.
      * exists st. split; [reflexivity|]. symmetry. apply set_regs_id.
    + symmetry. apply set_regs_id.
  - intros Hi. rewrite bool_decide_false by lia. reflexivity.
  - intros p Hp Hnone. case_bool_decide; [|reflexivity].
    rewrite (servo_at_Some _ _ _ Hp). simpl. rewrite Hnone. reflexivity.
Qed.

(** X10.  After [servoInit], a write to a populated servo of a value that
    fits 16 bits returns, and the servo's compare register then holds
    exactly that value, every other register being as before. *)
Theorem pwmWriteServo_after_servoInit
    (servoConfig : servoConfig_t)
    (resolved : list (ioTag_t * timerHardware_t))
    (j : nat) (tag : ioTag_t) (hw : timerHardware_t) (v : Z) :
  servo_resolves servoConfig resolved ->
  (length resolved <= MAX_SUPPORTED_SERVOS)%nat ->
  ((length resolved < MAX_SUPPORTED_SERVOS)%nat ->
   nth (length resolved) (servo_ioTags servoConfig) 0 = 0
   \/ timerGetByTag (nth (length resolved) (servo_ioTags servoConfig) 0)
        TIMER_OUTPUT_ENABLED = None) ->
  servoPwmRate servoConfig <> 0 ->
  resolved !! j = Some (tag, hw) ->
  0 <= v < 65536 ->
  exists st' st'',
    servoInit servoConfig initial_state = Ok st'
    /\ pwmWriteServo j v st' = Ok st''
    /\ regs st'' !! timerChCCR hw = Some v
    /\ (forall a, a <> timerChCCR hw -> regs st'' !! a = regs st' !! a).
Proof.
  intros Hres Hk Hstop Hrate Hj Hv.
  assert (Hlen0 : length (servos initial_state) = MAX_SUPPORTED_SERVOS)
    by apply length_replicate.
  destruct (servoInit_from_initial servoConfig resolved Hres Hk Hrate)
    as [Hplain Hclaimed].
  destruct (servos_populated_spec servoConfig resolved 0 initial_state)
    as (Hl & _ & Hin & _); [rewrite Hlen0; simpl; lia|].
  pose proof (lookup_lt_Some _ _ _ Hj) as Hjlt.
  assert (Hwrite : forall st', servos st' !! j
                     = Some (servo_port servoConfig tag hw port_zero) ->
            pwmWriteServo j v st'
            = Ok (set_regs (<[timerChCCR hw := v]> (regs st')) st')).
  { intros st' Hp. unfold pwmWriteServo.
    rewrite bool_decide_true by lia.
    rewrite (servo_at_Some _ _ _ Hp). simpl.
    rewrite timCCR_t_small by exact Hv. reflexivity. }
  assert (Hport : servos (servos_populated servoConfig 0 resolved initial_state)
                    !! j = Some (servo_port servoConfig tag hw port_zero)).
  { pose proof (Hin j tag hw Hj) as Hs. simpl in Hs. rewrite Hs.
    rewrite lookup_replicate_2 by lia. reflexivity. }
  assert (Hdone : exists st',
            servoInit servoConfig initial_state = Ok st'
            /\ servos st' !! j = Some (servo_port servoConfig tag hw port_zero)).
  { destruct (decide (length resolved = MAX_SUPPORTED_SERVOS)) as [Hfull|Hnot];
      [eexists; split; [apply Hplain; left; exact Hfull|exact Hport]|].
    destruct (decide (nth (length resolved) (servo_ioTags servoConfig) 0 = 0))
      as [Hunset|Hset];
      [eexists; split; [apply Hplain; right; exact Hunset|exact Hport]|].
    destruct (Hstop ltac:(lia)) as [Hunset|Hnone]; [contradiction|].
    eexists. split; [apply Hclaimed; [lia|exact Hset|exact Hnone]|].
    cbn [servo_claimed_state servos].
    rewrite list_lookup_insert_ne by lia. exact Hport. }
  destruct Hdone as (st' & Hinit & Hp).
  exists st'. eexists. split; [exact Hinit|].
  split; [apply Hwrite; exact Hp|].
  simpl. split; [apply lookup_insert_eq|].
  intros a Ha. apply lookup_insert_ne. congruence.
Qed.

End ServoClaims.

Section Gate.

Context `{Target}.

#[local] Opaque uint8 uint16 uint32.

(** A loop whose body does not look at the gate does not either. *)
Lemma for_loop_gate (body : nat -> state -> result (loop_exit * state)) gate :
  (forall index st,
     body index (set_pwmMotorsEnabled gate st)
     = match body index st with
       | Ok (e, st') => Ok (e, set_pwmMotorsEnabled gate st')
       | Fault f => Fault f
       end) ->
  forall count index st,
    for_loop count index body (set_pwmMotorsEnabled gate st)
    = with_gate gate (for_loop count index body st).
Proof.
  intros Hbody count. induction count as [|count IH]; intros index st.
  - reflexivity.
  - simpl. rewrite Hbody.
    destruct (body index st) as [[[|] st']|f]; [apply IH|reflexivity..].
Qed.

Lemma pwmShutdownPulsesForAllMotors_gate n :
  gate_independent (pwmShutdownPulsesForAllMotors n).
Proof.
  intros gate st. apply for_loop_gate. clear st. intros index st.
  unfold pwmShutdownPulsesForAllMotors_body, motor_at.
  cbn [set_pwmMotorsEnabled motors].
  destruct (motors st !! index) as [p|]; [|reflexivity]. simpl.
  destruct (ccr p); reflexivity.
Qed.

Lemma pwmCompleteOneshotMotorUpdate_gate n :
  gate_independent (pwmCompleteOneshotMotorUpdate n).
Proof.
  intros gate st. apply for_loop_gate. clear st. intros index st.
  unfold pwmCompleteOneshotMotorUpdate_body, motor_at.
  cbn [set_pwmMotorsEnabled motors].
  destruct (motors st !! index) as [p|]; [|reflexivity]. simpl.
  change (timer_overflowed index p (set_pwmMotorsEnabled gate st))
    with (timer_overflowed index p st).
  destruct (timer_overflowed index p st) as [[|]|f]; simpl;
    [|destruct (tim p); simpl|]; try reflexivity;
    destruct (ccr p); reflexivity.
Qed.

Lemma pwmCompleteMotorUpdate_gate n :
  gate_independent (pwmCompleteMotorUpdate n).
Proof.
  intros gate st. unfold pwmCompleteMotorUpdate.
  cbn [set_pwmMotorsEnabled pwmCompleteWritePtr].
  destruct (pwmCompleteWritePtr st) as [[|]|]; simpl.
  - apply pwmCompleteOneshotMotorUpdate_gate.
  - reflexivity.
  - reflexivity.
Qed.

Lemma motorInit_gate motorConfig idlePulse motorCount :
  gate_independent (motorInit motorConfig idlePulse motorCount).
Proof.
  intros gate st. rewrite !motorInit_unfold.
  replace (motorInit_entry motorConfig idlePulse (set_pwmMotorsEnabled gate st))
    with (set_pwmMotorsEnabled gate (motorInit_entry motorConfig idlePulse st)).
  2:{ unfold motorInit_entry.
      destruct (isDigital (motorInit_switch motorConfig idlePulse)),
        (local_useUnsyncedPwm (motorInit_switch motorConfig idlePulse));
        reflexivity. }
  apply for_loop_gate. clear st. intros index st.
  unfold motorInit_slot.
  destruct (nth index (ioTags motorConfig) 0 =? 0); [reflexivity|].
  destruct (timerGetByTag _ _) as [hw|]; [|reflexivity].
  unfold motor_at. cbn [set_pwmMotorsEnabled emit motors].
  destruct (isDigital (motorInit_switch motorConfig idlePulse)).
  - destruct (motors st !! index); reflexivity.
  - destruct (motors st !! index); [|reflexivity]. simpl.
    unfold pwmOutConfig.
    destruct (local_useUnsyncedPwm (motorInit_switch motorConfig idlePulse));
      [destruct (motorPwmRate motorConfig =? 0); [reflexivity|]|];
      destruct (flag_set (timerHardware_output hw) TIMER_OUTPUT_ENABLED);
      reflexivity.
Qed.

Lemma servoInit_gate servoConfig : gate_independent (servoInit servoConfig).
Proof.
  intros gate st. apply for_loop_gate. clear st. intros index st.
  unfold servoInit_slot.
  destruct (nth index (servo_ioTags servoConfig) 0 =? 0); [reflexivity|].
  unfold servo_at. cbn [set_pwmMotorsEnabled servos].
  destruct (servos st !! index); [|reflexivity]. simpl.
  destruct (timerGetByTag _ _) as [hw|]; [|reflexivity].
  destruct (servoPwmRate servoConfig =? 0); [reflexivity|].
  unfold pwmOutConfig.
  destruct (flag_set (timerHardware_output hw) TIMER_OUTPUT_ENABLED);
    reflexivity.
Qed.

Lemma pwmWriteServo_gate i v : gate_independent (pwmWriteServo i v).
Proof.
  intros gate st. unfold pwmWriteServo, servo_at.
  cbn [set_pwmMotorsEnabled servos].
  destruct (bool_decide _); [|reflexivity].
  destruct (servos st !! i) as [p|]; [|reflexivity]. simpl.
  destruct (ccr p); reflexivity.
Qed.

Lemma gate_independent_keeps_gate op st st' :
  gate_independent op -> op st = Ok st' ->
  pwmMotorsEnabled st' = pwmMotorsEnabled st.
Proof.
  intros Hop Hst.
  pose proof (Hop (pwmMotorsEnabled st) st) as Hg.
  replace (set_pwmMotorsEnabled (pwmMotorsEnabled st) st) with st in Hg
    by (destruct st; reflexivity).
  rewrite Hst in Hg. simpl in Hg. injection Hg as Hg.
  rewrite Hg at 1. reflexivity.
Qed.

(** X15.  [pwmMotorsEnabled] is read by [pwmWriteMotor] alone.  The two
    initialisations, the completion step, the shutdown and the servo write
    do the same to the rest of the state whichever way the gate is set, and
    hand the gate back as they found it; a motor write with the gate
    cleared does nothing. *)
Theorem pwmMotorsEnabled_read_by_pwmWriteMotor_only :
  (forall motorConfig idlePulse motorCount,
     gate_independent (motorInit motorConfig idlePulse motorCount))
  /\ (forall servoConfig, gate_independent (servoInit servoConfig))
  /\ (forall n, gate_independent (pwmCompleteMotorUpdate n))
  /\ (forall n, gate_independent (pwmShutdownPulsesForAllMotors n))
  /\ (forall i v, gate_independent (pwmWriteServo i v))
  /\ (forall op st st', gate_independent op -> op st = Ok st' ->
        pwmMotorsEnabled st' = pwmMotorsEnabled st)
  /\ (forall i v st,
        pwmWriteMotor i v (pwmDisableMotors st) = Ok (pwmDisableMotors st)).
Proof.
  split; [exact motorInit_gate|].
  split; [exact servoInit_gate|].
  split; [exact pwmCompleteMotorUpdate_gate|].
  split; [exact pwmShutdownPulsesForAllMotors_gate|].
  split; [exact pwmWriteServo_gate|].
  split; [intros op st st' Hop Hst;
          exact (gate_independent_keeps_gate op st st' Hop Hst)|].
  intros i v st. unfold pwmWriteMotor, pwmDisableMotors.
  cbn [set_pwmMotorsEnabled pwmMotorsEnabled].
  rewrite andb_false_r. reflexivity.
Qed.

End Gate.

Section Reinitialisation.

Context `{Target}.

#[local] Opaque uint8 uint16 uint32.

Lemma zero_all_idem handles (r : gmap Z Z) :
  zero_all handles (zero_all handles r) = zero_all handles r.
Proof.
  apply map_eq. intros a. destruct (decide (a ∈ handles)) as [Hin|Hout].
  - rewrite !zero_all_hit by exact Hin. reflexivity.
  - rewrite zero_all_miss by exact Hout. reflexivity.
Qed.

(** The registers after [populated]: the handles of the resolved hardware
    hold 0, unless the protocol is digital. *)
Lemma populated_regs motorConfig idlePulse resolved : forall index st,
  regs (populated motorConfig idlePulse index resolved st)
  = if isDigital (motorInit_switch motorConfig idlePulse)
    then regs st
    else zero_all ((fun r => timerChCCR (snd r)) <$> resolved) (regs st).
Proof.
  induction resolved as [|[tag hw] resolved IH]; intros index st.
  - simpl. destruct (isDigital _); reflexivity.
  - simpl. rewrite IH. cbn [slot_state regs].
    destruct (isDigital (motorInit_switch motorConfig idlePulse)); reflexivity.
Qed.

Lemma slot_port_idem motorConfig idlePulse tag hw before :
  slot_port motorConfig idlePulse tag hw
    (slot_port motorConfig idlePulse tag hw before)
  = slot_port motorConfig idlePulse tag hw before.
Proof.
  unfold slot_port.
  destruct (isDigital (motorInit_switch motorConfig idlePulse)); reflexivity.
Qed.

Lemma motorInit_entry_idem motorConfig idlePulse st st1 :
  pwmCompleteWritePtr st1
  = pwmCompleteWritePtr (motorInit_entry motorConfig idlePulse st) ->
  pwmCompleteWritePtr (motorInit_entry motorConfig idlePulse st1)
  = pwmCompleteWritePtr st1.
Proof.
  unfold motorInit_entry.
  destruct (isDigital (motorInit_switch motorConfig idlePulse)),
    (local_useUnsyncedPwm (motorInit_switch motorConfig idlePulse));
    cbn [set_pwmCompleteWritePtr pwmCompleteWritePtr]; congruence.
Qed.

(** X16.  [motorInit] is idempotent on everything but the trace: run a
    second time with the same arguments, it returns, makes the same calls
    to the other layers again, and leaves both banks, the compare
    registers, the completion function and the enable gate exactly as the
    first run left them. *)
Theorem motorInit_idempotent
    (motorConfig : motorConfig_t) (idlePulse : Z) (motorCount : nat)
    (st : state) :
  length (motors st) = MAX_SUPPORTED_MOTORS ->
  rate_usable motorConfig idlePulse ->
  exists st1 st2 calls,
    motorInit motorConfig idlePulse motorCount st = Ok st1
    /\ motorInit motorConfig idlePulse motorCount st1 = Ok st2
    /\ motors st2 = motors st1
    /\ servos st2 = servos st1
    /\ regs st2 = regs st1
    /\ pwmCompleteWritePtr st2 = pwmCompleteWritePtr st1
    /\ pwmMotorsEnabled st2 = pwmMotorsEnabled st1
    /\ trace st1 = trace st ++ calls
    /\ trace st2 = trace st1 ++ calls.
Proof.
  intros Hlen Hrate.
  destruct (resolvable_prefix motorConfig
              (Nat.min MAX_SUPPORTED_MOTORS motorCount) 0)
    as (resolved & Hk & Hres & Hstop).
  set (st1 := populated motorConfig idlePulse 0 resolved
                (motorInit_entry motorConfig idlePulse st)).
  assert (Hinit1 : motorInit motorConfig idlePulse motorCount st = Ok st1)
    by (apply (motorInit_resolved _ _ _ resolved); assumption).
  destruct (motorInit_entry_fields motorConfig idlePulse st)
    as (Hm & Hs & Hr & Ht & Hg).
  destruct (populated_from_0 motorConfig idlePulse resolved
              (motorInit_entry motorConfig idlePulse st))
    as (Hl & Hout & Hin & _ & _ & Hservos & Hptr & Hgate & Htrace);
    [rewrite Hm; lia|].
  fold st1 in Hl, Hout, Hin, Hservos, Hptr, Hgate, Htrace.
  assert (Hlen1 : length (motors st1) = MAX_SUPPORTED_MOTORS)
    by (rewrite Hl, Hm; exact Hlen).
  set (st2 := populated motorConfig idlePulse 0 resolved
                (motorInit_entry motorConfig idlePulse st1)).
  assert (Hinit2 : motorInit motorConfig idlePulse motorCount st1 = Ok st2)
    by (apply (motorInit_resolved _ _ _ resolved); assumption).
  destruct (motorInit_entry_fields motorConfig idlePulse st1)
    as (Hm' & Hs' & Hr' & Ht' & Hg').
  destruct (populated_from_0 motorConfig idlePulse resolved
              (motorInit_entry motorConfig idlePulse st1))
    as (Hl' & Hout' & Hin' & _ & _ & Hservos' & Hptr' & Hgate' & Htrace');
    [rewrite Hm'; lia|].
  fold st2 in Hl', Hout', Hin', Hservos', Hptr', Hgate', Htrace'.
  exists st1, st2.
  exists (concat (imap (fun k '(tag, hw) =>
                          slot_events motorConfig idlePulse k tag hw)
                    resolved)).
  split; [exact Hinit1|]. split; [exact Hinit2|].
  split; [|split; [|split; [|split; [|split; [|split]]]]].
  - apply list_eq. intros j.
    destruct (resolved !! j) as [[tag hw]|] eqn:Hj.
    + rewrite (Hin' j tag hw Hj), Hm', (Hin j tag hw Hj). simpl.
      rewrite slot_port_idem. reflexivity.
    + apply lookup_ge_None in Hj. rewrite Hout', Hm' by exact Hj. reflexivity.
  - rewrite Hservos', Hs'. reflexivity.
  - unfold st2. rewrite populated_regs, Hr'.
    unfold st1. rewrite populated_regs.
    destruct (isDigital (motorInit_switch motorConfig idlePulse));
      [reflexivity|apply zero_all_idem].
  - rewrite Hptr'. apply (motorInit_entry_idem _ _ st). exact Hptr.
  - rewrite Hgate', Hg'. reflexivity.
  - rewrite Htrace, Ht. reflexivity.
  - rewrite Htrace', Ht'. reflexivity.
Qed.

End Reinitialisation.

Section InitialisedWrites.

Context `{Target}.

#[local] Opaque uint8 uint16 uint32.

(** The write function [motorInit] chooses, protocol by protocol. *)
Lemma local_pwmWritePtr_compare motorConfig idlePulse f p v :
  isDigital (motorInit_switch motorConfig idlePulse) = false ->
  local_pwmWritePtr (motorInit_switch motorConfig idlePulse) = Some f ->
  protocol_compare f p v
  = match motorPwmProtocol motorConfig with
    | PWM_TYPE_STANDARD => Encoder.standard v
    | PWM_TYPE_BRUSHED => Encoder.brushed (period p) v
    | PWM_TYPE_ONESHOT42 => Encoder.oneshot42 ONESHOT42_TIMER_MHZ v
    | PWM_TYPE_MULTISHOT => Encoder.multishot MULTISHOT_TIMER_MHZ v
    | _ => Encoder.oneshot125 ONESHOT125_TIMER_MHZ v
    end.
Proof.
  unfold motorInit_switch.
  destruct (motorPwmProtocol motorConfig), USE_DSHOT; simpl;
    intros Hdig Hf; try discriminate; injection Hf as <-; reflexivity.
Qed.

(** X17.  Initialisation and write, end to end.  After [motorInit] of an
    analog protocol from the zero-initialised state, a write to a populated
    motor stores the compare value of the encoder of the configured
    protocol (OneShot125 for a protocol value the switch does not name) in
    that motor's register and changes no other register, while a write to
    a motor at or beyond the first unresolved slot changes nothing. *)
Theorem pwmWriteMotor_after_motorInit
    (motorConfig : motorConfig_t) (idlePulse : Z) (motorCount : nat)
    (resolved : list (ioTag_t * timerHardware_t))
    (j : nat) (tag : ioTag_t) (hw : timerHardware_t) (v : Z) :
  resolves motorConfig resolved ->
  (length resolved <= Nat.min MAX_SUPPORTED_MOTORS motorCount)%nat ->
  ((length resolved < Nat.min MAX_SUPPORTED_MOTORS motorCount)%nat ->
   unresolvable motorConfig (length resolved)) ->
  rate_usable motorConfig idlePulse ->
  isDigital (motorInit_switch motorConfig idlePulse) = false ->
  resolved !! j = Some (tag, hw) ->
  exists st' st'',
    motorInit motorConfig idlePulse motorCount initial_state = Ok st'
    /\ pwmWriteMotor j v st' = Ok st''
    /\ regs st'' !! timerChCCR hw
       = Some (timCCR_t
                 match motorPwmProtocol motorConfig with
                 | PWM_TYPE_STANDARD => Encoder.standard v
                 | PWM_TYPE_BRUSHED =>
                     Encoder.brushed (slot_period motorConfig idlePulse) v
                 | PWM_TYPE_ONESHOT42 =>
                     Encoder.oneshot42 ONESHOT42_TIMER_MHZ v
                 | PWM_TYPE_MULTISHOT =>
                     Encoder.multishot MULTISHOT_TIMER_MHZ v
                 | _ => Encoder.oneshot125 ONESHOT125_TIMER_MHZ v
                 end)
    /\ (forall a, a <> timerChCCR hw -> regs st'' !! a = regs st' !! a)
    /\ (forall k, (length resolved <= k)%nat -> pwmWriteMotor k v st' = Ok st').
Proof.
  intros Hres Hk Hstop Hrate Hdig Hj.
  destruct (motorInit_from_initial motorConfig idlePulse motorCount resolved
              Hres Hk Hstop Hrate)
    as (st' & Hinit & Hlen & Hin & Hout & _ & _ & Hgate & _).
  destruct (local_pwmWritePtr_analog _ _ Hdig) as (f & Hf & Han).
  pose proof (Hin j tag hw Hj) as Hp.
  assert (Hport : slot_port motorConfig idlePulse tag hw port_zero
                  = {| ccr := Some (timerChCCR hw);
                       tim := Some (timerHardware_tim hw);
                       period := slot_period motorConfig idlePulse;
                       pwmWritePtr := Some f;
                       enabled := true;
                       io := IOGetByTag tag |}).
  { unfold slot_port. rewrite Hdig, Hf. reflexivity. }
  rewrite Hport in Hp.
  exists st'. eexists. split; [exact Hinit|].
  split; [exact (pwmWriteMotor_analog j v st' _ f (timerChCCR hw)
                   Hlen Hp eq_refl Han eq_refl Hgate)|].
  cbn [set_regs regs].
  split; [|split].
  - rewrite lookup_insert_eq.
    rewrite (local_pwmWritePtr_compare motorConfig idlePulse f _ v Hdig Hf).
    reflexivity.
  - intros a Ha. apply lookup_insert_ne. congruence.
  - intros k Hk'. unfold pwmWriteMotor.
    case_bool_decide as Hlt; [|reflexivity].
    rewrite Hgate. simpl.
    rewrite (motor_at_Some _ _ _ (Hout k ltac:(lia))). reflexivity.
Qed.

End InitialisedWrites.

(** ** The claims on the reference board *)

Import Board.

(** C1, witness: the twelve OneShot125 motors of the reference board, four
    to a timer. *)
Lemma pwmCompleteOneshotMotorUpdate_one_overflow_per_timer_witness :
  exists st' overflowed,
    pwmCompleteOneshotMotorUpdate 12 Board.oneshot_state = Ok st'
    /\ trace st' = trace Board.oneshot_state ++ (Ev_timerForceOverflow <$> overflowed)
    /\ overflowed
       = first_occurrences []
           [1073741824; 1073741824; 1073741824; 1073741824;
            1073742848; 1073742848; 1073742848; 1073742848;
            1073743872; 1073743872; 1073743872; 1073743872]
    /\ NoDup overflowed
    /\ (forall t, t ∈ overflowed <->
          t ∈ [1073741824; 1073741824; 1073741824; 1073741824;
               1073742848; 1073742848; 1073742848; 1073742848;
               1073743872; 1073743872; 1073743872; 1073743872])
    /\ (forall a, a ∈ [1073741876; 1073741880; 1073741884; 1073741888;
                       1073742900; 1073742904; 1073742908; 1073742912;
                       1073743924; 1073743928; 1073743932; 1073743936] ->
          regs st' !! a = Some 0)
    /\ (forall a, a ∉ [1073741876; 1073741880; 1073741884; 1073741888;
                       1073742900; 1073742904; 1073742908; 1073742912;
                       1073743924; 1073743928; 1073743932; 1073743936] ->
          regs st' !! a = regs Board.oneshot_state !! a)
    /\ motors st' = motors Board.oneshot_state
    /\ servos st' = servos Board.oneshot_state
    /\ pwmCompleteWritePtr st' = pwmCompleteWritePtr Board.oneshot_state
    /\ pwmMotorsEnabled st' = pwmMotorsEnabled Board.oneshot_state.
Proof.
  apply (pwmCompleteOneshotMotorUpdate_one_overflow_per_timer 12 Board.oneshot_state);
    [vm_compute; lia | reflexivity | reflexivity | reflexivity].
Defined.

(** C5, witness: the shutdown of the twelve motors of the reference board. *)
Lemma pwmShutdownPulsesForAllMotors_zeroes_witness :
  exists st',
    pwmShutdownPulsesForAllMotors 12 oneshot_state = Ok st'
    /\ (forall i p a, (i < 12)%nat -> motors oneshot_state !! i = Some p ->
          ccr p = Some a -> regs st' !! a = Some 0)
    /\ (forall a, (forall i p, (i < 12)%nat -> motors oneshot_state !! i = Some p ->
                     ccr p <> Some a) ->
          regs st' !! a = regs oneshot_state !! a)
    /\ st' = set_regs (regs st') oneshot_state
    /\ (forall gate,
          pwmShutdownPulsesForAllMotors 12 (set_pwmMotorsEnabled gate oneshot_state)
          = Ok (set_pwmMotorsEnabled gate st')).
Proof.
  apply (pwmShutdownPulsesForAllMotors_zeroes 12 oneshot_state);
    [vm_compute; lia | reflexivity].
Defined.

(** C5, counterexample: a count of thirteen on the twelve-slot bank. *)
Lemma pwmShutdownPulsesForAllMotors_count_beyond_bank :
  pwmShutdownPulsesForAllMotors 13 oneshot_state = Fault (OutOfBounds 12)
  /\ ~ exists st', pwmShutdownPulsesForAllMotors 13 oneshot_state = Ok st'.
Proof.
  split.
  - vm_compute. reflexivity.
  - intros [st' Hst']. vm_compute in Hst'. discriminate.
Qed.

(** C10, witness: the reference board with a count of thirteen. *)
Lemma count_functions_in_bounds_iff_within_capacity_witness :
  ((exists st', pwmShutdownPulsesForAllMotors 13 oneshot_state = Ok st')
   <-> (13 <= MAX_SUPPORTED_MOTORS)%nat)
  /\ ((MAX_SUPPORTED_MOTORS < 13)%nat ->
      pwmShutdownPulsesForAllMotors 13 oneshot_state
      = Fault (OutOfBounds MAX_SUPPORTED_MOTORS))
  /\ ((13 <= MAX_SUPPORTED_MOTORS)%nat ->
      forall i, pwmCompleteOneshotMotorUpdate 13 oneshot_state <> Fault (OutOfBounds i))
  /\ ((MAX_SUPPORTED_MOTORS < 13)%nat ->
      exists f, pwmCompleteOneshotMotorUpdate 13 oneshot_state = Fault f)
  /\ ((MAX_SUPPORTED_MOTORS < 13)%nat ->
      Forall (fun p => is_Some (tim p) /\ is_Some (ccr p)) (motors oneshot_state) ->
      pwmCompleteOneshotMotorUpdate 13 oneshot_state
      = Fault (OutOfBounds MAX_SUPPORTED_MOTORS))
  /\ (forall i v k, pwmWriteMotor i v oneshot_state <> Fault (OutOfBounds k)).
Proof.
  apply (count_functions_in_bounds_iff_within_capacity 13 oneshot_state).
  reflexivity.
Defined.

(** C4, witness: a write to the first brushed motor of the reference board. *)
Lemma pwmWriteMotor_frame_witness :
  (((MAX_SUPPORTED_MOTORS <= 0)%nat
    \/ (exists p, motors brushed_state !! 0%nat = Some p /\ enabled p = false)
    \/ pwmMotorsEnabled brushed_state = false) ->
   pwmWriteMotor 0 1500 brushed_state = Ok brushed_state)
  /\ (forall p, motors brushed_state !! 0%nat = Some p -> enabled p = true ->
        pwmMotorsEnabled brushed_state = true ->
        exists f, pwmWritePtr p = Some f
          /\ (analog f = true ->
              exists a, ccr p = Some a
                /\ pwmWriteMotor 0 1500 brushed_state
                   = Ok (set_regs
                           (<[a := timCCR_t (protocol_compare f p 1500)]>
                              (regs brushed_state))
                           brushed_state))
          /\ (analog f = false ->
              pwmWriteMotor 0 1500 brushed_state
              = Ok (emit (Ev_pwmWriteDigital 0 1500) brushed_state))).
Proof.
  apply (pwmWriteMotor_frame 0 1500 brushed_state).
  apply bank_consistent_check; reflexivity.
Defined.

(** C6, witness: the synchronised OneShot125 configuration of the
    reference board. *)
Lemma pwmIsSynced_iff_resync_required_witness :
  exists st',
    motorInit oneshot_config 1000 12 initial_state = Ok st'
    /\ (pwmCompleteWritePtr st' <> None <-> resync_required oneshot_config = true)
    /\ pwmIsSynced st' = resync_required oneshot_config
    /\ pwmIsSynced st'
       = match family_of (motorPwmProtocol oneshot_config) with
         | family_oneshot => negb (useUnsyncedPwm oneshot_config)
         | family_digital => true
         | family_fixed_rate => false
         end.
Proof.
  apply (pwmIsSynced_iff_resync_required oneshot_config 1000 12).
  unfold rate_usable. simpl. discriminate.
Defined.

(** C7, witness: four motors requested on the reference board, the third
    tag resolving to no timer. *)
Lemma motorInit_populates_resolved_prefix_witness :
  exists st',
    motorInit broken_config 1000 4 initial_state = Ok st'
    /\ (forall j tag hw,
          [(5, hardware_of_tag 5); (6, hardware_of_tag 6)] !! j = Some (tag, hw) ->
          motors st' !! j = Some (configured_port broken_config tag hw)
          /\ enabled (configured_port broken_config tag hw) = true
          /\ (table_row_of (motorPwmProtocol broken_config) <> row_digital ->
              regs st' !! timerChCCR hw = Some 0))
    /\ (forall j, (2 <= j < MAX_SUPPORTED_MOTORS)%nat ->
          motors st' !! j = Some port_zero)
    /\ enabled port_zero = false
    /\ trace st'
       = concat (imap (fun j '(tag, hw) =>
                         configured_events broken_config 1000 j tag hw)
                   [(5, hardware_of_tag 5); (6, hardware_of_tag 6)])
    /\ (forall motorConfig' motorCount',
          same_setup broken_config motorConfig' ->
          resolves motorConfig' [(5, hardware_of_tag 5); (6, hardware_of_tag 6)] ->
          (2 <= Nat.min MAX_SUPPORTED_MOTORS motorCount')%nat ->
          ((2 < Nat.min MAX_SUPPORTED_MOTORS motorCount')%nat ->
           unresolvable motorConfig' 2) ->
          motorInit motorConfig' 1000 motorCount' initial_state = Ok st').
Proof.
  apply (motorInit_populates_resolved_prefix broken_config 1000 4
           [(5, hardware_of_tag 5); (6, hardware_of_tag 6)]).
  - intros [|[|j]] tag hw Hj; simpl in Hj; try discriminate;
      injection Hj as <- <-; repeat split; discriminate.
  - vm_compute. lia.
  - intros _. right. reflexivity.
  - unfold table_rate_usable. simpl. discriminate.
Defined.

(** C8, witness: the first OneShot125 port of the reference board at mid
    throttle, with the clocks of the literal cases: 8 MHz for OneShot125
    and Multishot, 24 MHz for OneShot42. *)
Lemma oneshot_family_round_to_nearest_witness :
  (@pwmWriteOneShot125 f3_literal_clocks 0 1500 oneshot_state
   = Ok (set_regs
           (<[1073741876 := Float32.round_half_even (1500 * 8) 8]>
              (regs oneshot_state)) oneshot_state)
   /\ nearest_integer (1500 * 8) 8 (Float32.round_half_even (1500 * 8) 8))
  /\ (@pwmWriteOneShot42 f3_literal_clocks 0 1500 oneshot_state
      = Ok (set_regs
              (<[1073741876 := Float32.round_half_even (1500 * 24) 24]>
                 (regs oneshot_state)) oneshot_state)
      /\ nearest_integer (1500 * 24) 24
           (Float32.round_half_even (1500 * 24) 24))
  /\ (exists r,
        @pwmWriteMultiShot f3_literal_clocks 0 1500 oneshot_state
        = Ok (set_regs (<[1073741876 := r]> (regs oneshot_state)) oneshot_state)
        /\ nearest_integer (multishot_numerator 8 1500) 1000 r
        /\ (Z.even 8 = true ->
            r = Float32.round_half_even (multishot_numerator 8 1500) 1000))
  /\ (8 = 8 ->
      @pwmWriteOneShot125 f3_literal_clocks 0 1000 oneshot_state
      = Ok (set_regs (<[1073741876 := 1000]> (regs oneshot_state)) oneshot_state)
      /\ @pwmWriteOneShot125 f3_literal_clocks 0 2000 oneshot_state
         = Ok (set_regs (<[1073741876 := 2000]> (regs oneshot_state))
                 oneshot_state))
  /\ (8 = 8 ->
      @pwmWriteMultiShot f3_literal_clocks 0 1000 oneshot_state
      = Ok (set_regs (<[1073741876 := 40]> (regs oneshot_state)) oneshot_state)
      /\ @pwmWriteMultiShot f3_literal_clocks 0 2000 oneshot_state
         = Ok (set_regs (<[1073741876 := 200]> (regs oneshot_state))
                 oneshot_state)).
Proof.
  apply (@oneshot_family_round_to_nearest f3_literal_clocks 0 1500 oneshot_state
           {| ccr := Some 1073741876; tim := Some 1073741824; period := 65535;
              pwmWritePtr := Some fn_pwmWriteOneShot125; enabled := true;
              io := 1 |} 1073741876);
    first [reflexivity | lia].
Defined.

(** C9, witness: the Multishot encoder of the reference board. *)
Lemma analog_encoders_monotone_witness :
  timCCR_t (protocol_compare fn_pwmWriteMultiShot port_zero 1200)
  <= timCCR_t (protocol_compare fn_pwmWriteMultiShot port_zero 1800).
Proof.
  apply (analog_encoders_monotone fn_pwmWriteMultiShot port_zero 1200 1800);
    simpl; (reflexivity || lia).
Defined.

(** C2, witness: a write to the first brushed motor of the reference
    board, whose period is 1000. *)
Lemma pwmWriteBrushed_formula_witness :
  pwmWriteBrushed 0 1500 brushed_state
  = Ok (set_regs (<[1073741876 := (1500 - 1000) * 1000 / 1000]> (regs brushed_state))
          brushed_state)
  /\ 0 <= (1500 - 1000) * 1000 / 1000 <= 1000
  /\ (1500 = 1500 -> 1000 = 1000 -> (1500 - 1000) * 1000 / 1000 = 500).
Proof.
  apply (pwmWriteBrushed_formula 0 1500 brushed_state
           {| ccr := Some 1073741876; tim := Some 1073741824; period := 1000;
              pwmWritePtr := Some fn_pwmWriteBrushed; enabled := true;
              io := 1 |} 1073741876);
    simpl; (reflexivity || lia).
Defined.

(** C2, counterexample: the value 1500 written to a brushed port of period
    1000 stores 500, not 250. *)
Lemma pwmWriteBrushed_1500_period_1000_stores_500 :
  period <$> motors brushed_state !! 0%nat = Some 1000
  /\ ccr <$> motors brushed_state !! 0%nat = Some (Some 1073741876)
  /\ exists st',
       pwmWriteMotor 0 1500 brushed_state = Ok st'
       /\ regs st' !! 1073741876 = Some 500
       /\ regs st' !! 1073741876 <> Some 250.
Proof.
  split; [reflexivity|split; [reflexivity|]].
  eexists. split; [vm_compute; reflexivity|].
  split; [vm_compute; reflexivity|].
  vm_compute. discriminate.
Qed.

(** C3, witness: the first servo of the reference board. *)
Lemma pwmWriteServo_not_gated_witness :
  (forall gate,
     pwmWriteServo 0 1000 (set_pwmMotorsEnabled gate servo_state)
     = Ok (set_regs (<[1073744948 := timCCR_t 1000]> (regs servo_state))
             (set_pwmMotorsEnabled gate servo_state)))
  /\ pwmWriteServo 0 1000 (pwmDisableMotors servo_state)
     = Ok (set_regs (<[1073744948 := timCCR_t 1000]> (regs servo_state))
             (pwmDisableMotors servo_state))
  /\ (forall j w, pwmWriteMotor j w (pwmDisableMotors servo_state)
                  = Ok (pwmDisableMotors servo_state)).
Proof.
  apply (pwmWriteServo_not_gated 0 1000 servo_state
           {| ccr := Some 1073744948; tim := Some 1073744896; period := 20000;
              pwmWritePtr := None; enabled := true; io := 13 |} 1073744948);
    [vm_compute; lia | reflexivity | reflexivity].
Defined.

(** C3, counterexample: after [pwmDisableMotors], a servo write changes the
    servo's compare register from 0 to 1000. *)
Lemma pwmWriteServo_after_disable_changes_register :
  ccr <$> servos servo_state !! 0%nat = Some (Some 1073744948)
  /\ regs (pwmDisableMotors servo_state) !! 1073744948 = Some 0
  /\ exists st',
       pwmWriteServo 0 1000 (pwmDisableMotors servo_state) = Ok st'
       /\ regs st' !! 1073744948 = Some 1000
       /\ regs st' !! 1073744948 <> regs (pwmDisableMotors servo_state) !! 1073744948.
Proof.
  split; [reflexivity|split; [reflexivity|]].
  eexists. split; [vm_compute; reflexivity|].
  split; [vm_compute; reflexivity|].
  vm_compute. discriminate.
Qed.

(** After an initialisation that stopped at an unresolvable tag, the
    completion step run over the requested count meets a port without a
    handle and stores through its null [ccr]; the shutdown, which tests the
    pointer, returns. *)
Lemma pwmCompleteOneshotMotorUpdate_unpopulated_slot :
  pwmCompleteOneshotMotorUpdate 4
    (state_of (motorInit broken_config 1000 4 initial_state))
  = Fault NullPointer
  /\ exists st',
       pwmShutdownPulsesForAllMotors 4
         (state_of (motorInit broken_config 1000 4 initial_state))
       = Ok st'.
Proof.
  split; [vm_compute; reflexivity|].
  eexists. vm_compute. reflexivity.
Qed.

(** ** The further properties on the reference board *)

(** X1, witness: the four unsynchronised brushed motors of the reference
    board. *)
Lemma pwmCompleteMotorUpdate_unsynced_noop_witness :
  exists st',
    motorInit brushed_config 1000 4 initial_state = Ok st'
    /\ pwmCompleteMotorUpdate 4 st' = Ok st'.
Proof.
  apply (pwmCompleteMotorUpdate_unsynced_noop brushed_config 1000 4 4).
  - unfold rate_usable. simpl. discriminate.
  - reflexivity.
Defined.

(** X2, witness: two synchronised Multishot motors on tags 5 and 6, which
    share a timer. *)
Lemma pwmCompleteMotorUpdate_after_motorInit_witness :
  exists st' st'',
    motorInit broken_config 1000 2 initial_state = Ok st'
    /\ pwmCompleteMotorUpdate 2 st' = Ok st''
    /\ trace st''
       = trace st'
         ++ (Ev_timerForceOverflow
               <$> first_occurrences []
                     ((fun r => timerHardware_tim (snd r))
                        <$> [(5, hardware_of_tag 5); (6, hardware_of_tag 6)]))
    /\ (forall j tag hw,
          [(5, hardware_of_tag 5); (6, hardware_of_tag 6)] !! j = Some (tag, hw) ->
          regs st'' !! timerChCCR hw = Some 0)
    /\ motors st'' = motors st'.
Proof.
  apply (pwmCompleteMotorUpdate_after_motorInit broken_config 1000 2
           [(5, hardware_of_tag 5); (6, hardware_of_tag 6)]).
  - intros [|[|j]] tag hw Hj; simpl in Hj; try discriminate;
      injection Hj as <- <-; repeat split; discriminate.
  - reflexivity.
  - vm_compute. lia.
  - reflexivity.
  - reflexivity.
Defined.

(** X3, witness: the twelve populated motors of the reference board. *)
Lemma pwmCompleteOneshotMotorUpdate_returns_iff_populated_witness :
  ((exists st', pwmCompleteOneshotMotorUpdate 12 oneshot_state = Ok st')
   <-> (forall j p, (j < 12)%nat -> motors oneshot_state !! j = Some p ->
          port_populated p))
  /\ (pwmCompleteOneshotMotorUpdate 12 oneshot_state = Fault NullPointer
      <-> (exists j p, (j < 12)%nat /\ motors oneshot_state !! j = Some p
                       /\ (tim p = None \/ ccr p = None))).
Proof.
  apply (pwmCompleteOneshotMotorUpdate_returns_iff_populated 12 oneshot_state).
  - reflexivity.
  - vm_compute. lia.
Defined.

(** X4, witness: four motors requested, the third tag resolving to no
    timer. *)
Lemma pwmCompleteMotorUpdate_underpopulated_bank_witness :
  exists st',
    motorInit broken_config 1000 4 initial_state = Ok st'
    /\ pwmCompleteMotorUpdate 4 st' = Fault NullPointer
    /\ exists st'', pwmShutdownPulsesForAllMotors 4 st' = Ok st''.
Proof.
  apply (pwmCompleteMotorUpdate_underpopulated_bank broken_config 1000 4
           [(5, hardware_of_tag 5); (6, hardware_of_tag 6)]).
  - intros [|[|j]] tag hw Hj; simpl in Hj; try discriminate;
      injection Hj as <- <-; repeat split; discriminate.
  - simpl. lia.
  - vm_compute. lia.
  - right. reflexivity.
  - reflexivity.
  - reflexivity.
Defined.

(** X5, witness: a second initialisation of the reference board, as four
    brushed motors, over the twelve OneShot125 motors. *)
Lemma motorInit_never_disables_witness :
  exists st',
    motorInit brushed_config 1000 4 oneshot_state = Ok st'
    /\ (forall j p, motors oneshot_state !! j = Some p -> enabled p = true ->
          exists p', motors st' !! j = Some p' /\ enabled p' = true)
    /\ (pwmIsSynced oneshot_state = true -> pwmIsSynced st' = true)
    /\ servos st' = servos oneshot_state
    /\ pwmMotorsEnabled st' = pwmMotorsEnabled oneshot_state.
Proof.
  apply (motorInit_never_disables brushed_config 1000 4 oneshot_state).
  - reflexivity.
  - unfold rate_usable. simpl. discriminate.
Defined.

(** X6, witness: the same second initialisation. *)
Lemma motorInit_keeps_bank_invariants_witness :
  exists st',
    motorInit brushed_config 1000 4 oneshot_state = Ok st'
    /\ bank_consistent st'
    /\ periods_16bit st'.
Proof.
  apply (motorInit_keeps_bank_invariants brushed_config 1000 4 oneshot_state).
  - apply bank_consistent_check; reflexivity.
  - unfold periods_16bit. simpl.
    repeat (constructor; [simpl; lia|]). constructor.
  - unfold rate_usable. simpl. discriminate.
Defined.

(** X7, witness: the two servos of the reference board, on tags 13 and
    14. *)
Lemma servoInit_populates_resolved_prefix_witness :
  exists st',
    servoInit servo_config initial_state = Ok st'
    /\ (forall j tag hw,
          [(13, hardware_of_tag 13); (14, hardware_of_tag 14)] !! j
          = Some (tag, hw) ->
          servos st' !! j = Some (servo_port servo_config tag hw port_zero)
          /\ regs st' !! timerChCCR hw = Some 0)
    /\ (forall j p, (2 <= j)%nat -> servos st' !! j = Some p ->
          enabled p = false /\ ccr p = None)
    /\ (forall j, (2 < j < MAX_SUPPORTED_SERVOS)%nat ->
          servos st' !! j = Some port_zero)
    /\ motors st' = motors initial_state
    /\ pwmCompleteWritePtr st' = None
    /\ pwmMotorsEnabled st' = true.
Proof.
  apply (servoInit_populates_resolved_prefix servo_config
           [(13, hardware_of_tag 13); (14, hardware_of_tag 14)]).
  - intros [|[|j]] tag hw Hj; simpl in Hj; try discriminate;
      injection Hj as <- <-; repeat split; discriminate.
  - vm_compute. lia.
  - intros _. left. reflexivity.
  - simpl. discriminate.
Defined.

(** X8, witness: a servo bank whose second tag, 99, resolves to no timer. *)
Lemma servoInit_stopping_slot_witness :
  (nth 1 [13; 99] 0 = 0 ->
   exists st',
     servoInit {| servoCenterPulse := 1500; servoPwmRate := 50;
                  servo_ioTags := [13; 99] |} initial_state = Ok st'
     /\ servos st' !! 1%nat = Some port_zero
     /\ trace st'
        = concat (imap (fun k '(tag, hw) =>
                          servo_pin_events k tag
                          ++ servo_timer_events
                               {| servoCenterPulse := 1500; servoPwmRate := 50;
                                  servo_ioTags := [13; 99] |} hw)
                    [(13, hardware_of_tag 13)]))
  /\ (nth 1 [13; 99] 0 <> 0 ->
      timerGetByTag (nth 1 [13; 99] 0) TIMER_OUTPUT_ENABLED = None ->
      exists st',
        servoInit {| servoCenterPulse := 1500; servoPwmRate := 50;
                     servo_ioTags := [13; 99] |} initial_state = Ok st'
        /\ servos st' !! 1%nat
           = Some {| ccr := None; tim := None; period := 0;
                     pwmWritePtr := None; enabled := false;
                     io := IOGetByTag (nth 1 [13; 99] 0) |}
        /\ trace st'
           = concat (imap (fun k '(tag, hw) =>
                             servo_pin_events k tag
                             ++ servo_timer_events
                                  {| servoCenterPulse := 1500;
                                     servoPwmRate := 50;
                                     servo_ioTags := [13; 99] |} hw)
                       [(13, hardware_of_tag 13)])
             ++ servo_pin_events 1 (nth 1 [13; 99] 0)).
Proof.
  apply (servoInit_stopping_slot
           {| servoCenterPulse := 1500; servoPwmRate := 50;
              servo_ioTags := [13; 99] |}
           [(13, hardware_of_tag 13)]).
  - intros [|j] tag hw Hj; simpl in Hj; try discriminate;
      injection Hj as <- <-; repeat split; discriminate.
  - vm_compute. lia.
  - simpl. discriminate.
Defined.

(** X9, witness: a write to the first servo of the reference board. *)
Lemma pwmWriteServo_total_and_framed_witness :
  (exists st', pwmWriteServo 0 1500 servo_state = Ok st'
               /\ st' = set_regs (regs st') servo_state)
  /\ ((MAX_SUPPORTED_SERVOS <= 0)%nat ->
      pwmWriteServo 0 1500 servo_state = Ok servo_state)
  /\ (forall p, servos servo_state !! 0%nat = Some p -> ccr p = None ->
        pwmWriteServo 0 1500 servo_state = Ok servo_state).
Proof.
  apply (pwmWriteServo_total_and_framed 0 1500 servo_state).
  reflexivity.
Defined.

(** X10, witness: the second servo of the reference board driven to 1500. *)
Lemma pwmWriteServo_after_servoInit_witness :
  exists st' st'',
    servoInit servo_config initial_state = Ok st'
    /\ pwmWriteServo 1 1500 st' = Ok st''
    /\ regs st'' !! timerChCCR (hardware_of_tag 14) = Some 1500
    /\ (forall a, a <> timerChCCR (hardware_of_tag 14) ->
          regs st'' !! a = regs st' !! a).
Proof.
  apply (pwmWriteServo_after_servoInit servo_config
           [(13, hardware_of_tag 13); (14, hardware_of_tag 14)]
           1 14 (hardware_of_tag 14) 1500).
  - intros [|[|j]] tag hw Hj; simpl in Hj; try discriminate;
      injection Hj as <- <-; repeat split; discriminate.
  - vm_compute. lia.
  - intros _. left. reflexivity.
  - simpl. discriminate.
  - reflexivity.
  - lia.
Defined.

(** X11, witness: the command 500 on a brushed port of period 1000. *)
Lemma pwmWriteBrushed_below_1000_wraps_witness :
  Encoder.brushed 1000 500 = - ((1000 - 500) * 1000 / 1000)
  /\ 0 <= (1000 - 500) * 1000 / 1000 <= 1000
  /\ ((1000 - 500) * 1000 < 1000 ->
      timCCR_t (Encoder.brushed 1000 500) = 0)
  /\ (1000 <= (1000 - 500) * 1000 ->
      timCCR_t (Encoder.brushed 1000 500)
      = timCCR_modulus - (1000 - 500) * 1000 / 1000)
  /\ (1000 <= (1000 - 500) * 1000 -> 1000 < 32768 ->
      1000 < timCCR_t (Encoder.brushed 1000 500)).
Proof.
  apply (pwmWriteBrushed_below_1000_wraps 1000 500); lia.
Defined.


(** X13, witness: the first brushed motor of the reference board. *)
Lemma pwmShutdownPulsesForAllMotors_does_not_latch_witness :
  (exists st1 st2,
      pwmWriteMotor 0 1500 brushed_state = Ok st1
      /\ pwmShutdownPulsesForAllMotors 4 st1 = Ok st2
      /\ regs st2 !! 1073741876 = Some 0)
  /\ (exists st3 st4,
        pwmShutdownPulsesForAllMotors 4 brushed_state = Ok st3
        /\ pwmMotorsEnabled st3 = true
        /\ pwmWriteMotor 0 1500 st3 = Ok st4
        /\ regs st4 !! 1073741876
           = Some (timCCR_t
                     (protocol_compare fn_pwmWriteBrushed
                        {| ccr := Some 1073741876; tim := Some 1073741824;
                           period := 1000;
                           pwmWritePtr := Some fn_pwmWriteBrushed;
                           enabled := true; io := 1 |} 1500))).
Proof.
  apply (pwmShutdownPulsesForAllMotors_does_not_latch 4 0 1500 brushed_state
           {| ccr := Some 1073741876; tim := Some 1073741824; period := 1000;
              pwmWritePtr := Some fn_pwmWriteBrushed; enabled := true;
              io := 1 |} fn_pwmWriteBrushed 1073741876);
    first [reflexivity | vm_compute; lia].
Defined.

(** X14, witness: four Dshot600 motors on the reference board, which is
    built with [USE_DSHOT]. *)
Lemma pwmShutdownPulsesForAllMotors_digital_noop_witness :
  exists st',
    motorInit {| motorPwmRate := 480; motorPwmProtocol := PWM_TYPE_DSHOT600;
                 useUnsyncedPwm := false; ioTags := [1; 2; 3; 4] |}
      1000 4 initial_state = Ok st'
    /\ Forall (fun p => ccr p = None) (motors st')
    /\ pwmShutdownPulsesForAllMotors 4 st' = Ok st'.
Proof.
  apply (pwmShutdownPulsesForAllMotors_digital_noop
           {| motorPwmRate := 480; motorPwmProtocol := PWM_TYPE_DSHOT600;
              useUnsyncedPwm := false; ioTags := [1; 2; 3; 4] |} 1000 4 4).
  - reflexivity.
  - vm_compute. lia.
Defined.

(** X16, witness: the twelve OneShot125 motors of the reference board,
    initialised twice. *)
Lemma motorInit_idempotent_witness :
  exists st1 st2 calls,
    motorInit oneshot_config 1000 12 initial_state = Ok st1
    /\ motorInit oneshot_config 1000 12 st1 = Ok st2
    /\ motors st2 = motors st1
    /\ servos st2 = servos st1
    /\ regs st2 = regs st1
    /\ pwmCompleteWritePtr st2 = pwmCompleteWritePtr st1
    /\ pwmMotorsEnabled st2 = pwmMotorsEnabled st1
    /\ trace st1 = trace initial_state ++ calls
    /\ trace st2 = trace st1 ++ calls.
Proof.
  apply (motorInit_idempotent oneshot_config 1000 12 initial_state).
  - reflexivity.
  - unfold rate_usable. simpl. discriminate.
Defined.

(** X17, witness: the second of the two Multishot motors that resolve on
    the reference board, at mid throttle. *)
Lemma pwmWriteMotor_after_motorInit_witness :
  exists st' st'',
    motorInit broken_config 1000 4 initial_state = Ok st'
    /\ pwmWriteMotor 1 1500 st' = Ok st''
    /\ regs st'' !! timerChCCR (hardware_of_tag 6)
       = Some (timCCR_t
                 match motorPwmProtocol broken_config with
                 | PWM_TYPE_STANDARD => Encoder.standard 1500
                 | PWM_TYPE_BRUSHED =>
                     Encoder.brushed (slot_period broken_config 1000) 1500
                 | PWM_TYPE_ONESHOT42 =>
                     Encoder.oneshot42 ONESHOT42_TIMER_MHZ 1500
                 | PWM_TYPE_MULTISHOT =>
                     Encoder.multishot MULTISHOT_TIMER_MHZ 1500
                 | _ => Encoder.oneshot125 ONESHOT125_TIMER_MHZ 1500
                 end)
    /\ (forall a, a <> timerChCCR (hardware_of_tag 6) ->
          regs st'' !! a = regs st' !! a)
    /\ (forall k, (2 <= k)%nat -> pwmWriteMotor k 1500 st' = Ok st').
Proof.
  apply (pwmWriteMotor_after_motorInit broken_config 1000 4
           [(5, hardware_of_tag 5); (6, hardware_of_tag 6)]
           1 6 (hardware_of_tag 6) 1500).
  - intros [|[|j]] tag hw Hj; simpl in Hj; try discriminate;
      injection Hj as <- <-; repeat split; discriminate.
  - vm_compute. lia.
  - intros _. right. reflexivity.
  - unfold rate_usable. simpl. discriminate.
  - reflexivity.
  - reflexivity.
Defined.
